(** * webdataset.cache: a shallow embedding of the local file cache

    The development follows [src/webdataset/cache.py]:
    - [pipe_cleaner] and [url_to_cache_name] (the cache naming functions),
    - [LRUCleanup] (the size-bounded sweeper of the cache directory),
    - [download] (fetch into a temporary file, then rename),
    - [FileCache] (construction, [get_file], [open_file] and the generator
      [__call__]).

    Python values are modelled as follows: [str] as [string], [int] and time
    stamps as [Z], byte strings as [list byte], lists as [list], exceptions as
    the inductive type [exn], and a call that can raise as a value of
    [result].  The file system is a finite map from literal path strings to
    regular files together with a finite set of directory paths. *)

From Stdlib Require Import ZArith Lia Ascii String List Bool.
From Stdlib.Strings Require Import Byte.
From stdpp Require Import gmap strings list fin_maps sorting pretty.

Local Open Scope string_scope.
Local Open Scope list_scope.
Local Open Scope Z_scope.

(** ** Exceptions and results *)

Inductive exn : Type :=
| AttributeError (name : string)
| NameError (name : string)
| TypeError
| IndexError
| KeyError (key : string)
| ValueError
| AssertionError
| OSError
| FileNotFoundError
| TransportError (code : nat).

(** [FileNotFoundError] is a subclass of [OSError]: the clause
    [except (OSError, FileNotFoundError)] catches exactly this family. *)
Definition is_OSError (e : exn) : bool :=
  match e with
  | OSError | FileNotFoundError => true
  | _ => false
  end.

Inductive result (A : Type) : Type :=
| Ok (a : A)
| Raise (e : exn).
Arguments Ok {A} a.
Arguments Raise {A} e.

Definition rbind {A B} (r : result A) (k : A -> result B) : result B :=
  match r with
  | Ok a => k a
  | Raise e => Raise e
  end.

(** ** Python string operations used by the module *)

Module Py.

(** [s.startswith(p)] *)
Definition startswith (p s : string) : bool := String.prefix p s.

(** [s[n:]] for [0 <= n] *)
Fixpoint drop (n : nat) (s : string) : string :=
  match n, s with
  | O, _ => s
  | S _, EmptyString => EmptyString
  | S n', String _ s' => drop n' s'
  end.

(** [s.split(sep)] for a one-character separator: empty fields are kept. *)
Fixpoint split (sep : ascii) (s : string) : list string :=
  match s with
  | EmptyString => [EmptyString]
  | String c s' =>
      if Ascii.eqb c sep then EmptyString :: split sep s'
      else match split sep s' with
           | w :: ws => String c w :: ws
           | [] => [String c EmptyString]
           end
  end.

(** [needle in hay] *)
Fixpoint contains (needle hay : string) : bool :=
  startswith needle hay
  || match hay with
     | EmptyString => false
     | String _ hay' => contains needle hay'
     end.

(** Iterating over a [str] yields its characters as one-character strings. *)
Fixpoint chars (s : string) : list string :=
  match s with
  | EmptyString => []
  | String c s' => String c EmptyString :: chars s'
  end.

(** [sep.join(items)] *)
Definition join (sep : string) (items : list string) : string :=
  String.concat sep items.

(** [l[i]] with Python's negative indices; out of range raises [IndexError]. *)
Definition index {A} (l : list A) (i : Z) : result A :=
  let n := Z.of_nat (length l) in
  let j := if i <? 0 then i + n else i in
  if (j <? 0) || (n <=? j) then Raise IndexError
  else match l !! Z.to_nat j with
       | Some x => Ok x
       | None => Raise IndexError
       end.

End Py.

(** ** pipe_cleaner *)

(** The alternatives of the regular expression [^(https?|hdfs|gs|ais|s3):],
    each followed by the colon; [re.match] anchors at the start of the word. *)
Definition url_scheme_prefixes : list string :=
  ["http:"; "https:"; "hdfs:"; "gs:"; "ais:"; "s3:"].

Definition matches_url_scheme (word : string) : bool :=
  existsb (fun p => Py.startswith p word) url_scheme_prefixes.

Definition pipe_cleaner (spec : string) : string :=
  if Py.startswith "pipe:" spec then
    let spec := Py.drop 5 spec in
    let words := Py.split " " spec in
    match List.find matches_url_scheme words with
    | Some word => word
    | None => spec
    end
  else spec.

(** ** url_to_cache_name *)

(** The fields of [urllib.parse.ParseResult] that the module reads. *)
Record ParseResult : Type := mkParseResult {
  scheme : string;
  netloc : string;
  path : string
}.

(** The list literal tested by [parsed.scheme in [...]]; its first element is
    [None], which no string equals. *)
Definition cache_name_schemes : list (option string) :=
  [None; Some ""; Some "file"; Some "http"; Some "https"; Some "ftp";
   Some "ftps"; Some "gs"; Some "s3"; Some "ais"].

Section Naming.

(** [urllib.parse.urlparse] belongs to the Python standard library; the
    module only reads [scheme] and [path] of its result. *)
Variable urlparse : string -> ParseResult.

(** The [else] branch evaluates [urllib.parse.quote], but the module binds
    only the name [urlparse] ([from urllib.parse import urlparse]), so the
    global name [urllib] is unbound there. *)
Definition url_to_cache_name (url : string) (ndir : Z) : result string :=
  let parsed := urlparse url in
  if bool_decide (Some (scheme parsed) ∈ cache_name_schemes) then
    let list_of_directories := Py.split "/" (path parsed) in
    rbind (Py.index list_of_directories (-1 - ndir))
          (fun segment => Ok (Py.join "/" (Py.chars segment)))
  else Raise (NameError "urllib").

End Naming.

(** A reference model of [urlparse] for URLs without bracketed hosts: the
    leading blanks and control characters are stripped, tabs and line breaks
    are removed, then come scheme detection, [//netloc], and the fragment, the
    query and the parameters are cut off the path. *)
Module UrlParse.

(** [url.lstrip(_WHATWG_C0_CONTROL_OR_SPACE)]: the characters up to the
    space. *)
Fixpoint lstrip_blanks (s : string) : string :=
  match s with
  | EmptyString => EmptyString
  | String c s' => if (nat_of_ascii c <=? 32)%nat then lstrip_blanks s' else s
  end.

(** [url.replace(b, "")] for the tab, the carriage return and the line
    feed. *)
Fixpoint remove_unsafe (s : string) : string :=
  match s with
  | EmptyString => EmptyString
  | String c s' =>
      let n := nat_of_ascii c in
      if (n =? 9)%nat || (n =? 10)%nat || (n =? 13)%nat then remove_unsafe s'
      else String c (remove_unsafe s')
  end.

Definition is_alpha (c : ascii) : bool :=
  let n := nat_of_ascii c in
  ((65 <=? n)%nat && (n <=? 90)%nat) || ((97 <=? n)%nat && (n <=? 122)%nat).

Definition is_scheme_char (c : ascii) : bool :=
  let n := nat_of_ascii c in
  is_alpha c || ((48 <=? n)%nat && (n <=? 57)%nat)
  || Ascii.eqb c "+" || Ascii.eqb c "-" || Ascii.eqb c ".".

Definition lower (c : ascii) : ascii :=
  let n := nat_of_ascii c in
  if ((65 <=? n)%nat && (n <=? 90)%nat) then ascii_of_nat (n + 32) else c.

Fixpoint map_chars (f : ascii -> ascii) (s : string) : string :=
  match s with
  | EmptyString => EmptyString
  | String c s' => String (f c) (map_chars f s')
  end.

Fixpoint all_chars (f : ascii -> bool) (s : string) : bool :=
  match s with
  | EmptyString => true
  | String c s' => f c && all_chars f s'
  end.

(** [s.split(sep, 1)] when [sep] occurs, as the pair (before, after);
    [(s, None)] otherwise. *)
Fixpoint cut (stop : ascii -> bool) (s : string) : string * option string :=
  match s with
  | EmptyString => (EmptyString, None)
  | String c s' =>
      if stop c then (EmptyString, Some s')
      else let '(a, b) := cut stop s' in (String c a, b)
  end.

(** The longest prefix without a stop character, and the rest (which keeps
    the stop character). *)
Fixpoint span (stop : ascii -> bool) (s : string) : string * string :=
  match s with
  | EmptyString => (EmptyString, EmptyString)
  | String c s' =>
      if stop c then (EmptyString, s)
      else let '(a, b) := span stop s' in (String c a, b)
  end.

Definition uses_params : list string :=
  [""; "ftp"; "hdl"; "prospero"; "http"; "imap"; "https"; "shttp"; "rtsp";
   "rtspu"; "sip"; "sips"; "mms"; "sftp"; "tel"].

Definition split_scheme (url : string) : string * string :=
  match url with
  | String c0 _ =>
      match cut (fun c => Ascii.eqb c ":") url with
      | (pre, Some rest) =>
          if is_alpha c0 && all_chars is_scheme_char pre
          then (map_chars lower pre, rest)
          else ("", url)
      | (_, None) => ("", url)
      end
  | EmptyString => ("", url)
  end.

Definition split_netloc (url : string) : string * string :=
  if Py.startswith "//" url then
    span (fun c => Ascii.eqb c "/" || Ascii.eqb c "?" || Ascii.eqb c "#")
         (Py.drop 2 url)
  else ("", url).

(** [_splitparams]: the parameters start at the first [;] of the last path
    segment. *)
Definition strip_params (p : string) : string :=
  match rev (Py.split "/" p) with
  | last :: before =>
      Py.join "/" (rev (fst (cut (fun c => Ascii.eqb c ";") last) :: before))
  | [] => p
  end.

Definition urlparse (url : string) : ParseResult :=
  let url := remove_unsafe (lstrip_blanks url) in
  let '(sch, rest) := split_scheme url in
  let '(loc, rest) := split_netloc rest in
  let rest := fst (cut (fun c => Ascii.eqb c "#") rest) in
  let rest := fst (cut (fun c => Ascii.eqb c "?") rest) in
  let rest := if bool_decide (sch ∈ uses_params) then strip_params rest
              else rest in
  mkParseResult sch loc rest.

End UrlParse.

(** ** The environment: file system, clock, transport *)

(** A regular file: its bytes and its creation time stamp. *)
Record finfo : Type := mkFile {
  f_data : list byte;
  f_ctime : Z
}.

Definition f_size (f : finfo) : Z := Z.of_nat (length (f_data f)).

(** What one call of [stream.read(chunk_size)] does: it returns a chunk, or the
    transport fails.  A stream is the list of its future reads; after the last
    one every read returns the empty byte string. *)
Inductive read_step : Type :=
| Chunk (data : list byte)
| ReadFault (e : exn).

(** Calls and outputs worth observing, in the order they happen. *)
Inductive event : Type :=
| Stderr (msg : string)
| Os_remove (fname : string)
| Call_cleanup
| Call_download (url dest : string)
| Call_validator (dest : string)
| Call_handler (e : exn).

Record World : Type := mkWorld {
  files : gmap string finfo;          (* regular files by path *)
  dirs : gset string;                 (* directories by path *)
  time_source : nat -> Z;             (* the n-th reading of [time.time()] *)
  time_reads : nat;
  pid : nat;                          (* [os.getpid()] *)
  remote : string -> result (list read_step);   (* [gopen.gopen(url)] *)
  fsize_limit : option nat;           (* largest file the system lets us write *)
  file_command : option (string -> option (list byte) -> string);  (* the UNIX [file] utility *)
  log : list event
}.

Definition set_files (f : gmap string finfo -> gmap string finfo) (w : World) : World :=
  mkWorld (f (files w)) (dirs w) (time_source w) (time_reads w) (pid w)
          (remote w) (fsize_limit w) (file_command w) (log w).

Definition set_dirs (f : gset string -> gset string) (w : World) : World :=
  mkWorld (files w) (f (dirs w)) (time_source w) (time_reads w) (pid w)
          (remote w) (fsize_limit w) (file_command w) (log w).

Definition set_time_reads (n : nat) (w : World) : World :=
  mkWorld (files w) (dirs w) (time_source w) n (pid w)
          (remote w) (fsize_limit w) (file_command w) (log w).

Definition add_event (ev : event) (w : World) : World :=
  mkWorld (files w) (dirs w) (time_source w) (time_reads w) (pid w)
          (remote w) (fsize_limit w) (file_command w) (log w ++ [ev]).

(** ** A state and exception monad

    A computation runs on a state and either returns or raises; the state
    survives an exception, as side effects do in Python. *)

Definition M (S A : Type) : Type := S -> result A * S.

Definition ret {S A} (a : A) : M S A := fun s => (Ok a, s).

Definition raise {S A} (e : exn) : M S A := fun s => (Raise e, s).

Definition bind {S A B} (m : M S A) (k : A -> M S B) : M S B :=
  fun s => match m s with
           | (Ok a, s') => k a s'
           | (Raise e, s') => (Raise e, s')
           end.

Definition gets {S A} (f : S -> A) : M S A := fun s => (Ok (f s), s).

Definition modify {S} (f : S -> S) : M S unit := fun s => (Ok tt, f s).

Definition lift_result {S A} (r : result A) : M S A := fun s => (r, s).

Declare Scope monad_scope.
Delimit Scope monad_scope with monad.
Notation "x <- m ;; k" := (bind m (fun x => k))
  (at level 100, m at next level, right associativity) : monad_scope.
Notation "m ;; k" := (bind m (fun _ => k))
  (at level 100, right associativity) : monad_scope.
Local Open Scope monad_scope.

Definition when {S} (b : bool) (m : M S unit) : M S unit :=
  if b then m else ret tt.

Definition emit (ev : event) : M World unit := modify (add_event ev).

(** ** Paths ([posixpath]) *)

Module Path.

Definition is_sep (c : ascii) : bool := Ascii.eqb c "/".

Fixpoint has_sep (s : string) : bool :=
  match s with
  | EmptyString => false
  | String c s' => is_sep c || has_sep s'
  end.

Fixpoint endswith_sep (s : string) : bool :=
  match s with
  | EmptyString => false
  | String c EmptyString => is_sep c
  | String _ s' => endswith_sep s'
  end.

(** [os.path.join(a, b)] *)
Definition join (a b : string) : string :=
  if Py.startswith "/" b then b
  else if String.eqb a "" || endswith_sep a then a +:+ b
  else a +:+ "/" +:+ b.

(** [s.rstrip("/")] *)
Fixpoint rstrip (s : string) : string :=
  match s with
  | EmptyString => EmptyString
  | String c s' =>
      let r := rstrip s' in
      if String.eqb r "" && is_sep c then EmptyString else String c r
  end.

(** [p[:p.rfind("/") + 1]] *)
Fixpoint head (p : string) : string :=
  match p with
  | EmptyString => EmptyString
  | String c p' => if is_sep c || has_sep p' then String c (head p') else EmptyString
  end.

(** [os.path.dirname(p)]: the head, without its trailing separators unless
    it consists of separators only. *)
Definition dirname (p : string) : string :=
  let h := head p in
  if String.eqb (rstrip h) "" then h else rstrip h.

(** Directory paths are recorded without trailing separators. *)
Definition norm (p : string) : string :=
  if String.eqb (rstrip p) "" then (if String.eqb p "" then "" else "/")
  else rstrip p.

(** The path and its ancestors: [a], [a/b], [a/b/c] for [a/b/c]; an empty
    component contributes no directory of its own. *)
Definition ancestors (p : string) : list string :=
  let comps := Py.split "/" (norm p) in
  List.filter (fun q => negb (String.eqb q "") && String.eqb (norm q) q)
    (List.map (fun k => Py.join "/" (take k comps)) (seq 1 (length comps))).


(** [p] lies below the directory [top]. *)
Definition under (top p : string) : bool :=
  negb (String.eqb top "") && Py.startswith (join top "") p
  && negb (String.eqb p (join top "")).

End Path.

(** ** Operating-system calls *)

(** [os.path.exists]: a regular file, or a directory, has this path.  The
    file system is a map on the path strings as they are written; it answers
    as the operating system does where the paths it holds and the path asked
    for are [Path.canonical]. *)
Definition exists_at (w : World) (p : string) : bool :=
  bool_decide (is_Some (files w !! p))
  || (negb (String.eqb p "") && bool_decide (Path.norm p ∈ dirs w)).

Definition os_path_exists (p : string) : M World bool :=
  gets (fun w => exists_at w p).

(** [os.path.getsize] on a regular file *)
Definition os_path_getsize (p : string) : M World Z :=
  fun w => match files w !! p with
           | Some f => (Ok (f_size f), w)
           | None => (Raise FileNotFoundError, w)
           end.

(** [os.path.getctime], the default recency key; like every key function it
    reads the file system. *)
Definition os_path_getctime (fs : gmap string finfo) (p : string) : result Z :=
  match fs !! p with
  | Some f => Ok (f_ctime f)
  | None => Raise FileNotFoundError
  end.

(** [os.remove] *)
Definition os_remove (p : string) : M World unit :=
  fun w => match files w !! p with
           | Some _ => (Ok tt, add_event (Os_remove p) (set_files (delete p) w))
           | None => (Raise FileNotFoundError, w)
           end.

(** [os.makedirs(name, exist_ok=True)] *)
Definition os_makedirs (name : string) : M World unit :=
  fun w =>
    if String.eqb name "" then (Raise FileNotFoundError, w)
    else if existsb (fun q => bool_decide (is_Some (files w !! q))) (Path.ancestors name)
    then (Raise OSError, w)
    else (Ok tt, set_dirs (fun d => d ∪ list_to_set (Path.ancestors name)) w).

(** [time.time()]: the next reading of the clock. *)
Definition time_time : M World Z :=
  fun w => (Ok (time_source w (time_reads w)), set_time_reads (S (time_reads w)) w).

(** The files that [os.walk(top)] reports, as [os.path.join(dirpath, filename)].
    The order in which the operating system lists a directory is not
    specified; the model lists the files in one order, which depends on the
    set of paths only. *)
Definition walk (top : string) (w : World) : list string :=
  (map_to_list (filter (fun entry => Path.under top (fst entry)) (files w))).*1.

(** ** LRUCleanup *)

Record LRUCleanup : Type := mkLRUCleanup {
  cache_dir : option string;
  cache_size : Z;
  keyfn : gmap string finfo -> string -> result Z;
  verbose : bool;
  interval : option Z;
  last_run : Z
}.

(** [LRUCleanup.__init__] with its defaults spelled out by the caller:
    [cache_dir=None], [cache_size=int(1e12)], [keyfn=os.path.getctime],
    [verbose=False], [interval=30]. *)
Definition LRUCleanup_init (cache_dir : option string) (cache_size : Z)
    (keyfn : gmap string finfo -> string -> result Z) (verbose : bool) (interval : option Z)
  : LRUCleanup :=
  mkLRUCleanup cache_dir cache_size keyfn verbose interval 0.

Definition set_last_run (t : Z) (self : LRUCleanup) : LRUCleanup :=
  mkLRUCleanup (cache_dir self) (cache_size self) (keyfn self) (verbose self)
               (interval self) t.

(** [files.sort(key=keyfn, reverse=True)]: the keys are computed once, the
    sort is stable, and [reverse=True] keeps the original order of equal keys. *)
Fixpoint insert_desc (x : Z * string) (l : list (Z * string)) : list (Z * string) :=
  match l with
  | [] => [x]
  | y :: l' => if fst y <=? fst x then x :: y :: l' else y :: insert_desc x l'
  end.

Definition sort_desc (l : list (Z * string)) : list (Z * string) :=
  foldr insert_desc [] l.

Fixpoint with_keys (key : gmap string finfo -> string -> result Z) (paths : list string)
  : M World (list (Z * string)) :=
  match paths with
  | [] => ret []
  | p :: ps =>
      k <- (fun w => (key (files w) p, w)) ;;
      rest <- with_keys key ps ;;
      ret ((k, p) :: rest)
  end.

(** The first loop: [total_size += os.path.getsize(...)] over the walk. *)
Fixpoint sum_sizes (paths : list string) (total_size : Z) : M World Z :=
  match paths with
  | [] => ret total_size
  | p :: ps => sz <- os_path_getsize p ;; sum_sizes ps (total_size + sz)
  end.

(** The [while] loop.  [stack] is the sorted list read from its end, so its
    head is what [files.pop()] returns. *)
Fixpoint delete_loop (self : LRUCleanup) (stack : list string) (total_size : Z)
  : M World unit :=
  match stack with
  | [] => ret tt
  | fname :: rest =>
      if cache_size self <? total_size then
        sz <- os_path_getsize fname ;;
        when (verbose self) (emit (Stderr ("# deleting " +:+ fname))) ;;
        os_remove fname ;;
        delete_loop self rest (total_size - sz)
      else ret tt
  end.

(** How the [try] block ends: by its [return] statement, or by reaching its
    end (also after a swallowed exception). *)
Inductive completion : Type := Returned | FellThrough.

(** The body of the [try] block. *)
Definition sweep (self : LRUCleanup) (dir : string) : M World completion :=
  paths <- gets (walk dir) ;;
  total_size <- sum_sizes paths 0 ;;
  if total_size <=? cache_size self then ret Returned
  else
    paths <- gets (walk dir) ;;
    keyed <- with_keys (keyfn self) paths ;;
    let files := (sort_desc keyed).*2 in
    delete_loop self (rev files) total_size ;;
    ret FellThrough.

(** [except (OSError, FileNotFoundError): pass] *)
Definition except_OSError (body : M World completion) : M World completion :=
  fun w => match body w with
           | (Raise e, w') => if is_OSError e then (Ok FellThrough, w') else (Raise e, w')
           | r => r
           end.

(** [LRUCleanup.cleanup]; the result is the object after the call. *)
Definition cleanup (self : LRUCleanup) : M World LRUCleanup :=
  dir <- lift_result (match cache_dir self with
                      | Some d => Ok d
                      | None => Raise TypeError
                      end) ;;
  present <- os_path_exists dir ;;
  if negb present then ret self
  else
    too_soon <- match interval self with
                | None => ret false
                | Some i => now <- time_time ;; ret (now - last_run self <? i)
                end ;;
    if too_soon then ret self
    else
      c <- except_OSError (sweep self dir) ;;
      match c with
      | Returned => ret self
      | FellThrough => now <- time_time ;; ret (set_last_run now self)
      end.

(** ** download *)

(** [dest + f".temp{os.getpid()}"] *)
Definition temp_name (dest : string) (pid : nat) : string :=
  dest +:+ ".temp" +:+ pretty pid.

(** [gopen.gopen(url)]: the transport layer opens a stream or raises. *)
Definition gopen (url : string) : M World (list read_step) :=
  fun w => (remote w url, w).

(** The directory that is to hold [p] exists: [p] has no directory part (it
    lies in the working directory), or its directory is the root or one of the
    directories. *)
Definition parent_exists (w : World) (p : string) : bool :=
  let d := Path.dirname p in
  String.eqb d "" || String.eqb (Path.norm d) "/"
  || bool_decide (Path.norm d ∈ dirs w).

(** [open(p, "wb")]: the file is created, or truncated.  The call fails on
    the empty path, on a directory, and where the directory that is to hold
    the file does not exist ([NotADirectoryError] when a file stands in its
    place, [FileNotFoundError] otherwise). *)
Definition open_wb (p : string) : M World unit :=
  fun w =>
    if String.eqb p "" then (Raise FileNotFoundError, w)
    else if bool_decide (Path.norm p ∈ dirs w) then (Raise OSError, w)
    else if parent_exists w p
    then (Ok tt, set_files (insert p (mkFile [] (time_source w (time_reads w)))) w)
    else (Raise (if existsb (fun q => bool_decide (is_Some (files w !! q)))
                           (Path.ancestors (Path.dirname p))
                 then OSError else FileNotFoundError), w).

Definition within_limit (limit : option nat) (n : nat) : bool :=
  match limit with
  | Some l => (n <=? l)%nat
  | None => true
  end.

(** What fits into a file that may hold [limit] bytes. *)
Definition truncate (limit : option nat) (data : list byte) : list byte :=
  match limit with
  | Some l => take l data
  | None => data
  end.

(** [f.write(data)] on the file opened at [p]; when the file would grow
    beyond what the system allows, the part that fits is written and the
    write fails. *)
Definition write (p : string) (data : list byte) : M World unit :=
  fun w =>
    match files w !! p with
    | Some f =>
        if within_limit (fsize_limit w) (length (f_data f ++ data))
        then (Ok tt, set_files (insert p (mkFile (f_data f ++ data) (f_ctime f))) w)
        else (Raise OSError,
              set_files (insert p (mkFile (truncate (fsize_limit w) (f_data f ++ data))
                                          (f_ctime f))) w)
    | None => (Raise OSError, w)
    end.

(** The loop [while True: data = stream.read(chunk_size) ...].  Each element
    of [reads] is the outcome of one call of [read]; an empty chunk, or the
    end of the list, is the end of the stream. *)
Fixpoint copy_stream (temp : string) (chunk_size : Z) (reads : list read_step)
  : M World unit :=
  match reads with
  | [] => ret tt
  | ReadFault e :: _ => raise e
  | Chunk [] :: _ => ret tt
  | Chunk data :: rest => write temp data ;; copy_stream temp chunk_size rest
  end.

(** [os.rename(src, dst)] *)
Definition os_rename (src dst : string) : M World unit :=
  fun w =>
    match files w !! src with
    | None => (Raise FileNotFoundError, w)
    | Some f =>
        if bool_decide (Path.norm dst ∈ dirs w) then (Raise OSError, w)
        else (Ok tt, set_files (fun fs => <[dst := f]> (delete src fs)) w)
    end.

(** [download(url, dest, chunk_size=1024**2, verbose=False)]; the call is
    recorded in the log. *)
Definition download (url dest : string) (chunk_size : Z) (verbose : bool)
  : M World unit :=
  emit (Call_download url dest) ;;
  p <- gets pid ;;
  let temp := temp_name dest p in
  stream <- gopen url ;;
  open_wb temp ;;
  copy_stream temp chunk_size stream ;;
  os_rename temp dest.

(** ** get_filetype and check_tar_format *)

(** [get_filetype]: the assertion fails when the [file] utility is missing;
    otherwise the utility describes the named file. *)
Definition get_filetype (w : World) (fname : string) : result string :=
  match file_command w with
  | None => Raise AssertionError
  | Some probe => Ok (probe fname (f_data <$> files w !! fname))
  end.

Definition check_tar_format (w : World) (fname : string) : result bool :=
  rbind (get_filetype w fname)
        (fun ftype => Ok (Py.contains "tar archive" ftype
                          || Py.contains "gzip compressed" ftype)).

(** ** Objects *)

(** The values held by attributes and passed as arguments.  Callables are
    functions of the model: a namer maps a URL to a name or raises, a
    validator inspects the file system, a handler answers [True], [False] or
    raises. *)
Inductive value : Type :=
| VNone
| VBool (b : bool)
| VInt (z : Z)
| VStr (s : string)
| VNamer (f : string -> result string)
| VValidator (f : World -> string -> result bool)
| VHandler (f : exn -> result bool)
| VCleaner (c : LRUCleanup).

(** An object is its attribute dictionary; reading a missing attribute raises
    [AttributeError]. *)
Definition attr (self : gmap string value) (name : string) : result value :=
  match self !! name with
  | Some v => Ok v
  | None => Raise (AttributeError name)
  end.

(** The state of a run: the attributes of [self], and the environment. *)
Record Heap : Type := mkHeap {
  this : gmap string value;
  world : World
}.

Definition in_world {A} (m : M World A) : M Heap A :=
  fun h => let '(r, w') := m (world h) in (r, mkHeap (this h) w').

Definition getattr (name : string) : M Heap value :=
  fun h => (attr (this h) name, h).

Definition setattr (name : string) (v : value) : M Heap unit :=
  fun h => (Ok tt, mkHeap (<[name := v]> (this h)) (world h)).

(** An open file ([open(p, "rb")]): its name and what can be read from it. *)
Record stream : Type := mkStream {
  s_name : string;
  s_data : list byte
}.

Definition open_rb (p : string) : M World stream :=
  fun w => match files w !! p with
           | Some f => (Ok (mkStream p (f_data f)), w)
           | None => (Raise (if bool_decide (Path.norm p ∈ dirs w)
                             then OSError else FileNotFoundError), w)
           end.

(** An element of the input iterable: a URL, or a dictionary that carries
    URLs under its keys (the samples [dict(url=url)] of the pipeline). *)
Inductive request : Type :=
| Url (u : string)
| Sample (d : gmap string string).

(** [if isinstance(url, dict): url = url["url"]]; a dictionary without the
    key raises [KeyError], outside the [try] block. *)
Definition request_url (req : request) : result string :=
  match req with
  | Url u => Ok u
  | Sample d =>
      match d !! "url" with
      | Some u => Ok u
      | None => Raise (KeyError "url")
      end
  end.

(** [self.handler(exn)]; the call is recorded in the log. *)
Definition call_handler (e : exn) : M Heap bool :=
  f <- getattr "handler" ;;
  match f with
  | VHandler f => in_world (emit (Call_handler e)) ;; lift_result (f e)
  | _ => raise TypeError
  end.

(** [handlers.reraise_exception], the default handler. *)
Definition reraise_exception (e : exn) : result bool := Raise e.

(** The number of attempts per URL: [range(10)]. *)
Definition attempts : nat := 10.

(** ** StreamingOpen *)

Module StreamingOpen.
Section WithUrlparse.

Variable urlparse : string -> ParseResult.

(** What [open_file] returns: an open local file, or a transport stream. *)
Inductive source : Type :=
| Local (s : stream)
| Remote (reads : list read_step).

Definition __init__ (verbose : bool) (handler : exn -> result bool)
  : gmap string value :=
  <["handler" := VHandler handler]> (<["verbose" := VBool verbose]> ∅).

Definition get_file (url : string) : M Heap string := ret url.

Definition open_file (url : string) : M Heap source :=
  let parsed := urlparse url in
  if bool_decide (scheme parsed ∈ [""; "file"]) then
    s <- in_world (open_rb (path parsed)) ;; ret (Local s)
  else
    r <- in_world (gopen url) ;; ret (Remote r).

(** The generator: the items it yields, how it ends ([Ok] when it is
    exhausted, [Raise] when an exception leaves it), and the final state. *)
Fixpoint __call__ (urls : list request) (h : Heap)
  : list (string * source) * result unit * Heap :=
  match urls with
  | [] => ([], Ok tt, h)
  | req :: rest =>
      match request_url req with
      | Raise e => ([], Raise e, h)
      | Ok url =>
          match (p <- get_file url ;; open_file p) h with
          | (Ok s, h1) =>
              let '(items, r, h2) := __call__ rest h1 in
              ((url, s) :: items, r, h2)
          | (Raise e, h1) =>
              match call_handler e h1 with
              | (Ok true, h2) => __call__ rest h2        (* continue *)
              | (Ok false, h2) => ([], Ok tt, h2)        (* break *)
              | (Raise e', h2) => ([], Raise e', h2)
              end
          end
      end
  end.

End WithUrlparse.
End StreamingOpen.

(** ** FileCache *)

(** The dictionary that [FileCache.__call__] yields:
    [dict(url=url, stream=stream, local_path=self.last_path)]. *)
Record opened : Type := mkOpened {
  o_url : string;
  o_stream : stream;
  o_local_path : value
}.

Module FileCache.
Section WithEnvironment.

Variable urlparse : string -> ParseResult.

(** The module constant [default_cache_dir], read from [WDS_CACHE] when the
    module is imported. *)
Variable default_cache_dir : string.

(** [FileCache.__init__].  The attribute [cache_size] is read in the branch
    that builds the sweeper, and no statement assigns it. *)
Definition __init__
    (url_to_name : string -> result string)
    (cache_dir : option string)
    (verbose : bool)
    (validator : option (World -> string -> result bool))
    (handler : exn -> result bool)
    (cache_size : Z)
    (cache_cleanup_interval : option Z)
  : result (gmap string value) :=
  let self : gmap string value := ∅ in
  let self := <["url_to_name" := VNamer url_to_name]> self in
  let self := <["validator" := match validator with
                               | Some v => VValidator v
                               | None => VNone
                               end]> self in
  let self := <["handler" := VHandler handler]> self in
  let self := <["cache_dir" := VStr (match cache_dir with
                                     | None => default_cache_dir
                                     | Some d => d
                                     end)]> self in
  let self := <["verbose" := VBool verbose]> self in
  if 0 <? cache_size then
    rbind (attr self "cache_dir") (fun a_dir =>
    rbind (attr self "cache_size") (fun a_size =>
    rbind (attr self "verbose") (fun a_verbose =>
      match a_dir, a_size, a_verbose with
      | VStr d, VInt z, VBool b =>
          Ok (<["cleaner" :=
                 VCleaner (LRUCleanup_init (Some d) z os_path_getctime b
                                           cache_cleanup_interval)]> self)
      | _, _, _ => Raise TypeError
      end)))
  else Ok (<["cleaner" := VNone]> self).

Definition getattr_str (name : string) : M Heap string :=
  v <- getattr name ;;
  match v with
  | VStr s => ret s
  | _ => raise TypeError
  end.

Definition getattr_bool (name : string) : M Heap bool :=
  v <- getattr name ;;
  match v with
  | VBool b => ret b
  | _ => raise TypeError
  end.

(** [self.url_to_name(url)] *)
Definition call_url_to_name (url : string) : M Heap string :=
  f <- getattr "url_to_name" ;;
  match f with
  | VNamer f => lift_result (f url)
  | _ => raise TypeError
  end.

(** [if self.cleaner is not None: self.cleaner.cleanup()]; the sweeper is
    shared with the attribute, so its new state is stored back. *)
Definition run_cleaner : M Heap unit :=
  c <- getattr "cleaner" ;;
  match c with
  | VNone => ret tt
  | VCleaner c =>
      c' <- in_world (emit Call_cleanup ;; cleanup c) ;;
      setattr "cleaner" (VCleaner c')
  | _ => raise (AttributeError "cleanup")
  end.

(** [if self.validator: if not self.validator(dest): ... raise ValueError];
    the call of the validator is recorded in the log. *)
Definition run_validator (dest : string) : M Heap unit :=
  v <- getattr "validator" ;;
  match v with
  | VNone => ret tt
  | VValidator f =>
      valid <- in_world (emit (Call_validator dest) ;;
                         fun w => (f w dest, w)) ;;
      if valid then ret tt
      else
        ftype <- in_world (fun w => (get_filetype w dest, w)) ;;
        data <- in_world (s <- open_rb dest ;; ret (take 200 (s_data s))) ;;
        in_world (os_remove dest) ;;
        raise ValueError
  | _ => raise TypeError
  end.

Definition get_file (url : string) : M Heap string :=
  cache_name <- call_url_to_name url ;;
  cache_dir <- getattr_str "cache_dir" ;;
  let destdir := Path.join cache_dir (Path.dirname cache_name) in
  in_world (os_makedirs destdir) ;;
  cache_dir <- getattr_str "cache_dir" ;;
  let dest := Path.join cache_dir cache_name in
  present <- in_world (os_path_exists dest) ;;
  (if negb present then
     verbose <- getattr_bool "verbose" ;;
     when verbose
       (in_world (emit (Stderr ("# downloading " +:+ url +:+ " to " +:+ dest)))) ;;
     run_cleaner ;;
     verbose <- getattr_bool "verbose" ;;
     in_world (download url dest (1024 ^ 2) verbose) ;;
     run_validator dest
   else ret tt) ;;
  ret dest.

Definition open_file (url : string) : M Heap stream :=
  let parsed := urlparse url in
  if bool_decide (scheme parsed ∈ [""; "file"]) then
    setattr "last_path" (VStr (path parsed)) ;;
    in_world (open_rb (path parsed))
  else
    p <- get_file url ;;
    setattr "last_path" (VStr p) ;;
    last_path <- getattr_str "last_path" ;;
    in_world (open_rb last_path).

(** The call [self.open_file] with a list of positional arguments of the bound method: [open_file] takes
    one argument besides [self], and any other number of positional
    arguments raises [TypeError] before the body runs. *)
Definition call_open_file (args : list value) : M Heap stream :=
  match args with
  | [VStr url] => open_file url
  | _ => raise TypeError
  end.

(** The body of the [try] block, up to the item it yields:
    [stream = self.open_file(self.get_file(url), "rb")] and then the
    dictionary.  The argument [self.get_file(url)] is evaluated before
    the call. *)
Definition try_body (url : string) : M Heap opened :=
  p <- get_file url ;;
  stream <- call_open_file [VStr p; VStr "rb"] ;;
  last_path <- getattr "last_path" ;;
  ret (mkOpened url stream last_path).

(** The loop [for _ in range(10)] around a [try] block with the given body.
    After a [yield] the loop goes on with the next attempt; [continue] does
    the same; [break] leaves this loop, not the loop over the URLs. *)
Fixpoint retry_loop (body : string -> M Heap opened) (n : nat) (url : string)
    (h : Heap) : list opened * result unit * Heap :=
  match n with
  | O => ([], Ok tt, h)
  | S n' =>
      match body url h with
      | (Ok item, h1) =>
          let '(items, r, h2) := retry_loop body n' url h1 in
          (item :: items, r, h2)
      | (Raise e, h1) =>
          match call_handler e h1 with
          | (Ok true, h2) => retry_loop body n' url h2   (* continue *)
          | (Ok false, h2) => ([], Ok tt, h2)            (* break *)
          | (Raise e', h2) => ([], Raise e', h2)
          end
      end
  end.

(** The loop [for url in urls]. *)
Fixpoint url_loop (body : string -> M Heap opened) (urls : list request)
    (h : Heap) : list opened * result unit * Heap :=
  match urls with
  | [] => ([], Ok tt, h)
  | req :: rest =>
      match request_url req with
      | Raise e => ([], Raise e, h)
      | Ok url =>
          match retry_loop body attempts url h with
          | (items, Ok _, h1) =>
              let '(items', r, h2) := url_loop body rest h1 in
              (items ++ items', r, h2)
          | (items, Raise e, h1) => (items, Raise e, h1)
          end
      end
  end.

(** [FileCache.__call__]: the items the generator yields, how it ends, and
    the final state. *)
Definition __call__ (urls : list request) (h : Heap)
  : list opened * result unit * Heap :=
  url_loop try_body urls h.

End WithEnvironment.
End FileCache.

(** ** Observations used by the statements *)

Definition size_of (fs : gmap string finfo) (p : string) : Z :=
  from_option f_size 0 (fs !! p).

Fixpoint sum_Z (l : list Z) : Z :=
  match l with
  | [] => 0
  | x :: l' => x + sum_Z l'
  end.

(** The total size of the files below [top]. *)
Definition dir_total (top : string) (w : World) : Z :=
  sum_Z (size_of (files w) <$> walk top w).

(** The recency key of a file whose key function succeeds. *)
Definition key_of (self : LRUCleanup) (fs : gmap string finfo) (p : string) : Z :=
  match keyfn self fs p with
  | Ok k => k
  | Raise _ => 0
  end.

(** The files removed by [os.remove], in order. *)
Definition removed (l : list event) : list string :=
  omap (fun ev => match ev with Os_remove p => Some p | _ => None end) l.

(** The events of a run from [w] to [w']. *)
Definition events_since (w w' : World) : list event :=
  drop (length (log w)) (log w').

(** The guards of [cleanup] let the scan run: the directory exists and the
    interval since the last run has passed. *)
Definition scan_runs (self : LRUCleanup) (dir : string) (w : World) : Prop :=
  cache_dir self = Some dir /\
  fst (os_path_exists dir w) = Ok true /\
  match interval self with
  | None => True
  | Some i => i <= time_source w (time_reads w) - last_run self
  end.

(** The key function succeeds on every file of the walk. *)
Definition keys_defined (self : LRUCleanup) (dir : string) (w : World) : Prop :=
  forall p, p ∈ walk dir w -> exists k, keyfn self (files w) p = Ok k.

Definition keys_distinct (self : LRUCleanup) (dir : string) (w : World) : Prop :=
  forall p q, p ∈ walk dir w -> q ∈ walk dir w ->
              key_of self (files w) p = key_of self (files w) q -> p = q.

(** How many files the [while] loop removes from a stack with these sizes. *)
Fixpoint evicted (budget : Z) (sizes : list Z) (total : Z) : nat :=
  match sizes with
  | [] => O
  | sz :: rest => if budget <? total then S (evicted budget rest (total - sz)) else O
  end.

(** The order in which the [while] loop pops the files of the walk: the sorted
    list read from its end. *)
Definition eviction_order (self : LRUCleanup) (dir : string) (w : World) : list string :=
  rev (sort_desc ((fun p => (key_of self (files w) p, p)) <$> walk dir w)).*2.

(** How many clock readings the interval guard makes. *)
Definition guard_reads (self : LRUCleanup) : nat :=
  match interval self with
  | Some _ => 1%nat
  | None => 0%nat
  end.

(** ** Concrete environments for the examples *)

(** A file of [n] zero bytes created at time [t]. *)
Definition file_of_size (n : nat) (t : Z) : finfo := mkFile (repeat x00 n) t.

(** A machine with the given files and directories; the clock reads
    [1000, 1001, ...], no URL can be fetched, writes are unlimited and the
    [file] utility is missing. *)
Definition world_with (fs : list (string * finfo)) (ds : list string) : World :=
  mkWorld (list_to_map fs) (list_to_set ds) (fun n => 1000 + Z.of_nat n) 0 4242
          (fun _ => Raise (TransportError 404)) None None [].

(** What the copy loop appends to the temporary file, and how it ends, as a
    function of the reads and of the bytes written so far. *)
Fixpoint copied (limit : option nat) (acc : list byte) (reads : list read_step)
  : result unit * list byte :=
  match reads with
  | [] => (Ok tt, acc)
  | ReadFault e :: _ => (Raise e, acc)
  | Chunk [] :: _ => (Ok tt, acc)
  | Chunk data :: rest =>
      if within_limit limit (length (acc ++ data))
      then copied limit (acc ++ data) rest
      else (Raise OSError, truncate limit (acc ++ data))
  end.

(** All the bytes of a stream, up to its end. *)
Fixpoint stream_bytes (reads : list read_step) : list byte :=
  match reads with
  | Chunk (b :: data) :: rest => (b :: data) ++ stream_bytes rest
  | _ => []
  end.

(** The stream reaches its end without a transport failure. *)
Fixpoint stream_complete (reads : list read_step) : bool :=
  match reads with
  | [] => true
  | ReadFault _ :: _ => false
  | Chunk [] :: _ => true
  | Chunk _ :: rest => stream_complete rest
  end.

(** The calls of the downloader and of the validator recorded in a log. *)
Definition downloads (l : list event) : list (string * string) :=
  omap (fun ev => match ev with Call_download u d => Some (u, d) | _ => None end) l.

Definition validations (l : list event) : list string :=
  omap (fun ev => match ev with Call_validator d => Some d | _ => None end) l.

Definition handled (l : list event) : list exn :=
  omap (fun ev => match ev with Call_handler e => Some e | _ => None end) l.


(** ** Observations on FileCache *)



(** The log grows, and not by a call of the sweeper. *)
Definition quiet (w w' : World) : Prop :=
  exists evs, log w' = log w ++ evs /\ Call_cleanup ∉ evs.

(** The object has no sweeper. *)
Definition no_sweeper (h : Heap) : Prop := this h !! "cleaner" = Some VNone.

(** From a state without sweeper: still none, and no call of one. *)
Definition unswept (h h' : Heap) : Prop :=
  no_sweeper h -> no_sweeper h' /\ quiet (world h) (world h').

(** Every run of [m] relates its initial state to its final state by [R]. *)
Definition respects {S A} (R : S -> S -> Prop) (m : M S A) : Prop :=
  forall s, R s (snd (m s)).

(** A namer for the examples: the last segment of the URL. *)
Definition last_segment (url : string) : result string :=
  Py.index (Py.split "/" url) (-1).

(** A cache object built by the constructor, without sweeper and without
    validator, around the given handler. *)
Definition example_cache (handler : exn -> result bool) : gmap string value :=
  match FileCache.__init__ "./_cache" last_segment (Some "cache") false None
                           handler (-1) (Some 30) with
  | Ok self => self
  | Raise _ => ∅
  end.

(** A machine on which one URL can be fetched: its stream delivers two chunks. *)
Definition world_serving (url : string) (ds : list string) : World :=
  mkWorld ∅ (list_to_set ds) (fun n => 1000 + Z.of_nat n) 0 4242
          (fun u => if String.eqb u url then Ok [Chunk [x01; x02]; Chunk [x03]]
                    else Raise (TransportError 404))
          None None [].

(** ** Further observations *)

(** From [w] to [w'] nothing happened but the removal of files below the
    directory: the directories, the readings of the clock and every other
    file are as they were. *)
Definition only_removes_under (dir : option string) (w w' : World) : Prop :=
  dirs w' = dirs w /\
  time_source w' = time_source w /\
  forall q, files w' !! q = files w !! q \/
            (files w' !! q = None /\
             exists d, dir = Some d /\ Path.under d q = true).

(** The ways a call of [get_file] on an object without sweeper can go, up to
    the validation: what is known of the result and of the final state. *)
Inductive get_file_outcome (self : gmap string value) (url dest destdir : string)
    (w0 : World) : result string * Heap -> Prop :=
| Makedirs_failed e :
    get_file_outcome self url dest destdir w0 (Raise e, mkHeap self w0)
| Cache_hit :
    let w1 := set_dirs (fun ds => ds ∪ list_to_set (Path.ancestors destdir)) w0 in
    exists_at w1 dest = true ->
    get_file_outcome self url dest destdir w0 (Ok dest, mkHeap self w1)
| Download_failed e w2 pre :
    files w2 !! dest = files w0 !! dest ->
    log w2 = log w0 ++ pre ++ [Call_download url dest] ->
    (pre = [] \/ exists msg, pre = [Stderr msg]) ->
    get_file_outcome self url dest destdir w0 (Raise e, mkHeap self w2)
| Downloaded w2 pre stream t r :
    let w1 := set_dirs (fun ds => ds ∪ list_to_set (Path.ancestors destdir)) w0 in
    exists_at w1 dest = false ->
    String.eqb destdir "" = false ->
    (forall q, q ∈ Path.ancestors destdir -> files w0 !! q = None) ->
    remote w0 url = Ok stream ->
    stream_complete stream = true ->
    files w2 !! dest = Some (mkFile (stream_bytes stream) t) ->
    (forall q, q <> dest -> files w0 !! q = None -> files w2 !! q = None) ->
    dirs w2 = dirs w1 ->
    file_command w2 = file_command w0 ->
    log w2 = log w0 ++ pre ++ [Call_download url dest] ->
    (pre = [] \/ exists msg, pre = [Stderr msg]) ->
    r = match FileCache.run_validator dest (mkHeap self w2) with
        | (Ok _, h3) => (Ok dest, h3)
        | (Raise e, h3) => (Raise e, h3)
        end ->
    get_file_outcome self url dest destdir w0 r.

(** A cache object built by the constructor around a validator, with the
    default handler. *)
Definition validating_cache (validator : World -> string -> result bool)
  : gmap string value :=
  match FileCache.__init__ "./_cache" last_segment (Some "cache") false
                           (Some validator) reraise_exception (-1) (Some 30) with
  | Ok self => self
  | Raise _ => ∅
  end.

(** A machine on which every URL delivers the same two bytes, with or
    without the [file] utility. *)
Definition world_delivering (probe : option (string -> option (list byte) -> string))
  : World :=
  mkWorld ∅ (list_to_set ["cache"]) (fun n => 1000 + Z.of_nat n) 0 4242
          (fun _ => Ok [Chunk [x01; x02]]) None probe [].

(** Between [w] and [w'] the log has grown, by at most [n] calls of the
    handler. *)
Definition handler_calls_within (n : nat) (w w' : World) : Prop :=
  exists evs, log w' = log w ++ evs /\ (length (handled evs) <= n)%nat.

(** The same on the state of a run. *)
Definition calls_within (n : nat) (h h' : Heap) : Prop :=
  handler_calls_within n (world h) (world h').

(** What [StreamingOpen] yields for a URL that can be opened in the state
    [h], and the exception it hands to the handler for one that cannot. *)
Definition opened_at (urlparse : string -> ParseResult) (h : Heap) (url : string)
  : option (string * StreamingOpen.source) :=
  match fst (StreamingOpen.open_file urlparse url h) with
  | Ok s => Some (url, s)
  | Raise _ => None
  end.

Definition failure_at (urlparse : string -> ParseResult) (h : Heap) (url : string)
  : option exn :=
  match fst (StreamingOpen.open_file urlparse url h) with
  | Ok _ => None
  | Raise e => Some e
  end.

(** A [StreamingOpen] object and a machine with one local archive, on which
    one remote URL is served. *)
Definition streaming_world : World :=
  mkWorld {[ "data/a.tar" := mkFile [x01; x02] 5 ]} (list_to_set ["data"])
          (fun n => 1000 + Z.of_nat n) 0 4242
          (fun u => if String.eqb u "http://host/b.tar" then Ok [Chunk [x03]]
                    else Raise (TransportError 404))
          None None [].

(** A key function that raises for one file and is the creation time for
    the others. *)
Definition failing_key (bad : string) (e : exn)
  : gmap string finfo -> string -> result Z :=
  fun fs p => if String.eqb p bad then Raise e else os_path_getctime fs p.

(** A cache object built by the constructor with its default namer and its
    default validator. *)
Definition default_cache : gmap string value :=
  match FileCache.__init__ "./_cache"
          (fun u => url_to_cache_name UrlParse.urlparse u 0) None false
          (Some check_tar_format) reraise_exception (-1) (Some 30) with
  | Ok self => self
  | Raise _ => ∅
  end.

(** * Properties *)

(** ** The sort *)

Lemma insert_desc_perm x l : insert_desc x l ≡ₚ x :: l.
Proof.
  induction l as [|y l IH]; simpl; [done|].
  destruct (fst y <=? fst x); [done|].
  rewrite IH. apply Permutation_swap.
Qed.

Lemma sort_desc_perm l : sort_desc l ≡ₚ l.
Proof.
  induction l as [|x l IH]; simpl; [done|].
  rewrite insert_desc_perm. by rewrite IH.
Qed.

Lemma insert_desc_sorted x l :
  StronglySorted (fun a b => fst b <= fst a) l ->
  StronglySorted (fun a b => fst b <= fst a) (insert_desc x l).
Proof.
  induction 1 as [|y l Hs IH Hy]; simpl.
  - repeat constructor.
  - destruct (Z.leb_spec (fst y) (fst x)).
    + constructor; [by constructor|].
      constructor; [done|].
      eapply Forall_impl; [exact Hy|]. simpl. intros; lia.
    + constructor; [done|].
      rewrite insert_desc_perm. constructor; [lia | done].
Qed.

Lemma sort_desc_sorted l : StronglySorted (fun a b => fst b <= fst a) (sort_desc l).
Proof.
  induction l as [|x l IH]; simpl; [constructor|].
  by apply insert_desc_sorted.
Qed.

Lemma sorted_strict (l : list (Z * string)) :
  StronglySorted (fun a b => fst b <= fst a) l ->
  NoDup l.*1 ->
  StronglySorted (fun a b => fst b < fst a) l.
Proof.
  induction 1 as [|x l Hs IH Hx]; intros Hnd; [constructor|].
  rewrite fmap_cons in Hnd. apply NoDup_cons in Hnd as [Hnotin Hnd].
  constructor; [by apply IH|].
  rewrite Forall_forall in Hx |- *. intros y Hy.
  specialize (Hx y Hy). simpl in Hx.
  assert (fst y <> fst x).
  { intros Heq. apply Hnotin. rewrite <- Heq. by apply list_elem_of_fmap_2. }
  lia.
Qed.

Lemma StronglySorted_rev {A} (R : relation A) (l : list A) :
  StronglySorted R l -> StronglySorted (flip R) (rev l).
Proof.
  induction 1 as [|x l Hs IH Hx]; simpl; [constructor|].
  apply StronglySorted_app. split; [|split; [done | repeat constructor]].
  intros x1 x2 Hx1 Hx2. apply list_elem_of_singleton in Hx2 as ->.
  rewrite Forall_forall in Hx. apply Hx.
  apply list_elem_of_In. apply in_rev. by apply list_elem_of_In.
Qed.

(** ** The walk and the total size *)

Lemma elem_of_walk top w p :
  p ∈ walk top w <-> is_Some (files w !! p) /\ Path.under top p = true.
Proof.
  unfold walk. rewrite list_elem_of_fmap. split.
  - intros [[q f] [-> Hin]]. apply elem_of_map_to_list in Hin.
    apply map_lookup_filter_Some in Hin as [Hf Hu]. simpl in *.
    split; [by eexists|]. by apply Is_true_true.
  - intros [[f Hf] Hu]. exists (p, f). split; [done|].
    apply elem_of_map_to_list. apply map_lookup_filter_Some.
    split; [done|]. simpl. by apply Is_true_true.
Qed.

Lemma NoDup_walk top w : NoDup (walk top w).
Proof. apply NoDup_fst_map_to_list. Qed.

Lemma walk_delete top w p :
  p ∈ walk top w ->
  p :: walk top (set_files (delete p) w) ≡ₚ walk top w.
Proof.
  intros Hp. apply elem_of_walk in Hp as [[f Hf] Hu].
  unfold walk. simpl. rewrite map_filter_delete.
  set (m := filter (fun entry : string * finfo => Path.under top (fst entry)) (files w)).
  assert (m !! p = Some f) as Hm.
  { apply map_lookup_filter_Some. split; [done|]. simpl. by apply Is_true_true. }
  pose proof (map_to_list_delete m p f Hm) as Hperm.
  rewrite <- Hperm. by rewrite fmap_cons.
Qed.

Lemma sum_Z_perm l1 l2 : l1 ≡ₚ l2 -> sum_Z l1 = sum_Z l2.
Proof. induction 1; simpl; lia. Qed.

Lemma sum_Z_app l1 l2 : sum_Z (l1 ++ l2) = sum_Z l1 + sum_Z l2.
Proof. induction l1; simpl; lia. Qed.

Lemma f_size_nonneg f : 0 <= f_size f.
Proof. unfold f_size. lia. Qed.

Lemma size_of_nonneg fs p : 0 <= size_of fs p.
Proof. unfold size_of. destruct (fs !! p); cbn; [apply f_size_nonneg | lia]. Qed.

Lemma sum_sizes_nonneg fs (l : list string) : 0 <= sum_Z (size_of fs <$> l).
Proof.
  induction l as [|p l IH]; [simpl; lia|].
  rewrite fmap_cons. simpl. pose proof (size_of_nonneg fs p). lia.
Qed.

Lemma size_of_delete_ne fs p q : p <> q -> size_of (delete p fs) q = size_of fs q.
Proof. intros Hne. unfold size_of. by rewrite lookup_delete_ne. Qed.

Lemma sizes_delete_notin fs p (l : list string) :
  p ∉ l -> size_of (delete p fs) <$> l = size_of fs <$> l.
Proof.
  induction l as [|q l IH]; intros Hnotin; [done|].
  apply not_elem_of_cons in Hnotin as [Hne Hnotin].
  rewrite !fmap_cons, IH by done. by rewrite size_of_delete_ne.
Qed.

Lemma dir_total_delete top w p :
  p ∈ walk top w ->
  dir_total top (set_files (delete p) w) = dir_total top w - size_of (files w) p.
Proof.
  intros Hp. unfold dir_total.
  pose proof (walk_delete top w p Hp) as Hperm.
  rewrite <- (sum_Z_perm _ _ (fmap_Permutation (size_of (files w)) _ _ Hperm)).
  rewrite fmap_cons. simpl.
  rewrite sizes_delete_notin; [lia|].
  pose proof (NoDup_walk top w) as Hnd. rewrite <- Hperm in Hnd.
  by apply NoDup_cons in Hnd as [? _].
Qed.

(** ** The loops of the sweep *)

Lemma sum_sizes_spec paths : forall total w,
  (forall p, p ∈ paths -> is_Some (files w !! p)) ->
  sum_sizes paths total w = (Ok (total + sum_Z (size_of (files w) <$> paths)), w).
Proof.
  induction paths as [|p ps IH]; intros total w Hex; cbn [sum_sizes].
  - unfold ret. simpl. do 2 f_equal. lia.
  - destruct (Hex p) as [f Hf]; [by left|].
    unfold bind, os_path_getsize. rewrite Hf.
    rewrite IH by (intros; apply Hex; by right).
    rewrite fmap_cons. cbn [sum_Z]. unfold size_of at 2. rewrite Hf.
    cbn [from_option]. do 2 f_equal. lia.
Qed.

Lemma with_keys_spec self paths : forall w,
  (forall p, p ∈ paths -> exists k, keyfn self (files w) p = Ok k) ->
  with_keys (keyfn self) paths w
  = (Ok ((fun p => (key_of self (files w) p, p)) <$> paths), w).
Proof.
  induction paths as [|p ps IH]; intros w Hk; simpl; [done|].
  destruct (Hk p) as [k Hkp]; [by left|].
  unfold bind at 1. rewrite Hkp.
  unfold bind at 1. rewrite IH by (intros; apply Hk; by right).
  unfold ret, key_of. by rewrite Hkp.
Qed.

Lemma removed_app l1 l2 : removed (l1 ++ l2) = removed l1 ++ removed l2.
Proof. unfold removed. apply omap_app. Qed.

(** One iteration of the [while] loop on an existing file. *)
Lemma delete_loop_step self fname rest total w f :
  files w !! fname = Some f ->
  cache_size self < total ->
  exists w1 evs,
    delete_loop self (fname :: rest) total w
    = delete_loop self rest (total - f_size f) w1 /\
    log w1 = log w ++ evs /\ removed evs = [fname] /\
    files w1 = delete fname (files w) /\
    dirs w1 = dirs w /\ time_source w1 = time_source w /\
    time_reads w1 = time_reads w.
Proof.
  intros Hf Hlt. cbn [delete_loop].
  destruct (Z.ltb_spec (cache_size self) total); [|lia].
  unfold bind at 1. unfold os_path_getsize. rewrite Hf.
  destruct (verbose self); cbn [when].
  - eexists _, [Stderr _; Os_remove fname].
    unfold bind, emit, modify, os_remove. cbn. rewrite Hf.
    split; [reflexivity|]. cbn. rewrite <- app_assoc. done.
  - eexists _, [Os_remove fname].
    unfold bind, ret, os_remove. rewrite Hf.
    split; [reflexivity|]. by cbn.
Qed.

Lemma delete_loop_spec self stack : forall total w,
  NoDup stack ->
  (forall p, p ∈ stack -> is_Some (files w !! p)) ->
  let n := evicted (cache_size self) (size_of (files w) <$> stack) total in
  exists w' evs,
    delete_loop self stack total w = (Ok tt, w') /\
    log w' = log w ++ evs /\ removed evs = take n stack /\
    (forall q, files w' !! q
               = if decide (q ∈ take n stack) then None else files w !! q) /\
    dirs w' = dirs w /\ time_source w' = time_source w /\
    time_reads w' = time_reads w.
Proof.
  induction stack as [|fname rest IH]; intros total w Hnd Hex n.
  - exists w, []. subst n. cbn. rewrite app_nil_r.
    repeat split; try done.
  - apply NoDup_cons in Hnd as [Hnotin Hnd].
    destruct (Hex fname) as [f Hf]; [by left|].
    subst n. rewrite fmap_cons. cbn [evicted].
    destruct (Z.ltb_spec (cache_size self) total) as [Hlt|Hge].
    + destruct (delete_loop_step self fname rest total w f Hf Hlt)
        as (w1 & evs1 & Hstep & Hlog1 & Hrem1 & Hfiles1 & Hd1 & Hts1 & Htr1).
      destruct (IH (total - f_size f) w1 Hnd) as
        (w' & evs & Hrun & Hlog & Hrem & Hfiles & Hd & Hts & Htr).
      { intros p Hp. rewrite Hfiles1, lookup_delete_ne; [apply Hex; by right|].
        intros ->. done. }
      rewrite Hfiles1, sizes_delete_notin in Hrem, Hfiles by done.
      assert (size_of (files w) fname = f_size f) as ->
        by (unfold size_of; by rewrite Hf).
      set (n := evicted _ _ _) in *.
      exists w', (evs1 ++ evs). rewrite Hstep, Hrun, Hlog, Hlog1.
      rewrite removed_app, Hrem1, Hrem, app_assoc. cbn [take].
      repeat split; try congruence.
      intros q. rewrite Hfiles. destruct (decide (q = fname)) as [->|Hne].
      * rewrite (decide_True (P := fname ∈ fname :: take n rest)) by by left.
        destruct (decide _); [done|]. by rewrite lookup_delete_eq.
      * rewrite lookup_delete_ne by done.
        destruct (decide (q ∈ take n rest)).
        -- by rewrite decide_True by by right.
        -- rewrite decide_False; [done|]. intros [?|?]%elem_of_cons; done.
    + exists w, []. cbn [delete_loop].
      destruct (Z.ltb_spec (cache_size self) total); [lia|].
      cbn. rewrite app_nil_r. repeat split; try done.
Qed.

Lemma evicted_under budget sizes total :
  total <= budget -> evicted budget sizes total = 0%nat.
Proof.
  intros Hle. destruct sizes; cbn; [done|].
  destruct (Z.ltb_spec budget total); [lia | done].
Qed.

Lemma evicted_le budget sizes : forall total,
  (evicted budget sizes total <= length sizes)%nat.
Proof.
  induction sizes as [|sz sizes IH]; intros total; cbn; [lia|].
  destruct (budget <? total); [|lia]. specialize (IH (total - sz)). lia.
Qed.

(** The loop stops when the running total is within the budget or the stack
    is exhausted. *)
Lemma evicted_stop budget sizes : forall total,
  let n := evicted budget sizes total in
  total - sum_Z (take n sizes) <= budget \/ n = length sizes.
Proof.
  induction sizes as [|sz sizes IH]; intros total; cbn; [by right|].
  destruct (Z.ltb_spec budget total) as [Hlt|Hge]; cbn.
  - destruct (IH (total - sz)) as [Hle|Heq]; [left; lia | right; lia].
  - left. lia.
Qed.

(** Every removal happens while the running total exceeds the budget. *)
Lemma evicted_over budget sizes : forall total i,
  (i < evicted budget sizes total)%nat ->
  budget < total - sum_Z (take i sizes).
Proof.
  induction sizes as [|sz sizes IH]; intros total i Hi; cbn in Hi; [lia|].
  destruct (Z.ltb_spec budget total) as [Hlt|Hge]; [|lia].
  destruct i as [|i]; cbn; [lia|].
  specialize (IH (total - sz) i). lia.
Qed.

Lemma eviction_order_perm self dir w : eviction_order self dir w ≡ₚ walk dir w.
Proof.
  unfold eviction_order. rewrite <- Permutation_rev, sort_desc_perm.
  rewrite <- list_fmap_compose. induction (walk dir w); [done|].
  rewrite fmap_cons. by f_equiv.
Qed.

Lemma eviction_order_NoDup self dir w : NoDup (eviction_order self dir w).
Proof. rewrite eviction_order_perm. apply NoDup_walk. Qed.

Lemma elem_of_eviction_order self dir w p :
  p ∈ eviction_order self dir w <-> p ∈ walk dir w.
Proof. by rewrite eviction_order_perm. Qed.

Lemma os_path_exists_run p w : os_path_exists p w = (fst (os_path_exists p w), w).
Proof. reflexivity. Qed.

(** The sweep without interference: what the body of the [try] block does. *)
Lemma sweep_spec self dir w :
  keys_defined self dir w ->
  let stack := eviction_order self dir w in
  let total := dir_total dir w in
  let n := evicted (cache_size self) (size_of (files w) <$> stack) total in
  exists w' evs,
    sweep self dir w
    = (Ok (if total <=? cache_size self then Returned else FellThrough), w') /\
    log w' = log w ++ evs /\ removed evs = take n stack /\
    (forall q, files w' !! q
               = if decide (q ∈ take n stack) then None else files w !! q) /\
    dirs w' = dirs w /\ time_source w' = time_source w /\
    time_reads w' = time_reads w.
Proof.
  intros Hkeys stack total n. unfold sweep.
  unfold bind at 1. unfold gets at 1.
  unfold bind at 1. rewrite sum_sizes_spec.
  2:{ intros p Hp. by apply elem_of_walk in Hp as [? _]. }
  rewrite Z.add_0_l. fold (dir_total dir w). fold total.
  destruct (Z.leb_spec total (cache_size self)) as [Hle|Hgt].
  - exists w, []. subst n. rewrite evicted_under by done.
    rewrite app_nil_r. repeat split; try done.
  - unfold bind at 1. unfold gets at 1.
    unfold bind at 1. rewrite with_keys_spec by done.
    fold (eviction_order self dir w). fold stack.
    destruct (delete_loop_spec self stack total w) as
      (w' & evs & Hrun & Hrest).
    { apply eviction_order_NoDup. }
    { intros p Hp. apply elem_of_eviction_order in Hp.
      by apply elem_of_walk in Hp as [? _]. }
    exists w', evs. unfold bind. rewrite Hrun. done.
Qed.

(** A whole call of [cleanup] whose guards pass. *)
Lemma cleanup_spec self dir w :
  scan_runs self dir w -> keys_defined self dir w ->
  let stack := eviction_order self dir w in
  let total := dir_total dir w in
  let n := evicted (cache_size self) (size_of (files w) <$> stack) total in
  exists self' w' evs,
    cleanup self w = (Ok self', w') /\
    log w' = log w ++ evs /\ removed evs = take n stack /\
    (forall q, files w' !! q
               = if decide (q ∈ take n stack) then None else files w !! q) /\
    dirs w' = dirs w /\
    self' = if total <=? cache_size self then self
            else set_last_run
                   (time_source w (time_reads w + guard_reads self)%nat) self.
Proof.
  intros (Hdir & Hex & Hint) Hkeys stack total n.
  set (w0 := match interval self with
             | Some _ => set_time_reads (S (time_reads w)) w
             | None => w
             end).
  assert (files w0 = files w /\ log w0 = log w /\ dirs w0 = dirs w /\
          time_source w0 = time_source w /\
          time_reads w0 = (time_reads w + guard_reads self)%nat)
    as (Hf0 & Hl0 & Hd0 & Hts0 & Htr0).
  { unfold w0, guard_reads. destruct (interval self); cbn; repeat split; lia. }
  assert (walk dir w0 = walk dir w) as Hwalk by (unfold walk; by rewrite Hf0).
  destruct (sweep_spec self dir w0) as
    (w' & evs & Hsweep & Hlog & Hrem & Hfiles & Hd & Hts & Htr).
  { intros p Hp. rewrite Hf0. apply Hkeys. by rewrite <- Hwalk. }
  assert (eviction_order self dir w0 = stack) as Hstack
    by (unfold stack, eviction_order; by rewrite Hwalk, Hf0).
  assert (dir_total dir w0 = total) as Htotal
    by (unfold total, dir_total; by rewrite Hwalk, Hf0).
  rewrite Htotal in Hsweep.
  rewrite Hstack, Htotal, Hf0 in Hrem. rewrite Hstack, Htotal, Hf0 in Hfiles.
  fold n in Hrem, Hfiles.
  assert (exists self' w'',
    cleanup self w = (Ok self', w'') /\ log w'' = log w' /\
    files w'' = files w' /\ dirs w'' = dirs w' /\
    self' = if total <=? cache_size self then self
            else set_last_run (time_source w (time_reads w + guard_reads self)%nat) self)
    as (self' & w'' & Hrun & Hl2 & Hf2 & Hd2 & Hself).
  { unfold cleanup. rewrite Hdir. unfold bind at 1. unfold lift_result.
    unfold bind at 1. rewrite os_path_exists_run, Hex. cbn [negb].
    unfold bind at 1.
    assert ((match interval self with
             | Some i => now <- time_time;; ret (now - last_run self <? i)
             | None => ret false
             end) w = (Ok false, w0)) as ->.
    { unfold w0. destruct (interval self) as [i|]; [|done].
      unfold bind, time_time, ret.
      destruct (Z.ltb_spec (time_source w (time_reads w) - last_run self) i);
        [lia | done]. }
    unfold bind at 1. unfold except_OSError. rewrite Hsweep.
    destruct (total <=? cache_size self).
    - exists self, w'. done.
    - eexists _, _. unfold bind, time_time, ret.
      split; [reflexivity|]. cbn. rewrite Hts, Htr, Hts0, Htr0. done. }
  exists self', w'', evs. rewrite Hl2, Hf2, Hd2, Hlog, Hl0, Hd, Hd0.
  repeat split; done.
Qed.

(** What remains below the directory after the files of [gone] are removed. *)
Lemma dir_total_remove_list top gone : forall w w',
  NoDup gone ->
  (forall p, p ∈ gone -> p ∈ walk top w) ->
  (forall q, files w' !! q = if decide (q ∈ gone) then None else files w !! q) ->
  dir_total top w' = dir_total top w - sum_Z (size_of (files w) <$> gone).
Proof.
  induction gone as [|p gone IH]; intros w w' Hnd Hin Hfiles.
  - assert (files w' = files w) as Heq.
    { apply map_eq. intros q. rewrite Hfiles.
      by rewrite decide_False by apply not_elem_of_nil. }
    unfold dir_total, walk. rewrite Heq. cbn. lia.
  - apply NoDup_cons in Hnd as [Hnotin Hnd].
    rewrite (IH (set_files (delete p) w) w' Hnd).
    + rewrite dir_total_delete by (apply Hin; by left).
      cbn [set_files files]. rewrite sizes_delete_notin by done.
      rewrite fmap_cons. cbn [sum_Z]. lia.
    + intros q Hq. apply elem_of_walk. cbn [set_files files].
      assert (q <> p) by (intros ->; done).
      rewrite lookup_delete_ne by done. apply elem_of_walk. apply Hin. by right.
    + intros q. rewrite Hfiles. cbn [set_files files].
      destruct (decide (q = p)) as [->|Hne].
      * rewrite decide_True by by left. rewrite decide_False by done.
        by rewrite lookup_delete_eq.
      * rewrite lookup_delete_ne by done.
        destruct (decide (q ∈ gone)).
        -- by rewrite decide_True by by right.
        -- rewrite decide_False; [done|]. intros [?|?]%elem_of_cons; done.
Qed.

Lemma fmap_rev {A B} (f : A -> B) (l : list A) : f <$> rev l = rev (f <$> l).
Proof.
  induction l as [|x l IH]; [done|].
  rewrite fmap_cons. cbn [rev]. by rewrite fmap_app, IH.
Qed.

Lemma sorted_paths (key : string -> Z) (l : list (Z * string)) :
  Forall (fun a => fst a = key (snd a)) l ->
  StronglySorted (fun a b => fst a < fst b) l ->
  StronglySorted (fun p q => key p < key q) l.*2.
Proof.
  intros Hkey Hs. induction Hs as [|a l Hs IH Ha]; [constructor|].
  apply Forall_cons in Hkey as [Hka Hkey].
  rewrite fmap_cons. constructor; [by apply IH|].
  apply Forall_fmap. rewrite Forall_forall in Ha, Hkey |- *.
  intros b Hb. cbn. rewrite <- Hka, <- (Hkey b Hb). by apply Ha.
Qed.

(** With pairwise distinct keys the files are popped in strictly ascending
    order of their keys, whatever the order of the walk. *)
Lemma eviction_order_sorted self dir w :
  keys_distinct self dir w ->
  StronglySorted (fun p q => key_of self (files w) p < key_of self (files w) q)
                 (eviction_order self dir w).
Proof.
  intros Hdist. unfold eviction_order.
  set (key := key_of self (files w)).
  set (keyed := (fun p => (key p, p)) <$> walk dir w).
  rewrite <- fmap_rev. apply sorted_paths.
  - apply Forall_forall. intros a Ha.
    apply list_elem_of_In, in_rev, list_elem_of_In in Ha.
    rewrite sort_desc_perm in Ha. unfold keyed in Ha.
    apply list_elem_of_fmap in Ha as (p & -> & _). done.
  - apply (StronglySorted_rev (fun a b : Z * string => fst b < fst a)).
    apply sorted_strict; [apply sort_desc_sorted|].
    rewrite sort_desc_perm. unfold keyed. rewrite <- list_fmap_compose.
    apply NoDup_fmap_2_strong; [|apply NoDup_walk].
    intros p q Hp Hq Heq. by apply Hdist.
Qed.

Lemma NoDup_take {A} (l : list A) n : NoDup l -> NoDup (take n l).
Proof. intros Hnd. eapply sublist_NoDup; [exact Hnd | apply sublist_take]. Qed.

Lemma cleanup_remaining_total self dir w :
  scan_runs self dir w -> keys_defined self dir w -> 0 <= cache_size self ->
  exists self' w', cleanup self w = (Ok self', w') /\
                   dir_total dir w' <= cache_size self.
Proof.
  intros Hscan Hkeys Hpos.
  destruct (cleanup_spec self dir w Hscan Hkeys)
    as (self' & w' & evs & Hrun & _ & _ & Hfiles & _).
  exists self', w'. split; [done|].
  set (stack := eviction_order self dir w) in *.
  set (sizes := size_of (files w) <$> stack) in *.
  set (n := evicted (cache_size self) sizes (dir_total dir w)) in *.
  rewrite (dir_total_remove_list dir (take n stack) w w').
  - rewrite fmap_take. fold sizes.
    destruct (evicted_stop (cache_size self) sizes (dir_total dir w)) as [Hle|Hall];
      fold n in Hle || fold n in Hall; [done|].
    rewrite take_ge by lia. unfold sizes, stack, dir_total.
    rewrite (sum_Z_perm _ _ (fmap_Permutation (size_of (files w)) _ _
                               (eviction_order_perm self dir w))).
    lia.
  - apply NoDup_take, eviction_order_NoDup.
  - intros p Hp. apply (elem_of_eviction_order self). by apply (subseteq_take n).
  - done.
Qed.

(** ** LRUCleanup.cleanup: the size bound, the order, the time stamp *)

(** C4, as stated, fails: a sweeper built with a negative [cache_size] scans an
    existing, empty cache directory; no file exceeds the budget, the call
    completes, and the remaining total, 0, is above the budget.  (It also
    fails for a budget that is not negative when the key function raises an
    [OSError]: the exception is swallowed and every file stays.) *)
Lemma cleanup_bound_fails_below_zero :
  let self := LRUCleanup_init (Some "cache") (-1) os_path_getctime false None in
  let w := world_with [] ["cache"] in
  scan_runs self "cache" w /\
  keys_defined self "cache" w /\
  (forall p, p ∈ walk "cache" w -> size_of (files w) p <= cache_size self) /\
  exists self' w',
    cleanup self w = (Ok self', w') /\
    ~ dir_total "cache" w' <= cache_size self.
Proof.
  cbn zeta. repeat split.
  - intros p Hp. vm_compute in Hp. by apply elem_of_nil in Hp.
  - intros p Hp. vm_compute in Hp. by apply elem_of_nil in Hp.
  - eexists _, _. split; [vm_compute; reflexivity|]. vm_compute. by intros H.
Qed.

(** C4 (amended): for a budget [cache_size >= 0], after a call of
    [LRUCleanup.cleanup] whose scan ran without interference and whose key
    function returned a key for every file under [cache_dir], if no file
    under [cache_dir] exceeds [cache_size], the call returns and the total
    size of the files remaining under [cache_dir] is at most [cache_size]. *)
Theorem cleanup_total_within_budget self dir w :
  scan_runs self dir w ->
  keys_defined self dir w ->
  0 <= cache_size self ->
  (forall p, p ∈ walk dir w -> size_of (files w) p <= cache_size self) ->
  exists self' w',
    cleanup self w = (Ok self', w') /\
    dir_total dir w' <= cache_size self.
Proof. intros Hscan Hkeys Hpos _. by apply cleanup_remaining_total. Qed.

Lemma getctime_defined (fs : gmap string finfo) p :
  is_Some (fs !! p) -> exists k, os_path_getctime fs p = Ok k.
Proof. intros [f Hf]. unfold os_path_getctime. rewrite Hf. by eexists. Qed.

Lemma cleanup_total_within_budget_witness :
  let self := LRUCleanup_init (Some "cache") 100 os_path_getctime false (Some 30) in
  let w := world_with [("cache/a.tar", file_of_size 60 5);
                       ("cache/b.tar", file_of_size 60 3);
                       ("cache/sub/c.tar", file_of_size 60 4)] ["cache"] in
  exists self' w',
    cleanup self w = (Ok self', w') /\
    dir_total "cache" w' <= cache_size self.
Proof.
  cbn zeta. apply cleanup_total_within_budget.
  - repeat split. cbn. lia.
  - intros p Hp. apply getctime_defined. by apply elem_of_walk in Hp as [? _].
  - cbn. lia.
  - intros p Hp. vm_compute in Hp.
    repeat (apply elem_of_cons in Hp as [->|Hp]; [by vm_compute|]).
    by apply elem_of_nil in Hp.
Defined.

(** C5: in a call of [LRUCleanup.cleanup] whose scan runs over files with
    pairwise distinct recency keys, the files are removed in strictly
    ascending order of their keys (oldest first); each removal happens while
    the running total exceeds [cache_size], and the removals stop as soon as
    the running total is at most [cache_size] or no file is left; every
    removed file is older than every file that stays, and a file whose key is
    newer than the key of the last removed file is not removed. *)
Theorem cleanup_evicts_oldest_first self dir w :
  scan_runs self dir w ->
  keys_defined self dir w ->
  keys_distinct self dir w ->
  exists self' w',
    cleanup self w = (Ok self', w') /\
    let key := key_of self (files w) in
    let gone := removed (events_since w w') in
    StronglySorted (fun p q => key p < key q) gone /\
    (forall i, (i < length gone)%nat ->
       cache_size self
       < dir_total dir w - sum_Z (size_of (files w) <$> take i gone)) /\
    (dir_total dir w - sum_Z (size_of (files w) <$> gone) <= cache_size self
     \/ gone ≡ₚ walk dir w) /\
    (forall q, files w' !! q
               = if decide (q ∈ gone) then None else files w !! q) /\
    (forall p q, p ∈ walk dir w -> p ∉ gone -> q ∈ gone -> key q < key p) /\
    (forall p q, p ∈ walk dir w -> last gone = Some q -> key q < key p ->
                 (p ∉ gone) /\ files w' !! p = files w !! p).
Proof.
  intros Hscan Hkeys Hdist.
  destruct (cleanup_spec self dir w Hscan Hkeys)
    as (self' & w' & evs & Hrun & Hlog & Hrem & Hfiles & _).
  exists self', w'. split; [done|]. cbn zeta.
  unfold events_since. rewrite Hlog, drop_app_length, Hrem.
  pose proof (eviction_order_sorted self dir w Hdist) as Hsorted.
  set (key := key_of self (files w)) in *.
  set (stack := eviction_order self dir w) in *.
  set (sizes := size_of (files w) <$> stack) in *.
  set (n := evicted (cache_size self) sizes (dir_total dir w)) in *.
  rewrite <- (take_drop n stack) in Hsorted.
  apply StronglySorted_app in Hsorted as (Hcross & Hgone & _).
  assert (forall p, p ∈ walk dir w -> p ∉ take n stack -> p ∈ drop n stack)
    as Hstay.
  { intros p Hp Hnot. apply (elem_of_eviction_order self) in Hp.
    fold stack in Hp. rewrite <- (take_drop n stack) in Hp.
    apply elem_of_app in Hp as [?|?]; done. }
  assert (forall p q, p ∈ take n stack -> last (take n stack) = Some q ->
                      key p <= key q) as Hlast.
  { intros p q Hp [front Hq]%last_Some. rewrite Hq in Hp, Hgone.
    apply StronglySorted_app in Hgone as (Hlt & _ & _).
    apply elem_of_app in Hp as [Hp|Hp].
    - specialize (Hlt p q Hp). cbn in Hlt. apply Z.lt_le_incl, Hlt. by left.
    - apply list_elem_of_singleton in Hp as ->. lia. }
  split; [done|]. split; [|split; [|split; [done|split]]].
  - intros i Hi. rewrite length_take in Hi.
    rewrite take_take, Nat.min_l by lia.
    rewrite fmap_take. fold sizes. apply evicted_over. fold n. lia.
  - destruct (evicted_stop (cache_size self) sizes (dir_total dir w))
      as [Hle|Hall]; fold n in Hle || fold n in Hall.
    + left. by rewrite fmap_take.
    + right. rewrite take_ge.
      * apply eviction_order_perm.
      * unfold sizes in Hall. rewrite length_fmap in Hall. lia.
  - intros p q Hp Hnot Hq. by apply Hcross, Hstay.
  - intros p q Hp Hq Hnewer.
    assert (p ∉ take n stack) as Hnot.
    { intros Hin. specialize (Hlast p q Hin Hq). lia. }
    split; [done|]. rewrite Hfiles. by rewrite decide_False.
Qed.

Lemma cleanup_evicts_oldest_first_witness :
  let self := LRUCleanup_init (Some "cache") 100 os_path_getctime false (Some 30) in
  let w := world_with [("cache/a.tar", file_of_size 60 5);
                       ("cache/b.tar", file_of_size 60 3);
                       ("cache/sub/c.tar", file_of_size 60 4)] ["cache"] in
  exists self' w',
    cleanup self w = (Ok self', w') /\
    let key := key_of self (files w) in
    let gone := removed (events_since w w') in
    StronglySorted (fun p q => key p < key q) gone /\
    (forall i, (i < length gone)%nat ->
       cache_size self
       < dir_total "cache" w - sum_Z (size_of (files w) <$> take i gone)) /\
    (dir_total "cache" w - sum_Z (size_of (files w) <$> gone) <= cache_size self
     \/ gone ≡ₚ walk "cache" w) /\
    (forall q, files w' !! q
               = if decide (q ∈ gone) then None else files w !! q) /\
    (forall p q, p ∈ walk "cache" w -> p ∉ gone -> q ∈ gone -> key q < key p) /\
    (forall p q, p ∈ walk "cache" w -> last gone = Some q -> key q < key p ->
                 (p ∉ gone) /\ files w' !! p = files w !! p).
Proof.
  cbn zeta. apply cleanup_evicts_oldest_first.
  - repeat split. cbn. lia.
  - intros p Hp. apply getctime_defined. by apply elem_of_walk in Hp as [? _].
  - intros p q Hp Hq. vm_compute in Hp, Hq.
    repeat (apply elem_of_cons in Hp as [->|Hp]);
      try (by apply elem_of_nil in Hp);
      repeat (apply elem_of_cons in Hq as [->|Hq]);
      try (by apply elem_of_nil in Hq);
      vm_compute; congruence.
Defined.

Example cleanup_example_order :
  let self := LRUCleanup_init (Some "cache") 100 os_path_getctime true (Some 30) in
  let w := world_with [("cache/a.tar", file_of_size 60 5);
                       ("cache/b.tar", file_of_size 60 3);
                       ("cache/sub/c.tar", file_of_size 60 4);
                       ("other/d.tar", file_of_size 60 1)] ["cache"] in
  match cleanup self w with
  | (Ok self', w') =>
      removed (log w') = ["cache/b.tar"; "cache/sub/c.tar"] /\
      dir_total "cache" w' = 60 /\ last_run self' = 1001
  | _ => False
  end.
Proof. vm_compute. auto. Qed.

(** A scan that finds the total above the budget ends by setting [last_run]
    to the reading of the clock at the end of the call. *)
Lemma cleanup_over_budget_sets_last_run self dir w :
  scan_runs self dir w -> keys_defined self dir w ->
  cache_size self < dir_total dir w ->
  exists self' w',
    cleanup self w = (Ok self', w') /\
    last_run self' = time_source w (time_reads w + guard_reads self)%nat.
Proof.
  intros Hscan Hkeys Hover.
  destruct (cleanup_spec self dir w Hscan Hkeys)
    as (self' & w' & evs & Hrun & _ & _ & _ & _ & Hself).
  exists self', w'. split; [done|]. rewrite Hself.
  destruct (Z.leb_spec (dir_total dir w) (cache_size self)); [lia | done].
Qed.

(** A scan that finds the total within the budget leaves through the [return]
    inside the [try] block: the object, and so [last_run], is unchanged. *)
Lemma cleanup_within_budget_returns_early self dir w :
  scan_runs self dir w -> keys_defined self dir w ->
  dir_total dir w <= cache_size self ->
  exists w', cleanup self w = (Ok self, w').
Proof.
  intros Hscan Hkeys Hunder.
  destruct (cleanup_spec self dir w Hscan Hkeys)
    as (self' & w' & evs & Hrun & _ & _ & _ & _ & Hself).
  exists w'. rewrite Hrun, Hself.
  destruct (Z.leb_spec (dir_total dir w) (cache_size self)); [done | lia].
Qed.

(** A call stopped by a guard (missing directory, or interval not elapsed)
    returns the object unchanged. *)
Lemma cleanup_guarded_keeps_last_run self dir w :
  cache_dir self = Some dir ->
  fst (os_path_exists dir w) = Ok false
  \/ (exists i, interval self = Some i /\
                time_source w (time_reads w) - last_run self < i) ->
  exists w', cleanup self w = (Ok self, w').
Proof.
  intros Hdir Hguard. unfold cleanup. rewrite Hdir.
  unfold bind at 1. unfold lift_result.
  unfold bind at 1. rewrite os_path_exists_run.
  destruct (fst (os_path_exists dir w)) as [[|]|e] eqn:Hex.
  - destruct Hguard as [?|(i & Hi & Hlt)]; [done|].
    cbn [negb]. rewrite Hi. unfold bind, time_time, ret.
    destruct (Z.ltb_spec (time_source w (time_reads w) - last_run self) i);
      [by eexists | lia].
  - by eexists.
  - by vm_compute in Hex.
Qed.

(** C6 (the code departs from the claim): the guards pass, the directory
    exists and holds 10 bytes against a budget of 100, so the scan runs and
    removes nothing; the call returns with [last_run] still 0 although the
    clock read 1000, and an immediate second call scans again. *)
Theorem cleanup_within_budget_keeps_last_run :
  let self := LRUCleanup_init (Some "cache") 100 os_path_getctime false (Some 30) in
  let w := world_with [("cache/a.tar", file_of_size 10 5)] ["cache"] in
  scan_runs self "cache" w /\
  dir_total "cache" w = 10 /\
  exists w',
    cleanup self w = (Ok self, w') /\
    last_run self = 0 /\
    time_source w (time_reads w) = 1000 /\
    removed (events_since w w') = [] /\
    scan_runs self "cache" w'.
Proof.
  cbn zeta. split; [repeat split; cbn; lia|]. split; [by vm_compute|].
  eexists. split; [vm_compute; reflexivity|].
  repeat split; cbn; lia.
Qed.
(** ** download *)

Lemma string_length_app (a b : string) :
  String.length (a +:+ b) = (String.length a + String.length b)%nat.
Proof.
  induction a as [|c a IH]; [done|].
  change (S (String.length (a +:+ b)) = S (String.length a + String.length b)).
  by rewrite IH.
Qed.

(** The temporary name differs from the destination. *)
Lemma temp_name_ne dest pid : temp_name dest pid <> dest.
Proof.
  unfold temp_name. intros Heq.
  apply (f_equal String.length) in Heq.
  rewrite !string_length_app in Heq. cbn in Heq. lia.
Qed.

Lemma temp_name_nonempty dest pid : String.eqb (temp_name dest pid) "" = false.
Proof.
  apply String.eqb_neq. intros Heq. apply (f_equal String.length) in Heq.
  unfold temp_name in Heq. rewrite !string_length_app in Heq. cbn in Heq. lia.
Qed.

(** The copy loop writes to the temporary file only. *)
Lemma copy_stream_spec temp chunk_size reads : forall w f,
  files w !! temp = Some f ->
  copy_stream temp chunk_size reads w
  = (fst (copied (fsize_limit w) (f_data f) reads),
     set_files (insert temp (mkFile (snd (copied (fsize_limit w) (f_data f) reads))
                                    (f_ctime f))) w).
Proof.
  induction reads as [|[data|e] rest IH]; intros w f Hf; cbn [copy_stream copied].
  - unfold ret. cbn [fst snd]. f_equal. destruct w, f. unfold set_files. cbn in *.
    f_equal. by rewrite insert_id.
  - destruct data as [|b data].
    + unfold ret. cbn [fst snd]. f_equal. destruct w, f. unfold set_files.
      cbn in *. f_equal. by rewrite insert_id.
    + unfold bind, write. rewrite Hf.
      destruct (within_limit (fsize_limit w) _) eqn:Hlim.
      * rewrite (IH _ (mkFile (f_data f ++ b :: data) (f_ctime f)));
          [|cbn; by rewrite lookup_insert_eq].
        unfold set_files. cbn. by rewrite insert_insert_eq.
      * done.
  - unfold raise. cbn [fst snd]. f_equal. destruct w, f. unfold set_files.
    cbn in *. f_equal. by rewrite insert_id.
Qed.

(** A copy that succeeds has written the whole stream. *)
Lemma copied_Ok limit reads : forall acc out,
  copied limit acc reads = (Ok tt, out) ->
  out = acc ++ stream_bytes reads /\ stream_complete reads = true.
Proof.
  induction reads as [|[data|e] rest IH]; intros acc out Hc; cbn in Hc.
  - inversion Hc. cbn. by rewrite app_nil_r.
  - destruct data as [|b data].
    + inversion Hc. cbn. by rewrite app_nil_r.
    + destruct (within_limit limit _); [|done].
      apply IH in Hc as [-> Hcomplete]. cbn. by rewrite <- app_assoc.
  - done.
Qed.



(** What [download] does, in one equation per outcome of its steps. *)
Lemma download_run url dest chunk_size verbose w :
  let temp := temp_name dest (pid w) in
  let w1 := add_event (Call_download url dest) w in
  download url dest chunk_size verbose w =
  match remote w url with
  | Raise e => (Raise e, w1)
  | Ok stream =>
      if bool_decide (Path.norm temp ∈ dirs w) then (Raise OSError, w1)
      else if parent_exists w temp then
        let f0 := mkFile [] (time_source w (time_reads w)) in
        let '(r, out) := copied (fsize_limit w) [] stream in
        let w3 := set_files (insert temp (mkFile out (f_ctime f0))) w1 in
        match r with
        | Raise e => (Raise e, w3)
        | Ok _ =>
            if bool_decide (Path.norm dest ∈ dirs w) then (Raise OSError, w3)
            else (Ok tt, set_files (fun fs => <[dest := mkFile out (f_ctime f0)]>
                                               (delete temp fs)) w3)
        end
      else (Raise (if existsb (fun q => bool_decide (is_Some (files w !! q)))
                             (Path.ancestors (Path.dirname temp))
                   then OSError else FileNotFoundError), w1)
  end.
Proof.
  cbn zeta. unfold download. unfold bind at 1. unfold emit, modify.
  unfold bind at 1. unfold gets. unfold bind at 1. unfold gopen.
  cbn [remote pid add_event].
  destruct (remote w url) as [stream|e]; [|done].
  unfold bind at 1. unfold open_wb. rewrite temp_name_nonempty.
  set (temp := temp_name dest (pid w)).
  set (w1 := add_event (Call_download url dest) w).
  change (dirs w1) with (dirs w). change (parent_exists w1 temp)
    with (parent_exists w temp). change (files w1) with (files w).
  destruct (bool_decide (Path.norm temp ∈ dirs w)); [done|].
  destruct (parent_exists w temp); [|done].
  set (f0 := mkFile [] (time_source w1 (time_reads w1))).
  set (w2 := set_files (insert temp f0) w1).
  unfold bind at 1.
  rewrite (copy_stream_spec temp chunk_size stream w2 f0)
    by (cbn; by rewrite lookup_insert_eq).
  change (fsize_limit w2) with (fsize_limit w). change (f_data f0) with (@nil byte).
  destruct (copied (fsize_limit w) [] stream) as [[[]|e] out]; cbn [fst snd].
  - unfold os_rename. cbn [files set_files]. rewrite lookup_insert_eq.
    change (dirs (set_files _ w2)) with (dirs w).
    destruct (bool_decide (Path.norm dest ∈ dirs w)).
    + f_equal. unfold w2, set_files. cbn. by rewrite insert_insert_eq.
    + f_equal. unfold w2, set_files. cbn. by rewrite !insert_insert_eq.
  - f_equal. unfold w2, set_files. cbn. by rewrite insert_insert_eq.
Qed.

(** The two ways a call can end: when it returns, the stream was read to its
    end, [dest] holds its bytes and the temporary file is gone; when it
    raises, [dest] is as before. *)
Lemma download_outcome url dest chunk_size verbose w :
  let temp := temp_name dest (pid w) in
  match download url dest chunk_size verbose w with
  | (Ok _, w') =>
      exists stream t,
        remote w url = Ok stream /\
        stream_complete stream = true /\
        files w' !! dest = Some (mkFile (stream_bytes stream) t) /\
        files w' !! temp = None
  | (Raise _, w') => files w' !! dest = files w !! dest
  end.
Proof.
  intros temp. pose proof (temp_name_ne dest (pid w)) as Hne. fold temp in Hne.
  rewrite download_run. cbn zeta. fold temp.
  destruct (remote w url) as [stream|e]; [|done].
  destruct (bool_decide (Path.norm temp ∈ dirs w)); [done|].
  destruct (parent_exists w temp); [|done].
  destruct (copied (fsize_limit w) [] stream) as [[[]|e] out] eqn:Hcopy.
  - apply copied_Ok in Hcopy as [-> Hcomplete].
    destruct (bool_decide (Path.norm dest ∈ dirs w)).
    + cbn. by rewrite lookup_insert_ne.
    + cbn. exists stream, (time_source w (time_reads w)). repeat split; [done| |].
      * by rewrite lookup_insert_eq.
      * rewrite lookup_insert_ne by done. by rewrite lookup_delete_eq.
  - cbn. by rewrite lookup_insert_ne.
Qed.



Example download_complete :
  let w := mkWorld ∅ (list_to_set ["cache"]) (fun n => Z.of_nat n) 0 7
             (fun _ => Ok [Chunk [x01; x02]; Chunk [x03]]) None None [] in
  match download "http://host/a.tar" "cache/a.tar" (1024 ^ 2) false w with
  | (Ok _, w') =>
      f_data <$> files w' !! "cache/a.tar" = Some [x01; x02; x03] /\
      files w' !! "cache/a.tar.temp7" = None
  | _ => False
  end.
Proof. vm_compute. auto. Qed.

Example download_interrupted :
  let w := mkWorld ∅ (list_to_set ["cache"]) (fun n => Z.of_nat n) 0 7
             (fun _ => Ok [Chunk [x01; x02]; ReadFault (TransportError 2); Chunk [x03]])
             None None [] in
  match download "http://host/a.tar" "cache/a.tar" (1024 ^ 2) false w with
  | (Raise e, w') =>
      e = TransportError 2 /\
      files w' !! "cache/a.tar" = None /\
      f_data <$> files w' !! "cache/a.tar.temp7" = Some [x01; x02]
  | _ => False
  end.
Proof. vm_compute. auto. Qed.

(** The second chunk does not fit: the part of it that fits is written, and
    the write fails. *)
Example download_disk_full :
  let w := mkWorld ∅ (list_to_set ["cache"]) (fun n => Z.of_nat n) 0 7
             (fun _ => Ok [Chunk [x01; x02]; Chunk [x03; x04]]) (Some 3%nat) None [] in
  match download "http://host/a.tar" "cache/a.tar" (1024 ^ 2) false w with
  | (Raise e, w') =>
      e = OSError /\
      files w' !! "cache/a.tar" = None /\
      f_data <$> files w' !! "cache/a.tar.temp7" = Some [x01; x02; x03]
  | _ => False
  end.
Proof. vm_compute. auto. Qed.

(** Where the directory of the destination is missing, the temporary file
    cannot be created and nothing is written. *)
Example download_without_directory :
  let w := mkWorld ∅ ∅ (fun n => Z.of_nat n) 0 7
             (fun _ => Ok [Chunk [x01; x02]; Chunk [x03]]) None None [] in
  match download "http://host/a.tar" "cache/a.tar" (1024 ^ 2) false w with
  | (Raise e, w') => e = FileNotFoundError /\ files w' = ∅
  | _ => False
  end.
Proof. vm_compute. auto. Qed.

(** ** The naming functions *)

Example urlparse_http :
  UrlParse.urlparse "http://host.org/data/shard-0.tar?x=1#f"
  = mkParseResult "http" "host.org" "/data/shard-0.tar".
Proof. vm_compute. reflexivity. Qed.

Example urlparse_local :
  UrlParse.urlparse "data/shard-0.tar" = mkParseResult "" "" "data/shard-0.tar".
Proof. vm_compute. reflexivity. Qed.

Example pipe_cleaner_url :
  pipe_cleaner "pipe:curl -s http://host/a.tar" = "http://host/a.tar".
Proof. vm_compute. reflexivity. Qed.

Example pipe_cleaner_plain :
  pipe_cleaner "http://host/a.tar" = "http://host/a.tar".
Proof. vm_compute. reflexivity. Qed.

Lemma find_none_Forall {A} (f : A -> bool) (l : list A) :
  Forall (fun x => f x = false) l -> List.find f l = None.
Proof. induction 1 as [|x l Hx _ IH]; cbn; [done|]. by rewrite Hx. Qed.

Lemma startswith_drop (p s : string) :
  Py.startswith p s = true -> s = p +:+ Py.drop (String.length p) s.
Proof.
  revert s. induction p as [|c p IH]; intros s Hs; [done|].
  destruct s as [|c' s]; [done|]. cbn in Hs.
  destruct (Ascii.ascii_dec c c') as [->|]; [|done].
  change (String c' s = String c' (p +:+ Py.drop (String.length p) s)).
  f_equal. by apply IH.
Qed.

(** C8, as stated, fails: no word of ["pipe:cat shard-0.tar"] (nor of what
    follows its prefix) starts with a recognised scheme, and the result is the
    input without its ["pipe:"] prefix, not the input. *)
Lemma pipe_cleaner_drops_prefix :
  let spec := "pipe:cat shard-0.tar" in
  Forall (fun word => matches_url_scheme word = false) (Py.split " " spec) /\
  Forall (fun word => matches_url_scheme word = false)
         (Py.split " " (Py.drop 5 spec)) /\
  pipe_cleaner spec = "cat shard-0.tar" /\
  pipe_cleaner spec <> spec.
Proof. cbn zeta. repeat split; try (by vm_compute); repeat constructor. Qed.

(** C8 (amended): when no word starts with a recognised scheme, [pipe_cleaner]
    returns the input unchanged if it does not start with ["pipe:"], and the
    input without these five characters if it does (the words are then those
    of the remainder). *)
Theorem pipe_cleaner_without_url (spec : string) :
  Forall (fun word => matches_url_scheme word = false)
         (Py.split " " (if Py.startswith "pipe:" spec then Py.drop 5 spec else spec)) ->
  pipe_cleaner spec = (if Py.startswith "pipe:" spec then Py.drop 5 spec else spec)
  /\ (Py.startswith "pipe:" spec = true -> spec = "pipe:" +:+ pipe_cleaner spec).
Proof.
  intros Hwords. unfold pipe_cleaner.
  destruct (Py.startswith "pipe:" spec) eqn:Hpipe; [|done].
  rewrite find_none_Forall by done. split; [done|].
  intros _. by apply (startswith_drop "pipe:").
Qed.

Lemma pipe_cleaner_without_url_witness :
  pipe_cleaner "pipe:cat shard-0.tar"
  = (if Py.startswith "pipe:" "pipe:cat shard-0.tar"
     then Py.drop 5 "pipe:cat shard-0.tar" else "pipe:cat shard-0.tar")
  /\ (Py.startswith "pipe:" "pipe:cat shard-0.tar" = true ->
      "pipe:cat shard-0.tar" = "pipe:" +:+ pipe_cleaner "pipe:cat shard-0.tar").
Proof.
  apply (pipe_cleaner_without_url "pipe:cat shard-0.tar").
  vm_compute. repeat constructor.
Defined.

(** What [url_to_cache_name] computes for an allow-listed scheme: one element
    of the split path, selected by the index [-1 - ndir], and then ["/"]
    joined over the characters of that element. *)
Lemma url_to_cache_name_allowed urlparse url ndir :
  Some (scheme (urlparse url)) ∈ cache_name_schemes ->
  url_to_cache_name urlparse url ndir
  = rbind (Py.index (Py.split "/" (path (urlparse url))) (-1 - ndir))
          (fun segment => Ok (Py.join "/" (Py.chars segment))).
Proof. intros Hin. unfold url_to_cache_name. by rewrite bool_decide_eq_true_2. Qed.

Lemma join_chars_length (c : ascii) (s : string) :
  String.length (Py.join "/" (Py.chars (String c s)))
  = (2 * String.length s + 1)%nat.
Proof.
  revert c. induction s as [|c' s IH]; intros c; [done|].
  change (Py.join "/" (Py.chars (String c (String c' s))))
    with (String c (String "/" (Py.join "/" (Py.chars (String c' s))))).
  cbn [String.length]. rewrite IH. cbn [String.length]. lia.
Qed.

(** With [ndir = 0] the result is the basename only when the basename has at
    most one character. *)
Lemma url_to_cache_name_not_basename urlparse url basename :
  Some (scheme (urlparse url)) ∈ cache_name_schemes ->
  Py.index (Py.split "/" (path (urlparse url))) (-1) = Ok basename ->
  (2 <= String.length basename)%nat ->
  url_to_cache_name urlparse url 0 <> Ok basename.
Proof.
  intros Hin Hbase Hlen. rewrite url_to_cache_name_allowed by done.
  change (-1 - 0) with (-1). rewrite Hbase. cbn [rbind].
  intros [= Heq]. apply (f_equal String.length) in Heq.
  destruct basename as [|c s]; [cbn in Hlen; lia|].
  rewrite join_chars_length in Heq. cbn [String.length] in Heq, Hlen. lia.
Qed.

(** C7 (the code departs from the claim): for the URL
    [http://host.org/data/shard-0.tar], whose scheme is allow-listed and whose
    path is [/data/shard-0.tar], the result with [ndir = 0] is the characters
    of the basename joined by ["/"], not the basename; with [ndir = 1] it is
    the characters of [data], not the last two segments. *)
Theorem url_to_cache_name_joins_characters :
  let url := "http://host.org/data/shard-0.tar" in
  UrlParse.urlparse url = mkParseResult "http" "host.org" "/data/shard-0.tar" /\
  Some (scheme (UrlParse.urlparse url)) ∈ cache_name_schemes /\
  url_to_cache_name UrlParse.urlparse url 0 = Ok "s/h/a/r/d/-/0/./t/a/r" /\
  url_to_cache_name UrlParse.urlparse url 1 = Ok "d/a/t/a".
Proof.
  cbn zeta. repeat split; try (by vm_compute).
  apply (bool_decide_unpack _). by vm_compute.
Qed.

Example url_to_cache_name_one_char :
  url_to_cache_name UrlParse.urlparse "http://host.org/data/x" 0 = Ok "x".
Proof. vm_compute. reflexivity. Qed.

Example url_to_cache_name_short_path :
  url_to_cache_name UrlParse.urlparse "x.tar" 1 = Raise IndexError.
Proof. vm_compute. reflexivity. Qed.

Example url_to_cache_name_other_scheme :
  url_to_cache_name UrlParse.urlparse "hdfs://host/x.tar" 0 = Raise (NameError "urllib").
Proof. vm_compute. reflexivity. Qed.

(** ** FileCache: construction *)

Lemma quiet_refl w : quiet w w.
Proof. exists []. rewrite app_nil_r. split; [done | apply not_elem_of_nil]. Qed.

Lemma quiet_trans w1 w2 w3 : quiet w1 w2 -> quiet w2 w3 -> quiet w1 w3.
Proof.
  intros (e1 & H1 & N1) (e2 & H2 & N2). exists (e1 ++ e2).
  rewrite H2, H1, app_assoc. split; [done|].
  intros [?|?]%elem_of_app; done.
Qed.

Lemma unswept_refl h : unswept h h.
Proof. intros Hn. split; [done | apply quiet_refl]. Qed.

Lemma unswept_trans h1 h2 h3 : unswept h1 h2 -> unswept h2 h3 -> unswept h1 h3.
Proof.
  intros H12 H23 Hn. destruct (H12 Hn) as [Hn2 Hq12].
  destruct (H23 Hn2) as [Hn3 Hq23]. split; [done|]. by eapply quiet_trans.
Qed.

Section Respects.

Context {S : Type} (R : S -> S -> Prop).
Hypothesis R_refl : forall s, R s s.
Hypothesis R_trans : forall s1 s2 s3, R s1 s2 -> R s2 s3 -> R s1 s3.

Lemma respects_ret {A} (a : A) : respects R (ret a).
Proof. intros s. apply R_refl. Qed.

Lemma respects_raise {A} e : respects R (@raise S A e).
Proof. intros s. apply R_refl. Qed.

Lemma respects_lift_result {A} (r : result A) : respects R (lift_result r).
Proof. intros s. apply R_refl. Qed.

Lemma respects_gets {A} (f : S -> A) : respects R (gets f).
Proof. intros s. apply R_refl. Qed.

Lemma respects_read {A} (f : S -> result A) : respects R (fun s => (f s, s)).
Proof. intros s. apply R_refl. Qed.

Lemma respects_bind {A B} (m : M S A) (k : A -> M S B) :
  respects R m -> (forall a, respects R (k a)) -> respects R (bind m k).
Proof.
  intros Hm Hk s. unfold bind. specialize (Hm s).
  destruct (m s) as [[a|e] s']; cbn in *; [|done].
  eapply R_trans; [exact Hm | apply Hk].
Qed.

Lemma respects_when (b : bool) (m : M S unit) :
  respects R m -> respects R (when b m).
Proof. intros Hm. destruct b; [done | apply respects_ret]. Qed.

End Respects.

Lemma quiet_same_log w w' : log w' = log w -> quiet w w'.
Proof.
  intros Heq. exists []. rewrite app_nil_r.
  split; [done | apply not_elem_of_nil].
Qed.

Lemma quiet_emit ev : ev <> Call_cleanup -> respects quiet (emit ev).
Proof.
  intros Hne w. exists [ev]. split; [done|].
  intros Hin%list_elem_of_singleton. congruence.
Qed.

Lemma quiet_os_makedirs name : respects quiet (os_makedirs name).
Proof.
  intros w. apply quiet_same_log. unfold os_makedirs.
  destruct (String.eqb name ""); [done|]. by destruct (existsb _ _).
Qed.

Lemma quiet_os_path_exists p : respects quiet (os_path_exists p).
Proof. intros w. by apply quiet_same_log. Qed.

Lemma quiet_os_remove p : respects quiet (os_remove p).
Proof.
  intros w. unfold os_remove. destruct (files w !! p); [|apply quiet_refl].
  exists [Os_remove p]. split; [done|]. by intros [=]%list_elem_of_singleton.
Qed.

Lemma quiet_open_rb p : respects quiet (open_rb p).
Proof. intros w. apply quiet_same_log. unfold open_rb. by destruct (files w !! p). Qed.

Lemma quiet_open_wb p : respects quiet (open_wb p).
Proof.
  intros w. apply quiet_same_log. unfold open_wb.
  destruct (String.eqb p ""); [done|]. destruct (bool_decide _); [done|].
  by destruct (parent_exists w p).
Qed.

Lemma quiet_write p data : respects quiet (write p data).
Proof.
  intros w. apply quiet_same_log. unfold write.
  destruct (files w !! p); [|done]. by destruct (within_limit _ _).
Qed.

Lemma quiet_os_rename src dst : respects quiet (os_rename src dst).
Proof.
  intros w. apply quiet_same_log. unfold os_rename.
  destruct (files w !! src); [|done]. by destruct (bool_decide _).
Qed.

Lemma quiet_copy_stream temp chunk_size reads :
  respects quiet (copy_stream temp chunk_size reads).
Proof.
  induction reads as [|[data|e] rest IH]; cbn [copy_stream].
  - apply respects_ret, quiet_refl.
  - destruct data; [apply respects_ret, quiet_refl|].
    apply respects_bind; [apply quiet_trans | apply quiet_write | done].
  - apply respects_raise, quiet_refl.
Qed.

Lemma quiet_download url dest chunk_size verbose :
  respects quiet (download url dest chunk_size verbose).
Proof.
  unfold download, gopen.
  apply respects_bind; [apply quiet_trans | by apply quiet_emit | intros _].
  apply respects_bind; [apply quiet_trans | apply respects_gets, quiet_refl | intros p].
  apply respects_bind; [apply quiet_trans | apply respects_read, quiet_refl | intros stream].
  apply respects_bind; [apply quiet_trans | apply quiet_open_wb | intros _].
  apply respects_bind; [apply quiet_trans | apply quiet_copy_stream | intros _].
  apply quiet_os_rename.
Qed.

Lemma unswept_in_world {A} (m : M World A) :
  respects quiet m -> respects unswept (in_world m).
Proof.
  intros Hm h Hn. unfold in_world. specialize (Hm (world h)).
  destruct (m (world h)) as [r w']. by cbn in *.
Qed.

Lemma unswept_getattr name : respects unswept (getattr name).
Proof. intros h. apply unswept_refl. Qed.

Ltac unswept_steps :=
  repeat first
    [ apply unswept_getattr
    | apply respects_ret; apply unswept_refl
    | apply respects_raise; apply unswept_refl
    | apply respects_lift_result; apply unswept_refl
    | apply respects_when; [apply unswept_refl|]
    | apply respects_bind; [apply unswept_trans | | intros ?]
    | apply unswept_in_world
    | match goal with
      | |- respects _ (match ?x with _ => _ end) => destruct x
      end ].

Lemma unswept_getattr_str name : respects unswept (FileCache.getattr_str name).
Proof. unfold FileCache.getattr_str. unswept_steps. Qed.

Lemma unswept_getattr_bool name : respects unswept (FileCache.getattr_bool name).
Proof. unfold FileCache.getattr_bool. unswept_steps. Qed.

Lemma unswept_call_url_to_name url : respects unswept (FileCache.call_url_to_name url).
Proof. unfold FileCache.call_url_to_name. unswept_steps. Qed.

(** Without a sweeper [run_cleaner] does nothing. *)
Lemma unswept_run_cleaner : respects unswept FileCache.run_cleaner.
Proof.
  intros h Hn. unfold FileCache.run_cleaner, bind, getattr, attr.
  rewrite Hn. cbn. split; [done | apply quiet_refl].
Qed.

Lemma unswept_run_validator dest : respects unswept (FileCache.run_validator dest).
Proof.
  unfold FileCache.run_validator. unswept_steps.
  - apply respects_bind; [apply quiet_trans | by apply quiet_emit | intros _].
    apply respects_read, quiet_refl.
  - apply respects_read, quiet_refl.
  - apply respects_bind; [apply quiet_trans | apply quiet_open_rb | intros ?].
    apply respects_ret, quiet_refl.
  - apply quiet_os_remove.
Qed.

Lemma unswept_get_file url : respects unswept (FileCache.get_file url).
Proof.
  unfold FileCache.get_file.
  repeat first
    [ apply unswept_getattr_str | apply unswept_getattr_bool
    | apply unswept_call_url_to_name | apply unswept_run_cleaner
    | apply unswept_run_validator
    | apply respects_ret; apply unswept_refl
    | apply respects_when; [apply unswept_refl|]
    | apply respects_bind; [apply unswept_trans | | intros ?]
    | apply unswept_in_world
    | match goal with
      | |- respects _ (if ?x then _ else _) => destruct x
      end ];
    auto using quiet_os_makedirs, quiet_os_path_exists, quiet_download.
  by apply quiet_emit.
Qed.

Lemma quiet_events_since w w' : quiet w w' -> Call_cleanup ∉ events_since w w'.
Proof.
  intros (evs & Hlog & Hnot). unfold events_since.
  by rewrite Hlog, drop_app_length.
Qed.

(** C3: with [cache_size > 0] the constructor raises [AttributeError] for
    [cache_size], the attribute it reads without ever assigning it; so an
    object that was constructed has [cache_size <= 0] and [cleaner = None],
    and no call of [get_file] on it calls the sweeper or installs one. *)
Theorem init_cache_size_unassigned
    default_cache_dir url_to_name cache_dir verbose validator handler
    cache_size interval :
  (0 < cache_size ->
   FileCache.__init__ default_cache_dir url_to_name cache_dir verbose validator
                      handler cache_size interval
   = Raise (AttributeError "cache_size"))
  /\
  (forall self,
     FileCache.__init__ default_cache_dir url_to_name cache_dir verbose validator
                        handler cache_size interval = Ok self ->
     cache_size <= 0 /\
     self !! "cleaner" = Some VNone /\
     forall url w,
       let h' := snd (FileCache.get_file url (mkHeap self w)) in
       (Call_cleanup ∉ events_since w (world h')) /\
       this h' !! "cleaner" = Some VNone).
Proof.
  split.
  - intros Hpos. unfold FileCache.__init__.
    destruct (Z.ltb_spec 0 cache_size); [|lia]. by vm_compute.
  - intros self Hinit. unfold FileCache.__init__ in Hinit.
    destruct (Z.ltb_spec 0 cache_size).
    { by vm_compute in Hinit. }
    injection Hinit as <-. split; [done|].
    split; [by rewrite lookup_insert_eq|].
    intros url w h'. subst h'.
    match goal with
    | |- context [FileCache.get_file url ?h0] =>
        destruct (unswept_get_file url h0) as [Hkeep Hquiet]
    end.
    { unfold no_sweeper. cbn. by rewrite lookup_insert_eq. }
    split; [by apply quiet_events_since | done].
Qed.

Lemma init_cache_size_unassigned_witness :
  FileCache.__init__ "./_cache" last_segment (Some "cache") false None
                     reraise_exception 1000 (Some 30)
  = Raise (AttributeError "cache_size")
  /\
  (let self := example_cache reraise_exception in
   -1 <= 0 /\
   self !! "cleaner" = Some VNone /\
   forall url w,
     let h' := snd (FileCache.get_file url (mkHeap self w)) in
     (Call_cleanup ∉ events_since w (world h')) /\
     this h' !! "cleaner" = Some VNone).
Proof.
  split.
  - apply (init_cache_size_unassigned "./_cache" last_segment (Some "cache")
             false None reraise_exception 1000 (Some 30)). lia.
  - apply (init_cache_size_unassigned "./_cache" last_segment (Some "cache")
             false None reraise_exception (-1) (Some 30)).
    reflexivity.
Defined.

Example init_default_arguments :
  match FileCache.__init__ "./_cache" (fun url => url_to_cache_name UrlParse.urlparse url 0)
                           None false (Some check_tar_format) reraise_exception
                           (-1) (Some 30) with
  | Ok self => self !! "cache_dir" = Some (VStr "./_cache")
               /\ self !! "cleaner" = Some VNone
               /\ self !! "cache_size" = None
               /\ self !! "last_path" = None
  | Raise _ => False
  end.
Proof. vm_compute. auto. Qed.

(** ** FileCache.__call__ *)


Lemma try_body_after_get_file urlparse url h p h1 :
  FileCache.get_file url h = (Ok p, h1) ->
  FileCache.try_body urlparse url h = (Raise TypeError, h1).
Proof. intros Hget. unfold FileCache.try_body. unfold bind at 1. by rewrite Hget. Qed.




(** The retry loop has no [break] after its [yield]: with a body that
    succeeds, every one of the attempts yields. *)
Lemma retry_loop_yields_every_attempt body n url item :
  (forall h, body url h = (Ok item, h)) ->
  forall h, FileCache.retry_loop body n url h = (repeat item n, Ok tt, h).
Proof.
  intros Hbody. induction n as [|n IH]; intros h; cbn [FileCache.retry_loop repeat];
    [done|].
  by rewrite Hbody, IH.
Qed.

(** When the handler answers [False], the retry loop of this URL ends and
    the loop over the URLs goes on with the next one. *)
Lemma url_loop_after_handler_false body req url rest h e h1 h2 :
  request_url req = Ok url ->
  body url h = (Raise e, h1) ->
  call_handler e h1 = (Ok false, h2) ->
  FileCache.url_loop body (req :: rest) h = FileCache.url_loop body rest h2.
Proof.
  intros Hreq Hbody Hhandler. cbn [FileCache.url_loop]. rewrite Hreq.
  unfold attempts. cbn [FileCache.retry_loop]. rewrite Hbody, Hhandler.
  by destruct (FileCache.url_loop body rest h2) as [[items r] h3].
Qed.

(** So a URL whose body succeeds is yielded after the handler has answered
    [False] for an earlier one, and as often as there are attempts. *)
Lemma url_loop_yields_after_handler_false body u1 u2 item e h h1 h2 :
  body u1 h = (Raise e, h1) ->
  call_handler e h1 = (Ok false, h2) ->
  (forall h', body u2 h' = (Ok item, h')) ->
  FileCache.url_loop body [Url u1; Url u2] h = (repeat item attempts, Ok tt, h2).
Proof.
  intros Hfail Hfalse Hok.
  rewrite (url_loop_after_handler_false body (Url u1) u1 [Url u2] h e h1 h2)
    by done.
  cbn [FileCache.url_loop request_url].
  rewrite (retry_loop_yields_every_attempt body attempts u2 item Hok).
  by rewrite app_nil_r.
Qed.

(** C1 (the code departs from the claim): the archive of the URL is in the
    cache, so [get_file] returns its path and [open_file] opens it; yet
    [__call__] on this URL, with a handler that always answers [True], yields
    nothing: each of the ten attempts ends in the [TypeError] of the call
    [self.open_file(self.get_file(url), "rb")]. *)
Theorem call_yields_nothing_for_cached_url :
  let h := mkHeap (example_cache (fun _ => Ok true))
                  (world_with [("cache/a.tar", file_of_size 3 5)] ["cache"]) in
  let url := "http://host/a.tar" in
  fst (FileCache.get_file url h) = Ok "cache/a.tar" /\
  fst (FileCache.open_file UrlParse.urlparse url h)
  = Ok (mkStream "cache/a.tar" [x00; x00; x00]) /\
  match FileCache.__call__ UrlParse.urlparse [Url url] h with
  | (items, r, h') =>
      items = [] /\ r = Ok tt /\
      handled (log (world h')) = repeat TypeError 10
  end.
Proof. vm_compute. repeat split. Qed.

Example call_with_default_handler :
  let h := mkHeap (example_cache reraise_exception)
                  (world_with [("cache/a.tar", file_of_size 3 5)] ["cache"]) in
  match FileCache.__call__ UrlParse.urlparse [Url "http://host/a.tar"] h with
  | (items, r, h') => items = [] /\ r = Raise TypeError
  end.
Proof. vm_compute. repeat split. Qed.



(** What the run does after the answer [False]: the [break] leaves the loop
    over the attempts only, so the generator goes on with the second URL,
    fetches it into the cache and calls the handler again; it still yields
    nothing. *)
Example call_goes_on_after_handler_false :
  let remote := fun url =>
    if String.eqb url "http://host/b.tar" then Ok [Chunk [x01; x02]]
    else Raise (TransportError 404) in
  let w := mkWorld ∅ (list_to_set ["cache"]) (fun n => 1000 + Z.of_nat n) 0 4242
                   remote None None [] in
  let h := mkHeap (example_cache (fun _ => Ok false)) w in
  match FileCache.__call__ UrlParse.urlparse
          [Url "http://host/a.tar"; Url "http://host/b.tar"] h with
  | (items, r, h') =>
      items = [] /\ r = Ok tt /\
      handled (log (world h')) = [TransportError 404; TypeError] /\
      downloads (log (world h'))
      = [("http://host/a.tar", "cache/a.tar"); ("http://host/b.tar", "cache/b.tar")] /\
      f_data <$> files (world h') !! "cache/b.tar" = Some [x01; x02]
  end.
Proof. vm_compute. repeat split. Qed.

(** The sibling generator [StreamingOpen.__call__] has a single loop, and
    there the same answer ends the sequence: the second URL is not touched. *)
Example streaming_open_stops_after_handler_false :
  let h := mkHeap (StreamingOpen.__init__ false (fun _ => Ok false))
                  (world_with [("b.tar", file_of_size 2 5)] []) in
  match StreamingOpen.__call__ UrlParse.urlparse [Url "a.tar"; Url "b.tar"] h with
  | (items, r, h') =>
      items = [] /\ r = Ok tt /\
      handled (log (world h')) = [FileNotFoundError]
  end.
Proof. vm_compute. repeat split. Qed.

Example streaming_open_yields_once :
  let h := mkHeap (StreamingOpen.__init__ false (fun _ => Ok true))
                  (world_with [("b.tar", file_of_size 2 5)] []) in
  match StreamingOpen.__call__ UrlParse.urlparse [Url "a.tar"; Url "b.tar"] h with
  | (items, r, h') =>
      items = [("b.tar", StreamingOpen.Local (mkStream "b.tar" [x00; x00]))]
      /\ r = Ok tt
  end.
Proof. vm_compute. repeat split. Qed.

(** ** FileCache.get_file *)


(** A successful download creates no file but [dest], and touches neither
    the directories nor, apart from recording the call, the log. *)
Lemma download_Ok url dest chunk_size verbose w w' :
  download url dest chunk_size verbose w = (Ok tt, w') ->
  is_Some (files w' !! dest) /\
  (forall q, q <> dest -> files w !! q = None -> files w' !! q = None) /\
  dirs w' = dirs w /\
  log w' = log w ++ [Call_download url dest].
Proof.
  pose proof (temp_name_ne dest (pid w)) as Hne.
  rewrite download_run. cbn zeta.
  set (temp := temp_name dest (pid w)) in *.
  destruct (remote w url) as [stream|e]; [|done].
  destruct (bool_decide (Path.norm temp ∈ dirs w)); [done|].
  destruct (parent_exists w temp); [|done].
  destruct (copied (fsize_limit w) [] stream) as [[[]|e] out]; [|done].
  destruct (bool_decide (Path.norm dest ∈ dirs w)); [done|].
  intros [= <-]. cbn. repeat split; try done.
  - rewrite lookup_insert_eq. by eexists.
  - intros q Hq Hnone. rewrite lookup_insert_ne by done.
    destruct (decide (q = temp)) as [->|Hqt]; [by rewrite lookup_delete_eq|].
    by rewrite lookup_delete_ne, !lookup_insert_ne.
Qed.

(** A validation that passes changes neither the object nor the files, and
    records no download. *)
Lemma run_validator_Ok dest h h' :
  FileCache.run_validator dest h = (Ok tt, h') ->
  this h' = this h /\ files (world h') = files (world h) /\
  dirs (world h') = dirs (world h) /\
  exists evs, log (world h') = log (world h) ++ evs /\ downloads evs = [].
Proof.
  unfold FileCache.run_validator. unfold bind at 1. unfold getattr.
  destruct (attr (this h) "validator") as [[]|]; try done.
  - intros [= <-]. repeat split; try done. exists []. by rewrite app_nil_r.
  - unfold bind at 1. unfold in_world, bind, emit, modify. cbn.
    destruct (f _ dest) as [[|]|]; cbn; [|  |done].
    + intros [= <-]. cbn. repeat split; try done. by exists [Call_validator dest].
    + destruct (get_filetype _ dest); [|done]. cbn.
      destruct (open_rb dest _) as [[]]; [|done]. cbn.
      by destruct (os_remove dest _) as [[]].
Qed.

(** [get_file] on an object without sweeper, step by step. *)
Lemma get_file_run url h f d vb :
  this h !! "url_to_name" = Some (VNamer f) ->
  this h !! "cache_dir" = Some (VStr d) ->
  this h !! "verbose" = Some (VBool vb) ->
  this h !! "cleaner" = Some VNone ->
  FileCache.get_file url h =
  match f url with
  | Raise e => (Raise e, h)
  | Ok cache_name =>
      let dest := Path.join d cache_name in
      match os_makedirs (Path.join d (Path.dirname cache_name)) (world h) with
      | (Raise e, w1) => (Raise e, mkHeap (this h) w1)
      | (Ok _, w1) =>
          if exists_at w1 dest then (Ok dest, mkHeap (this h) w1)
          else
            let w1' := if vb
                       then add_event (Stderr ("# downloading " +:+ url +:+ " to " +:+ dest)) w1
                       else w1 in
            match download url dest (1024 ^ 2) vb w1' with
            | (Raise e, w2) => (Raise e, mkHeap (this h) w2)
            | (Ok _, w2) =>
                match FileCache.run_validator dest (mkHeap (this h) w2) with
                | (Ok _, h3) => (Ok dest, h3)
                | (Raise e, h3) => (Raise e, h3)
                end
            end
      end
  end.
Proof.
  intros Hname Hdir Hverbose Hcleaner.
  unfold FileCache.get_file, FileCache.call_url_to_name, FileCache.getattr_str,
    FileCache.getattr_bool, FileCache.run_cleaner.
  unfold bind at 1. unfold bind at 1. unfold getattr at 1. unfold attr.
  rewrite Hname. unfold lift_result.
  destruct (f url) as [cache_name|e]; [|done].
  unfold bind at 1. unfold bind at 1. unfold getattr at 1. unfold attr.
  rewrite Hdir. unfold ret at 1.
  unfold bind at 1. unfold in_world at 1.
  destruct (os_makedirs _ (world h)) as [[[]|e] w1]; [|done].
  cbn zeta.
  unfold bind at 1. unfold bind at 1. unfold getattr at 1. unfold attr.
  cbn [this]. rewrite Hdir. unfold ret at 1.
  unfold bind at 1. unfold in_world at 1, os_path_exists, gets. cbn [world this].
  unfold bind at 1.
  destruct (exists_at w1 _); cbn [negb]; [done|].
  unfold bind at 1. unfold bind at 1. unfold getattr at 1. unfold attr.
  cbn [this]. rewrite Hverbose. unfold ret at 1.
  unfold bind at 1.
  assert (forall msg,
    when vb (in_world (emit (Stderr msg))) (mkHeap (this h) w1)
    = (Ok tt, mkHeap (this h) (if vb then add_event (Stderr msg) w1 else w1)))
    as -> by (intros msg; by destruct vb).
  unfold bind at 1. unfold bind at 1. unfold getattr at 1. unfold attr.
  cbn [this]. rewrite Hcleaner. unfold ret at 1.
  unfold bind at 1. unfold bind at 1. unfold getattr at 1. unfold attr.
  cbn [this]. rewrite Hverbose. unfold ret at 1.
  unfold bind at 1. unfold in_world at 1. cbn [world this].
  destruct (download _ _ _ _ _) as [[[]|e] w2]; [|done].
  unfold bind. by destruct (FileCache.run_validator _ _) as [[[]|e] h3].
Qed.

Lemma ancestors_normal name q :
  q ∈ Path.ancestors name -> q <> "" /\ Path.norm q = q.
Proof.
  unfold Path.ancestors. intros Hq%list_elem_of_In%filter_In. destruct Hq as [_ Hq].
  apply andb_true_iff in Hq as [Hne Hnorm].
  split.
  - intros ->. done.
  - by apply String.eqb_eq.
Qed.

Lemma os_makedirs_Ok name w w' :
  os_makedirs name w = (Ok tt, w') ->
  String.eqb name "" = false /\
  (forall q, q ∈ Path.ancestors name -> files w !! q = None) /\
  w' = set_dirs (fun ds => ds ∪ list_to_set (Path.ancestors name)) w.
Proof.
  unfold os_makedirs. destruct (String.eqb name ""); [done|].
  destruct (existsb _ _) eqn:Hfiles; [done|].
  intros [= <-]. repeat split; try done.
  intros q Hq. destruct (files w !! q) eqn:Hf; [|done].
  assert (existsb (fun q => bool_decide (is_Some (files w !! q)))
                  (Path.ancestors name) = true) as Habs; [|congruence].
  apply existsb_exists. exists q. split; [by apply list_elem_of_In|].
  apply bool_decide_eq_true. by rewrite Hf.
Qed.

(** Creating directories that are all there changes nothing. *)
Lemma os_makedirs_again name w :
  String.eqb name "" = false ->
  (forall q, q ∈ Path.ancestors name -> files w !! q = None) ->
  (forall q, q ∈ Path.ancestors name -> q ∈ dirs w) ->
  os_makedirs name w = (Ok tt, w).
Proof.
  intros Hname Hfiles Hdirs. unfold os_makedirs. rewrite Hname.
  destruct (existsb _ _) eqn:Hex.
  - apply existsb_exists in Hex as (q & Hq%list_elem_of_In & Hf).
    apply bool_decide_eq_true in Hf. rewrite (Hfiles q Hq) in Hf.
    by destruct Hf.
  - f_equal. destruct w. unfold set_dirs. cbn in *. f_equal.
    apply set_eq. intros q. rewrite elem_of_union, elem_of_list_to_set.
    naive_solver.
Qed.


Lemma exists_at_ancestor w name q :
  q ∈ Path.ancestors name ->
  exists_at (set_dirs (fun ds => ds ∪ list_to_set (Path.ancestors name)) w) q = true.
Proof.
  intros Hq. destruct (ancestors_normal name q Hq) as [Hne Hnorm].
  unfold exists_at. cbn [files dirs set_dirs]. apply orb_true_iff. right.
  apply andb_true_iff. split.
  - apply negb_true_iff. by apply String.eqb_neq.
  - apply bool_decide_eq_true. rewrite Hnorm. set_solver.
Qed.

Lemma events_since_refl w : events_since w w = [].
Proof. unfold events_since. by rewrite drop_all. Qed.

Lemma events_since_app w w' evs : log w' = log w ++ evs -> events_since w w' = evs.
Proof. intros Hlog. unfold events_since. by rewrite Hlog, drop_app_length. Qed.





Example get_file_cold_then_warm :
  let url := "http://host/a.tar" in
  let h0 := mkHeap (example_cache reraise_exception) (world_serving url ["cache"]) in
  match FileCache.get_file url h0 with
  | (Ok p1, h1) =>
      p1 = "cache/a.tar" /\
      f_data <$> files (world h1) !! p1 = Some [x01; x02; x03] /\
      downloads (log (world h1)) = [(url, "cache/a.tar")] /\
      match FileCache.get_file url h1 with
      | (Ok p2, h2) => p2 = p1 /\ log (world h2) = log (world h1)
      | _ => False
      end
  | _ => False
  end.
Proof. vm_compute. repeat split. Qed.

(** ** More on LRUCleanup.cleanup *)

Lemma only_removes_refl dir w : only_removes_under dir w w.
Proof. repeat split. intros q. by left. Qed.

Lemma only_removes_trans dir w1 w2 w3 :
  only_removes_under dir w1 w2 -> only_removes_under dir w2 w3 ->
  only_removes_under dir w1 w3.
Proof.
  intros (Hd1 & Ht1 & Hf1) (Hd2 & Ht2 & Hf2).
  split; [congruence|]. split; [congruence|].
  intros q. destruct (Hf2 q) as [Heq|Hgone]; [|by right].
  rewrite Heq. apply Hf1.
Qed.

Lemma only_removes_same dir w w' :
  files w' = files w -> dirs w' = dirs w -> time_source w' = time_source w ->
  only_removes_under dir w w'.
Proof. intros Hf Hd Ht. repeat split; try done. intros q. left. by rewrite Hf. Qed.

Lemma frame_os_path_getsize dir p : respects (only_removes_under dir) (os_path_getsize p).
Proof.
  intros w. unfold os_path_getsize.
  destruct (files w !! p); apply only_removes_refl.
Qed.

Lemma frame_sum_sizes dir paths : forall total,
  respects (only_removes_under dir) (sum_sizes paths total).
Proof.
  induction paths as [|p ps IH]; intros total; cbn [sum_sizes].
  - apply respects_ret, only_removes_refl.
  - apply respects_bind;
      [apply only_removes_trans | apply frame_os_path_getsize | intros sz; apply IH].
Qed.

(** The keyed list names the paths it was given, in their order. *)
Lemma with_keys_paths key paths : forall w keyed w',
  with_keys key paths w = (Ok keyed, w') -> keyed.*2 = paths /\ w' = w.
Proof.
  induction paths as [|p ps IH]; intros w keyed w'; cbn [with_keys].
  - by intros [= <- <-].
  - unfold bind at 1. destruct (key (files w) p) as [k|e]; [|done].
    unfold bind at 1.
    destruct (with_keys key ps w) as [[rest|e] w1] eqn:Hrest; [|done].
    apply IH in Hrest as [Hpaths ->].
    intros [= <- <-]. by rewrite fmap_cons, Hpaths.
Qed.

Lemma with_keys_state key paths w : snd (with_keys key paths w) = w.
Proof.
  revert w. induction paths as [|p ps IH]; intros w; cbn [with_keys]; [done|].
  unfold bind at 1. destruct (key (files w) p) as [k|e]; [|done].
  unfold bind at 1. specialize (IH w).
  destruct (with_keys key ps w) as [[rest|e] w1]; cbn in *; by subst.
Qed.

Lemma frame_delete_loop self d stack :
  (forall p, p ∈ stack -> Path.under d p = true) ->
  forall total, respects (only_removes_under (Some d)) (delete_loop self stack total).
Proof.
  induction stack as [|fname rest IH]; intros Hunder total; cbn [delete_loop].
  - apply respects_ret, only_removes_refl.
  - destruct (cache_size self <? total); [|apply respects_ret, only_removes_refl].
    apply respects_bind;
      [apply only_removes_trans | apply frame_os_path_getsize | intros sz].
    apply respects_bind; [apply only_removes_trans | | intros _].
    { apply respects_when; [apply only_removes_refl|].
      intros w. by apply only_removes_same. }
    apply respects_bind; [apply only_removes_trans | | intros _].
    { intros w. unfold os_remove.
      destruct (files w !! fname); [|apply only_removes_refl].
      repeat split. intros q. cbn.
      destruct (decide (q = fname)) as [->|Hne].
      - right. rewrite lookup_delete_eq. split; [done|].
        exists d. split; [done|]. apply Hunder. by left.
      - left. by rewrite lookup_delete_ne. }
    apply IH. intros p Hp. apply Hunder. by right.
Qed.

Lemma frame_sweep self d : respects (only_removes_under (Some d)) (sweep self d).
Proof.
  intros w. unfold sweep.
  unfold bind at 1. unfold gets at 1.
  unfold bind at 1.
  pose proof (frame_sum_sizes (Some d) (walk d w) 0 w) as Hsum.
  destruct (sum_sizes (walk d w) 0 w) as [[total|e] w1]; cbn [snd] in *; [|done].
  destruct (total <=? cache_size self); [done|].
  unfold bind at 1. unfold gets at 1. unfold bind at 1.
  pose proof (with_keys_state (keyfn self) (walk d w1) w1) as Hstate.
  destruct (with_keys (keyfn self) (walk d w1) w1) as [[keyed|e] w2] eqn:Hkeys;
    cbn [snd] in *; subst w2; [|done].
  apply with_keys_paths in Hkeys as [Hpaths _].
  unfold bind at 1.
  assert (forall p, p ∈ rev (sort_desc keyed).*2 -> Path.under d p = true)
    as Hunder.
  { intros p Hp. apply list_elem_of_In, in_rev, list_elem_of_In in Hp.
    rewrite sort_desc_perm, Hpaths in Hp.
    by apply elem_of_walk in Hp as [_ ?]. }
  pose proof (frame_delete_loop self d _ Hunder total w1) as Hloop.
  destruct (delete_loop _ _ _ w1) as [[[]|e] w3]; cbn [snd] in *;
    by eapply only_removes_trans.
Qed.

Lemma frame_time_time dir : respects (only_removes_under dir) time_time.
Proof. intros w. by apply only_removes_same. Qed.

Lemma frame_except_OSError dir body :
  respects (only_removes_under dir) body ->
  respects (only_removes_under dir) (except_OSError body).
Proof.
  intros Hbody w. specialize (Hbody w). unfold except_OSError.
  destruct (body w) as [[c|e] w']; [done|]. by destruct (is_OSError e).
Qed.

Lemma respects_bind_value {S A B} (R : S -> S -> Prop) (a : A) (k : A -> M S B) :
  respects R (k a) -> respects R (bind (lift_result (Ok a)) k).
Proof. intros Hk s. apply Hk. Qed.

Lemma frame_cleanup self :
  respects (only_removes_under (cache_dir self)) (cleanup self).
Proof.
  unfold cleanup. destruct (cache_dir self) as [d|].
  2:{ intros w. apply only_removes_refl. }
  apply respects_bind_value.
  apply respects_bind;
    [apply only_removes_trans | apply respects_gets, only_removes_refl
    | intros present].
  destruct (negb present); [apply respects_ret, only_removes_refl|].
  apply respects_bind; [apply only_removes_trans | | intros too_soon].
  { destruct (interval self); [|apply respects_ret, only_removes_refl].
    apply respects_bind;
      [apply only_removes_trans | apply frame_time_time | intros now].
    apply respects_ret, only_removes_refl. }
  destruct too_soon; [apply respects_ret, only_removes_refl|].
  apply respects_bind;
    [apply only_removes_trans | apply frame_except_OSError, frame_sweep
    | intros c].
  destruct c; [apply respects_ret, only_removes_refl|].
  apply respects_bind;
    [apply only_removes_trans | apply frame_time_time | intros now].
  apply respects_ret, only_removes_refl.
Qed.

(** X1: whatever its outcome, a call of [cleanup] creates and changes no file,
    removes no file outside [cache_dir] and touches no directory. *)
Theorem cleanup_only_removes_below_cache_dir self w q :
  let w' := snd (cleanup self w) in
  dirs w' = dirs w /\
  (files w' !! q = files w !! q \/
   (files w' !! q = None /\
    exists d, cache_dir self = Some d /\ Path.under d q = true)).
Proof.
  destruct (frame_cleanup self w) as (Hdirs & _ & Hfiles).
  cbn zeta. split; [done | apply Hfiles].
Qed.

Example cleanup_spares_other_directories :
  let self := LRUCleanup_init (Some "cache") 0 os_path_getctime false None in
  let w := world_with [("cache/a.tar", file_of_size 60 5);
                       ("cachet/b.tar", file_of_size 60 3);
                       ("other/c.tar", file_of_size 60 1)] ["cache"] in
  match cleanup self w with
  | (Ok _, w') => removed (log w') = ["cache/a.tar"]
                  /\ is_Some (files w' !! "cachet/b.tar")
                  /\ is_Some (files w' !! "other/c.tar")
  | _ => False
  end.
Proof. vm_compute. repeat split; by eexists. Qed.

Lemma size_le_dir_total d w p : p ∈ walk d w -> size_of (files w) p <= dir_total d w.
Proof.
  unfold dir_total. induction (walk d w) as [|q l IH]; intros Hp.
  - by apply elem_of_nil in Hp.
  - rewrite fmap_cons. cbn [sum_Z].
    apply elem_of_cons in Hp as [->|Hp].
    + pose proof (sum_sizes_nonneg (files w) l). lia.
    + specialize (IH Hp). pose proof (size_of_nonneg (files w) q). lia.
Qed.

(** X2: after a sweep that ran with a budget [cache_size >= 0], every file
    left below [cache_dir] is at most [cache_size] bytes long: a file larger
    than the budget is always removed, there is no exception for it. *)
Theorem cleanup_leaves_no_oversized_file self dir w :
  scan_runs self dir w ->
  keys_defined self dir w ->
  0 <= cache_size self ->
  exists self' w',
    cleanup self w = (Ok self', w') /\
    forall p f, files w' !! p = Some f -> Path.under dir p = true ->
                f_size f <= cache_size self.
Proof.
  intros Hscan Hkeys Hpos.
  destruct (cleanup_remaining_total self dir w Hscan Hkeys Hpos)
    as (self' & w' & Hrun & Htotal).
  exists self', w'. split; [done|]. intros p f Hf Hunder.
  assert (p ∈ walk dir w') as Hp by (apply elem_of_walk; split; [by eexists | done]).
  apply size_le_dir_total in Hp. unfold size_of in Hp. rewrite Hf in Hp.
  cbn in Hp. lia.
Qed.

Lemma cleanup_leaves_no_oversized_file_witness :
  let self := LRUCleanup_init (Some "cache") 100 os_path_getctime false (Some 30) in
  let w := world_with [("cache/old.tar", file_of_size 10 3);
                       ("cache/big.tar", file_of_size 150 5)] ["cache"] in
  exists self' w',
    cleanup self w = (Ok self', w') /\
    forall p f, files w' !! p = Some f -> Path.under "cache" p = true ->
                f_size f <= cache_size self.
Proof.
  cbn zeta. apply cleanup_leaves_no_oversized_file.
  - repeat split. cbn. lia.
  - intros p Hp. apply getctime_defined. by apply elem_of_walk in Hp as [? _].
  - cbn. lia.
Defined.

Example cleanup_removes_oversized_newest_file :
  let self := LRUCleanup_init (Some "cache") 100 os_path_getctime false (Some 30) in
  let w := world_with [("cache/old.tar", file_of_size 10 3);
                       ("cache/big.tar", file_of_size 150 5)] ["cache"] in
  match cleanup self w with
  | (Ok _, w') => removed (log w') = ["cache/old.tar"; "cache/big.tar"]
                  /\ dir_total "cache" w' = 0
  | _ => False
  end.
Proof. vm_compute. repeat split. Qed.

(** X3: with pairwise distinct keys, the newest file below [cache_dir]
    survives the sweep whenever it fits the budget by itself. *)
Theorem cleanup_keeps_newest_file self dir w p f :
  scan_runs self dir w ->
  keys_defined self dir w ->
  keys_distinct self dir w ->
  p ∈ walk dir w ->
  files w !! p = Some f ->
  (forall q, q ∈ walk dir w ->
             key_of self (files w) q <= key_of self (files w) p) ->
  f_size f <= cache_size self ->
  exists self' w',
    cleanup self w = (Ok self', w') /\ files w' !! p = Some f.
Proof.
  intros Hscan Hkeys Hdist Hp Hf Hmax Hfits.
  destruct (cleanup_spec self dir w Hscan Hkeys)
    as (self' & w' & evs & Hrun & _ & _ & Hfiles & _).
  exists self', w'. split; [done|]. rewrite Hfiles, <- Hf.
  apply decide_False.
  pose proof (eviction_order_sorted self dir w Hdist) as Hsorted.
  pose proof (eviction_order_NoDup self dir w) as Hnd.
  pose proof (eviction_order_perm self dir w) as Hperm.
  set (key := key_of self (files w)) in *.
  set (stack := eviction_order self dir w) in *.
  assert (p ∈ stack) as Hin by (by rewrite Hperm).
  apply list_elem_of_split in Hin as (front & back & Hsplit).
  assert (back = []) as ->.
  { destruct back as [|q back]; [done|]. exfalso.
    rewrite Hsplit in Hsorted.
    apply StronglySorted_app in Hsorted as (_ & _ & Hs).
    apply StronglySorted_inv in Hs as [_ Hlt].
    apply Forall_cons in Hlt as [Hlt _].
    assert (q ∈ walk dir w) as Hq.
    { rewrite <- Hperm, Hsplit. apply elem_of_app. right. right. by left. }
    specialize (Hmax q Hq). lia. }
  set (sizes := size_of (files w) <$> stack) in *.
  set (n := evicted (cache_size self) sizes (dir_total dir w)) in *.
  intros Htake.
  assert (length front < n)%nat as Hn.
  { destruct (decide (length front < n)%nat) as [|Hle]; [done|]. exfalso.
    rewrite Hsplit, take_app_le in Htake by lia.
    rewrite Hsplit in Hnd. apply NoDup_app in Hnd as (_ & Hdisj & _).
    apply (Hdisj p); [by eapply subseteq_take | by left]. }
  pose proof (evicted_over (cache_size self) sizes (dir_total dir w)
                (length front) Hn) as Hover.
  assert (dir_total dir w = sum_Z sizes) as Htotal.
  { unfold dir_total, sizes.
    apply sum_Z_perm, fmap_Permutation. by symmetry. }
  unfold sizes in Hover, Htotal. rewrite Hsplit, fmap_app in Hover, Htotal.
  rewrite take_app_length' in Hover by (by rewrite length_fmap).
  rewrite Htotal, sum_Z_app in Hover. rewrite fmap_cons in Hover.
  cbn [fmap list_fmap sum_Z] in Hover.
  unfold size_of in Hover at 2. rewrite Hf in Hover. cbn in Hover. lia.
Qed.

Lemma cleanup_keeps_newest_file_witness :
  let self := LRUCleanup_init (Some "cache") 100 os_path_getctime false (Some 30) in
  let w := world_with [("cache/a.tar", file_of_size 60 5);
                       ("cache/b.tar", file_of_size 60 3);
                       ("cache/sub/c.tar", file_of_size 60 4)] ["cache"] in
  exists self' w',
    cleanup self w = (Ok self', w') /\
    files w' !! "cache/a.tar" = Some (file_of_size 60 5).
Proof.
  cbn zeta. apply cleanup_keeps_newest_file with (dir := "cache").
  - repeat split. cbn. lia.
  - intros p Hp. apply getctime_defined. by apply elem_of_walk in Hp as [? _].
  - intros p q Hp Hq. vm_compute in Hp, Hq.
    repeat (apply elem_of_cons in Hp as [->|Hp]);
      try (by apply elem_of_nil in Hp);
      repeat (apply elem_of_cons in Hq as [->|Hq]);
      try (by apply elem_of_nil in Hq);
      vm_compute; congruence.
  - apply elem_of_walk. split; [by vm_compute; eexists | by vm_compute].
  - by vm_compute.
  - intros q Hq. vm_compute in Hq.
    repeat (apply elem_of_cons in Hq as [->|Hq]);
      try (by apply elem_of_nil in Hq); by vm_compute.
  - by vm_compute.
Defined.

Lemma string_app_nil_r (s : string) : s +:+ "" = s.
Proof. induction s as [|c s IH]; [done|]. change (String c (s +:+ "") = String c s). by rewrite IH. Qed.

Lemma prefix_longer (a : string) (c : ascii) (b : string) :
  String.prefix (a +:+ String c b) a = false.
Proof.
  induction a as [|x a IH]; [done|].
  change (String.prefix (String x (a +:+ String c b)) (String x a) = false).
  cbn [String.prefix]. by destruct (Ascii.ascii_dec x x).
Qed.

(** A directory is not below itself. *)
Lemma under_irrefl d : Path.under d d = false.
Proof.
  unfold Path.under, Path.join. cbn [Py.startswith String.prefix].
  destruct (String.eqb d "") eqn:Hempty; [done|]. cbn [negb andb orb].
  destruct (Path.endswith_sep d).
  - rewrite string_app_nil_r, String.eqb_refl. by rewrite andb_false_r.
  - unfold Py.startswith.
    change (d +:+ "/" +:+ "") with (d +:+ String "/" "").
    by rewrite prefix_longer.
Qed.

(** A call made less than [interval] after [last_run] returns at the guard:
    only a reading of the clock is consumed. *)
Lemma cleanup_too_soon self dir i w :
  cache_dir self = Some dir ->
  exists_at w dir = true ->
  interval self = Some i ->
  time_source w (time_reads w) - last_run self < i ->
  cleanup self w = (Ok self, set_time_reads (S (time_reads w)) w).
Proof.
  intros Hdir Hex Hint Hsoon. unfold cleanup. rewrite Hdir, Hint.
  unfold bind at 1. unfold lift_result.
  unfold bind at 1. unfold os_path_exists, gets. rewrite Hex. cbn [negb].
  unfold bind, time_time, ret.
  by destruct (Z.ltb_spec (time_source w (time_reads w) - last_run self) i); [|lia].
Qed.

(** The clock after a sweep that found the total above the budget: one
    reading at the guard (when there is an interval), one at the end. *)
Lemma cleanup_over_budget_clock self dir w :
  scan_runs self dir w -> keys_defined self dir w ->
  cache_size self < dir_total dir w ->
  exists self' w',
    cleanup self w = (Ok self', w') /\
    self' = set_last_run (time_source w (time_reads w + guard_reads self)%nat) self /\
    time_source w' = time_source w /\
    time_reads w' = (time_reads w + guard_reads self + 1)%nat.
Proof.
  intros (Hdir & Hex & Hint) Hkeys Hover.
  set (w0 := match interval self with
             | Some _ => set_time_reads (S (time_reads w)) w
             | None => w
             end).
  assert (files w0 = files w /\ time_source w0 = time_source w /\
          time_reads w0 = (time_reads w + guard_reads self)%nat)
    as (Hf0 & Hts0 & Htr0).
  { unfold w0, guard_reads. destruct (interval self); cbn; repeat split; lia. }
  assert (walk dir w0 = walk dir w) as Hwalk by (unfold walk; by rewrite Hf0).
  destruct (sweep_spec self dir w0) as
    (w1 & evs & Hsweep & _ & _ & _ & _ & Hts & Htr).
  { intros p Hp. rewrite Hf0. apply Hkeys. by rewrite <- Hwalk. }
  assert (dir_total dir w0 = dir_total dir w) as Htotal
    by (unfold dir_total; by rewrite Hwalk, Hf0).
  rewrite Htotal in Hsweep.
  destruct (Z.leb_spec (dir_total dir w) (cache_size self)); [lia|].
  eexists _, _. split; [|split; [reflexivity|]].
  - unfold cleanup. rewrite Hdir. unfold bind at 1. unfold lift_result.
    unfold bind at 1. rewrite os_path_exists_run, Hex. cbn [negb].
    unfold bind at 1.
    assert ((match interval self with
             | Some i => now <- time_time;; ret (now - last_run self <? i)
             | None => ret false
             end) w = (Ok false, w0)) as ->.
    { unfold w0. destruct (interval self) as [i|]; [|done].
      unfold bind, time_time, ret.
      destruct (Z.ltb_spec (time_source w (time_reads w) - last_run self) i);
        [lia | done]. }
    unfold bind at 1. unfold except_OSError. rewrite Hsweep.
    unfold bind, time_time, ret. rewrite Hts, Htr, Hts0, Htr0. reflexivity.
  - cbn. split; [congruence | lia].
Qed.

(** X4: after a sweep that found the cache above its budget, a second call
    for which the clock has advanced by less than [interval] since the end of
    the sweep does nothing: it returns at the guard, with the files and the
    object as the sweep left them. *)
Theorem cleanup_again_within_interval self dir w i :
  scan_runs self dir w ->
  keys_defined self dir w ->
  cache_size self < dir_total dir w ->
  interval self = Some i ->
  time_source w (time_reads w + 2)%nat - time_source w (time_reads w + 1)%nat < i ->
  exists self' w' w'',
    cleanup self w = (Ok self', w') /\
    cleanup self' w' = (Ok self', w'') /\
    files w'' = files w' /\ log w'' = log w'.
Proof.
  intros Hscan Hkeys Hover Hint Hclock.
  destruct (cleanup_over_budget_clock self dir w Hscan Hkeys Hover)
    as (self' & w' & Hrun & Hself & Hts & Htr).
  assert (guard_reads self = 1%nat) as Hg by (unfold guard_reads; by rewrite Hint).
  rewrite Hg in Hself, Htr.
  exists self', w', (set_time_reads (S (time_reads w')) w').
  split; [done|]. split; [|done].
  destruct Hscan as (Hdir & Hex & _).
  apply (cleanup_too_soon self' dir i).
  - by rewrite Hself.
  - pose proof (frame_cleanup self w) as (Hdirs & _ & Hfiles).
    rewrite Hrun in Hdirs, Hfiles. cbn [snd] in Hdirs, Hfiles.
    rewrite os_path_exists_run in Hex. cbn in Hex. injection Hex as Hex.
    unfold exists_at in *. rewrite Hdirs.
    destruct (Hfiles dir) as [->|(_ & d & Hd & Hunder)]; [done|].
    rewrite Hdir in Hd. injection Hd as <-. by rewrite under_irrefl in Hunder.
  - by rewrite Hself.
  - rewrite Hts, Htr, Hself. cbn [last_run set_last_run].
    replace (time_reads w + 1 + 1)%nat with (time_reads w + 2)%nat by lia. done.
Qed.

Lemma cleanup_again_within_interval_witness :
  let self := LRUCleanup_init (Some "cache") 100 os_path_getctime false (Some 30) in
  let w := world_with [("cache/a.tar", file_of_size 60 5);
                       ("cache/b.tar", file_of_size 60 3)] ["cache"] in
  exists self' w' w'',
    cleanup self w = (Ok self', w') /\
    cleanup self' w' = (Ok self', w'') /\
    files w'' = files w' /\ log w'' = log w'.
Proof.
  cbn zeta. apply cleanup_again_within_interval with (dir := "cache") (i := 30).
  - repeat split. cbn. lia.
  - intros p Hp. apply getctime_defined. by apply elem_of_walk in Hp as [? _].
  - by vm_compute.
  - reflexivity.
  - cbn. lia.
Defined.

(** ** More on download *)

(** X5: whatever its outcome, [download] changes no file but [dest] and the
    temporary file, touches no directory, and is recorded once. *)
Theorem download_touches_only_dest_and_temp url dest chunk_size verbose w q :
  q <> dest ->
  q <> temp_name dest (pid w) ->
  let w' := snd (download url dest chunk_size verbose w) in
  files w' !! q = files w !! q /\
  dirs w' = dirs w /\
  log w' = log w ++ [Call_download url dest].
Proof.
  intros Hdest Htemp. cbn zeta. rewrite download_run. cbn zeta.
  destruct (remote w url) as [stream|e]; [|done].
  destruct (bool_decide (Path.norm _ ∈ dirs w)); [done|].
  destruct (parent_exists w _); [|done].
  destruct (copied (fsize_limit w) [] stream) as [[[]|e] out]; cbn [snd].
  - destruct (bool_decide (Path.norm dest ∈ dirs w)); cbn.
    + by rewrite lookup_insert_ne.
    + by rewrite lookup_insert_ne, lookup_delete_ne, lookup_insert_ne.
  - cbn. by rewrite lookup_insert_ne.
Qed.

Lemma download_touches_only_dest_and_temp_witness :
  let w := world_with [("cache/b.tar", file_of_size 4 1)] ["cache"] in
  let w' := snd (download "http://host/a.tar" "cache/a.tar" (1024 ^ 2) false w) in
  files w' !! "cache/b.tar" = files w !! "cache/b.tar" /\
  dirs w' = dirs w /\
  log w' = log w ++ [Call_download "http://host/a.tar" "cache/a.tar"].
Proof.
  cbn zeta.
  apply (download_touches_only_dest_and_temp "http://host/a.tar" "cache/a.tar").
  - done.
  - by vm_compute.
Defined.

(** Without a limit on writes, a stream that fails before its end makes the
    copy fail with the bytes read so far. *)
Lemma copied_interrupted reads : forall acc,
  stream_complete reads = false ->
  exists e, copied None acc reads = (Raise e, acc ++ stream_bytes reads).
Proof.
  induction reads as [|[data|e] rest IH]; intros acc Hc; cbn in Hc; [done| |].
  - destruct data as [|b data]; [done|]. cbn [copied within_limit stream_bytes].
    destruct (IH (acc ++ b :: data) Hc) as [e ->]. exists e.
    by rewrite <- app_assoc.
  - exists e. cbn. by rewrite app_nil_r.
Qed.

(** X6: when the temporary file can be created (its directory exists and
    it is not a directory itself), writes are not limited, and the transport
    fails before the end of the stream, [download] raises and leaves the
    temporary file behind, holding the bytes received before the failure;
    [dest] is as before. *)
Theorem download_interrupted_leaves_temp url dest chunk_size verbose w stream :
  remote w url = Ok stream ->
  stream_complete stream = false ->
  fsize_limit w = None ->
  parent_exists w (temp_name dest (pid w)) = true ->
  Path.norm (temp_name dest (pid w)) ∉ dirs w ->
  exists e t w',
    download url dest chunk_size verbose w = (Raise e, w') /\
    files w' !! temp_name dest (pid w) = Some (mkFile (stream_bytes stream) t) /\
    files w' !! dest = files w !! dest.
Proof.
  intros Hremote Hfail Hlimit Hparent Hnodir.
  rewrite download_run. cbn zeta. rewrite Hremote, Hlimit.
  rewrite bool_decide_eq_false_2 by done. rewrite Hparent.
  destruct (copied_interrupted stream [] Hfail) as [e ->].
  eexists e, _, _. split; [reflexivity|]. cbn.
  split; [by rewrite lookup_insert_eq|].
  rewrite lookup_insert_ne; [done | apply temp_name_ne].
Qed.

Lemma download_interrupted_leaves_temp_witness :
  let w := mkWorld ∅ (list_to_set ["cache"]) (fun n => Z.of_nat n) 0 7
             (fun _ => Ok [Chunk [x01; x02]; ReadFault (TransportError 2); Chunk [x03]])
             None None [] in
  exists e t w',
    download "http://host/a.tar" "cache/a.tar" (1024 ^ 2) false w = (Raise e, w') /\
    files w' !! temp_name "cache/a.tar" (pid w)
    = Some (mkFile (stream_bytes [Chunk [x01; x02]; ReadFault (TransportError 2);
                                  Chunk [x03]]) t) /\
    files w' !! "cache/a.tar" = files w !! "cache/a.tar".
Proof.
  cbn zeta. apply download_interrupted_leaves_temp.
  - reflexivity.
  - reflexivity.
  - reflexivity.
  - vm_compute. reflexivity.
  - apply (bool_decide_unpack _). vm_compute. exact I.
Defined.

(** ** More on FileCache.get_file *)

(** All the attributes of a constructed object. *)
Lemma init_lookups default_cache_dir url_to_name cache_dir verbose validator
    handler cache_size interval self :
  FileCache.__init__ default_cache_dir url_to_name cache_dir verbose validator
                     handler cache_size interval = Ok self ->
  self !! "url_to_name" = Some (VNamer url_to_name) /\
  self !! "cache_dir"
  = Some (VStr (match cache_dir with Some d => d | None => default_cache_dir end)) /\
  self !! "verbose" = Some (VBool verbose) /\
  self !! "cleaner" = Some VNone /\
  self !! "validator"
  = Some (match validator with Some v => VValidator v | None => VNone end) /\
  self !! "handler" = Some (VHandler handler).
Proof.
  intros Hinit. unfold FileCache.__init__ in Hinit.
  destruct (0 <? cache_size); [by vm_compute in Hinit|].
  injection Hinit as <-. repeat split; by vm_compute.
Qed.

(** The environment that [download] only reads. *)
Lemma download_env url dest chunk_size verbose w :
  let w' := snd (download url dest chunk_size verbose w) in
  file_command w' = file_command w /\ remote w' = remote w /\
  dirs w' = dirs w /\ log w' = log w ++ [Call_download url dest].
Proof.
  cbn zeta. rewrite download_run. cbn zeta.
  destruct (remote w url) as [stream|e]; [|done].
  destruct (bool_decide (Path.norm _ ∈ dirs w)); [done|].
  destruct (parent_exists w _); [|done].
  destruct (copied (fsize_limit w) [] stream) as [[[]|e] out]; cbn [snd]; [|done].
  by destruct (bool_decide (Path.norm dest ∈ dirs w)).
Qed.

(** A call that finds the path present returns it and changes nothing. *)
Lemma get_file_hit url self w f d vb cache_name :
  self !! "url_to_name" = Some (VNamer f) ->
  self !! "cache_dir" = Some (VStr d) ->
  self !! "verbose" = Some (VBool vb) ->
  self !! "cleaner" = Some VNone ->
  f url = Ok cache_name ->
  let destdir := Path.join d (Path.dirname cache_name) in
  let dest := Path.join d cache_name in
  String.eqb destdir "" = false ->
  (forall q, q ∈ Path.ancestors destdir -> files w !! q = None) ->
  (forall q, q ∈ Path.ancestors destdir -> q ∈ dirs w) ->
  exists_at w dest = true ->
  FileCache.get_file url (mkHeap self w) = (Ok dest, mkHeap self w).
Proof.
  intros Hname Hdir Hverbose Hcleaner Hcn destdir dest Hne Hfiles Hdirs Hex.
  rewrite (get_file_run url (mkHeap self w) f d vb) by done.
  rewrite Hcn. cbn zeta. cbn [world this]. fold destdir dest.
  rewrite (os_makedirs_again destdir w) by done. by rewrite Hex.
Qed.

Lemma get_file_outcomes url self w0 f d vb cache_name :
  self !! "url_to_name" = Some (VNamer f) ->
  self !! "cache_dir" = Some (VStr d) ->
  self !! "verbose" = Some (VBool vb) ->
  self !! "cleaner" = Some VNone ->
  f url = Ok cache_name ->
  get_file_outcome self url (Path.join d cache_name)
    (Path.join d (Path.dirname cache_name)) w0
    (FileCache.get_file url (mkHeap self w0)).
Proof.
  intros Hname Hdir Hverbose Hcleaner Hcn.
  rewrite (get_file_run url (mkHeap self w0) f d vb) by done.
  rewrite Hcn. cbn zeta. cbn [world this].
  set (destdir := Path.join d (Path.dirname cache_name)).
  set (dest := Path.join d cache_name).
  destruct (os_makedirs destdir w0) as [[[]|e] w1] eqn:Hmk.
  2:{ assert (w1 = w0) as ->; [|by constructor].
      unfold os_makedirs in Hmk. destruct (String.eqb destdir "").
      - by injection Hmk.
      - destruct (existsb _ _); [by injection Hmk | done]. }
  apply os_makedirs_Ok in Hmk as (Hnonempty & Hnofile & ->).
  set (w1 := set_dirs (fun ds => ds ∪ list_to_set (Path.ancestors destdir)) w0).
  destruct (exists_at w1 dest) eqn:Hexists; [by constructor|].
  set (msg := "# downloading " +:+ url +:+ " to " +:+ dest).
  set (w1' := if vb then add_event (Stderr msg) w1 else w1).
  assert (files w1' = files w0 /\ dirs w1' = dirs w1 /\
          remote w1' = remote w0 /\ file_command w1' = file_command w0 /\
          exists pre, log w1' = log w0 ++ pre /\
                      (pre = [] \/ exists msg, pre = [Stderr msg]))
    as (Hf1 & Hd1 & Hr1 & Hc1 & pre & Hl1 & Hpre).
  { unfold w1'. destruct vb; cbn; repeat split; try done.
    - exists [Stderr msg]. split; [done|]. right. by eexists.
    - exists []. rewrite app_nil_r. split; [done | by left]. }
  pose proof (download_outcome url dest (1024 ^ 2) vb w1') as Hatomic.
  cbn zeta in Hatomic.
  pose proof (download_env url dest (1024 ^ 2) vb w1') as (Hcmd & _ & Hdirs & Hlog).
  destruct (download url dest (1024 ^ 2) vb w1') as [[[]|e] w2] eqn:Hdl;
    cbn [snd] in *.
  - destruct Hatomic as (stream & t & Hremote & Hcomplete & Hdest & _).
    apply download_Ok in Hdl as (_ & Honly & _ & _).
    eapply (Downloaded self url dest destdir w0 w2 pre stream t); try done.
    + by rewrite <- Hr1.
    + intros q Hq Hnone. apply Honly; [done|]. by rewrite Hf1.
    + by rewrite Hdirs, Hd1.
    + by rewrite Hcmd, Hc1.
    + by rewrite Hlog, Hl1, <- app_assoc.
  - apply (Download_failed self url dest destdir w0 e w2 pre); try done.
    + by rewrite Hatomic, Hf1.
    + by rewrite Hlog, Hl1, <- app_assoc.
Qed.

Lemma validations_pre pre url dest :
  pre = [] \/ (exists msg, pre = [Stderr msg]) ->
  validations (pre ++ [Call_download url dest]) = [].
Proof. by intros [->|[msg ->]]. Qed.

(** The validator answers [False] and the [file] utility is there: the file
    is removed and [ValueError] is raised. *)
Lemma run_validator_rejects dest self w g probe f :
  self !! "validator" = Some (VValidator g) ->
  (forall w', g w' dest = Ok false) ->
  file_command w = Some probe ->
  files w !! dest = Some f ->
  FileCache.run_validator dest (mkHeap self w)
  = (Raise ValueError,
     mkHeap self (add_event (Os_remove dest)
                    (set_files (delete dest) (add_event (Call_validator dest) w)))).
Proof.
  intros Hv Hg Hcmd Hf. unfold FileCache.run_validator.
  unfold bind at 1. unfold getattr, attr. cbn [this]. rewrite Hv.
  unfold bind at 1. unfold in_world at 1. unfold bind at 1. unfold emit, modify.
  cbn [world this]. rewrite Hg.
  unfold bind at 1. unfold in_world at 1. cbn [world this].
  unfold get_filetype. cbn [file_command add_event]. rewrite Hcmd.
  unfold bind at 1. unfold in_world at 1. unfold bind at 1. unfold open_rb.
  cbn [world this files add_event]. rewrite Hf. unfold ret at 1.
  unfold bind at 1. unfold in_world at 1. unfold os_remove.
  cbn [world this files add_event]. rewrite Hf. reflexivity.
Qed.

(** X7: with a validator that rejects the archive, and the [file] utility
    at hand, a call of [get_file] leaves no file at a destination that was
    free before, however the call ends; and when the validator was reached,
    the call raises [ValueError] after removing the downloaded file. *)
Theorem get_file_rejected_leaves_nothing
    default_cache_dir url_to_name cache_dir verbose validator handler
    cache_size interval self url cache_name w0 probe r h1 :
  FileCache.__init__ default_cache_dir url_to_name cache_dir verbose
                     (Some validator) handler cache_size interval = Ok self ->
  url_to_name url = Ok cache_name ->
  let dest := Path.join (match cache_dir with
                         | Some d => d
                         | None => default_cache_dir
                         end) cache_name in
  (forall w, validator w dest = Ok false) ->
  file_command w0 = Some probe ->
  files w0 !! dest = None ->
  FileCache.get_file url (mkHeap self w0) = (r, h1) ->
  files (world h1) !! dest = None /\
  (validations (events_since w0 (world h1)) <> [] ->
   r = Raise ValueError /\ Os_remove dest ∈ events_since w0 (world h1)).
Proof.
  intros Hinit Hcn dest Hrej Hcmd Hfree Hrun.
  destruct (init_lookups _ _ _ _ _ _ _ _ _ Hinit)
    as (Hname & Hdir & Hverbose & Hcleaner & Hval & _).
  pose proof (get_file_outcomes url self w0 _ _ _ _ Hname Hdir Hverbose
                Hcleaner Hcn) as Hout.
  fold dest in Hout. rewrite Hrun in Hout.
  inversion Hout as [e|w1 Hhit|e w2 pre Hdest Hlog Hpre
                    |w2 pre stream t r' w1 Hmiss Hne Hnofile Hremote Hcomplete
                       Hdest Honly Hdirs Hcmd2 Hlog Hpre Hr]; subst.
  - cbn. rewrite events_since_refl. by split.
  - cbn. split; [done|].
    by rewrite (events_since_app w0 _ []) by (by rewrite app_nil_r).
  - cbn. split; [congruence|].
    rewrite (events_since_app w0 w2 _ Hlog). by rewrite validations_pre.
  - pose proof (run_validator_rejects dest self w2 validator probe _ Hval Hrej
                  (eq_trans Hcmd2 Hcmd) Hdest) as Hrv.
    rewrite Hrv in Hr. injection Hr as -> ->. cbn. split; [by rewrite lookup_delete_eq|].
    intros _. split; [done|].
    rewrite (events_since_app w0 _
               (pre ++ [Call_download url dest; Call_validator dest; Os_remove dest])).
    + apply elem_of_app. right. by do 2 right; left.
    + cbn. rewrite Hlog. by rewrite <- !app_assoc.
Qed.

Lemma get_file_rejected_leaves_nothing_witness :
  let url := "http://host/a.tar" in
  let w0 := world_delivering (Some (fun _ _ => "data")) in
  let self := validating_cache (fun _ _ => Ok false) in
  let r := fst (FileCache.get_file url (mkHeap self w0)) in
  let h1 := snd (FileCache.get_file url (mkHeap self w0)) in
  files (world h1) !! "cache/a.tar" = None /\
  (validations (events_since w0 (world h1)) <> [] ->
   r = Raise ValueError /\ Os_remove "cache/a.tar" ∈ events_since w0 (world h1)).
Proof.
  cbn zeta.
  apply (get_file_rejected_leaves_nothing "./_cache" last_segment (Some "cache")
           false (fun _ _ => Ok false) reraise_exception (-1) (Some 30)
           (validating_cache (fun _ _ => Ok false))
           "http://host/a.tar" "a.tar" _ (fun _ _ => "data")).
  - vm_compute. reflexivity.
  - vm_compute. reflexivity.
  - done.
  - reflexivity.
  - reflexivity.
  - apply surjective_pairing.
Defined.

Example get_file_rejects_archive :
  let url := "http://host/a.tar" in
  let w0 := world_delivering (Some (fun _ _ => "data")) in
  match FileCache.get_file url (mkHeap (validating_cache (fun _ _ => Ok false)) w0) with
  | (r, h1) => r = Raise ValueError /\
               log (world h1) = [Call_download url "cache/a.tar";
                                 Call_validator "cache/a.tar";
                                 Os_remove "cache/a.tar"]
  end.
Proof. vm_compute. repeat split. Qed.

(** The validator raises: the exception leaves [get_file] and nothing is
    removed. *)
Lemma run_validator_raises dest self w g e :
  self !! "validator" = Some (VValidator g) ->
  g (add_event (Call_validator dest) w) dest = Raise e ->
  FileCache.run_validator dest (mkHeap self w)
  = (Raise e, mkHeap self (add_event (Call_validator dest) w)).
Proof.
  intros Hv Hg. unfold FileCache.run_validator.
  unfold bind at 1. unfold getattr, attr. cbn [this]. rewrite Hv.
  unfold bind at 1. unfold in_world at 1. unfold bind at 1. unfold emit, modify.
  cbn [world this]. by rewrite Hg.
Qed.

(** X8: when the validator raises instead of answering (as
    [check_tar_format] does where the [file] utility is missing), the
    exception leaves [get_file], the downloaded file stays at its destination,
    and the next call for the same URL returns it as a cache hit, without a
    download and without validation. *)
Theorem get_file_keeps_file_when_validator_raises
    default_cache_dir url_to_name cache_dir verbose validator handler
    cache_size interval self url cache_name w0 e r h1 :
  FileCache.__init__ default_cache_dir url_to_name cache_dir verbose
                     (Some validator) handler cache_size interval = Ok self ->
  url_to_name url = Ok cache_name ->
  let dest := Path.join (match cache_dir with
                         | Some d => d
                         | None => default_cache_dir
                         end) cache_name in
  (forall w, file_command w = file_command w0 -> validator w dest = Raise e) ->
  FileCache.get_file url (mkHeap self w0) = (r, h1) ->
  validations (events_since w0 (world h1)) <> [] ->
  r = Raise e /\
  is_Some (files (world h1) !! dest) /\
  FileCache.get_file url h1 = (Ok dest, h1).
Proof.
  intros Hinit Hcn dest Hraise Hrun Hvalidated.
  destruct (init_lookups _ _ _ _ _ _ _ _ _ Hinit)
    as (Hname & Hdir & Hverbose & Hcleaner & Hval & _).
  pose proof (get_file_outcomes url self w0 _ _ _ _ Hname Hdir Hverbose
                Hcleaner Hcn) as Hout.
  fold dest in Hout. rewrite Hrun in Hout.
  inversion Hout as [e'|w1 Hhit|e' w2 pre Hdest Hlog Hpre
                    |w2 pre stream t r' w1 Hmiss Hne Hnofile Hremote Hcomplete
                       Hdest Honly Hdirs Hcmd2 Hlog Hpre Hr]; subst.
  - exfalso. apply Hvalidated. cbn. by rewrite events_since_refl.
  - exfalso. apply Hvalidated. cbn.
    by rewrite (events_since_app w0 _ []) by (by rewrite app_nil_r).
  - exfalso. apply Hvalidated. cbn.
    rewrite (events_since_app w0 w2 _ Hlog). by rewrite validations_pre.
  - rewrite (run_validator_raises dest self w2 validator e Hval) in Hr
      by (by apply Hraise).
    injection Hr as -> ->. cbn [world this].
    split; [done|]. split; [cbn; by rewrite Hdest|].
    apply (get_file_hit url self _ url_to_name _ verbose cache_name); try done.
    + intros q Hq. cbn. apply Honly; [|by apply Hnofile].
      intros Heq. rewrite Heq in Hq.
      pose proof (exists_at_ancestor w0 _ _ Hq) as Habs.
      unfold w1 in Hmiss. rewrite Habs in Hmiss. done.
    + intros q Hq. cbn [dirs add_event]. rewrite Hdirs. unfold w1.
      cbn [dirs set_dirs]. apply elem_of_union. right.
      by apply elem_of_list_to_set.
    + fold dest. unfold exists_at. cbn [files add_event]. rewrite Hdest.
      rewrite bool_decide_eq_true_2; [done | by eexists].
Qed.

Lemma get_file_keeps_file_when_validator_raises_witness :
  let url := "http://host/a.tar" in
  let w0 := world_delivering None in
  let self := validating_cache check_tar_format in
  let r := fst (FileCache.get_file url (mkHeap self w0)) in
  let h1 := snd (FileCache.get_file url (mkHeap self w0)) in
  r = Raise AssertionError /\
  is_Some (files (world h1) !! "cache/a.tar") /\
  FileCache.get_file url h1 = (Ok "cache/a.tar", h1).
Proof.
  cbn zeta.
  apply (get_file_keeps_file_when_validator_raises "./_cache" last_segment
           (Some "cache") false check_tar_format reraise_exception (-1) (Some 30)
           (validating_cache check_tar_format) "http://host/a.tar" "a.tar"
           (world_delivering None) AssertionError).
  - vm_compute. reflexivity.
  - vm_compute. reflexivity.
  - intros w Hcmd. unfold check_tar_format, get_filetype. by rewrite Hcmd.
  - apply surjective_pairing.
  - by vm_compute.
Defined.

Example get_file_serves_unvalidated_file :
  let url := "http://host/a.tar" in
  let h0 := mkHeap (validating_cache check_tar_format) (world_delivering None) in
  match FileCache.get_file url h0 with
  | (r1, h1) =>
      r1 = Raise AssertionError /\
      match FileCache.get_file url h1 with
      | (r2, h2) => r2 = Ok "cache/a.tar"
                    /\ validations (log (world h2)) = ["cache/a.tar"]
      end
  end.
Proof. vm_compute. repeat split. Qed.

(** ** More on the naming functions *)

(** [str.split] returns at least one field. *)
Lemma split_length (sep : ascii) (s : string) : (1 <= length (Py.split sep s))%nat.
Proof.
  induction s as [|c s IH]; cbn [Py.split]; [cbn; lia|].
  destruct (Ascii.eqb c sep); [cbn; lia|].
  destruct (Py.split sep s); cbn in *; lia.
Qed.

(** Python's indexing: defined exactly for [-len(l) <= i < len(l)]. *)
Lemma index_defined {A} (l : list A) (i : Z) :
  - Z.of_nat (length l) <= i < Z.of_nat (length l) ->
  exists x, Py.index l i = Ok x.
Proof.
  intros Hi. unfold Py.index. cbn zeta.
  set (n := Z.of_nat (length l)) in *.
  set (j := if i <? 0 then i + n else i).
  assert (0 <= j < n) as Hj.
  { unfold j. destruct (Z.ltb_spec i 0); lia. }
  destruct (Z.ltb_spec j 0); [lia|]. destruct (Z.leb_spec n j); [lia|].
  cbn [orb]. destruct (l !! Z.to_nat j) as [x|] eqn:Hx; [by exists x|].
  apply lookup_ge_None in Hx. unfold n in Hj. lia.
Qed.

Lemma index_undefined {A} (l : list A) (i : Z) :
  ~ (- Z.of_nat (length l) <= i < Z.of_nat (length l)) ->
  Py.index l i = Raise IndexError.
Proof.
  intros Hi. unfold Py.index. cbn zeta.
  set (n := Z.of_nat (length l)) in *.
  destruct (Z.ltb_spec i 0).
  - destruct (Z.ltb_spec (i + n) 0); [done|].
    destruct (Z.leb_spec n (i + n)); [done|]. lia.
  - destruct (Z.ltb_spec i 0); [lia|].
    destruct (Z.leb_spec n i); [done|]. lia.
Qed.

(** X9: for a URL with an allow-listed scheme, [url_to_cache_name] returns a
    name exactly when [-n <= ndir < n], where [n >= 1] is the number of fields
    of the path split at ["/"]; outside this range it raises [IndexError].
    With the default [ndir = 0] it therefore always returns a name. *)
Theorem url_to_cache_name_index_range urlparse url ndir :
  Some (scheme (urlparse url)) ∈ cache_name_schemes ->
  let n := Z.of_nat (length (Py.split "/" (path (urlparse url)))) in
  1 <= n /\
  (- n <= ndir < n -> exists name, url_to_cache_name urlparse url ndir = Ok name) /\
  (~ (- n <= ndir < n) -> url_to_cache_name urlparse url ndir = Raise IndexError) /\
  exists name, url_to_cache_name urlparse url 0 = Ok name.
Proof.
  intros Hin n.
  pose proof (split_length "/" (path (urlparse url))) as Hlen.
  assert (forall k, - n <= k < n ->
                    exists name, url_to_cache_name urlparse url k = Ok name) as Hok.
  { intros k Hk. rewrite url_to_cache_name_allowed by done.
    destruct (index_defined (Py.split "/" (path (urlparse url))) (-1 - k))
      as [segment Hseg]; [unfold n in Hk; lia|].
    rewrite Hseg. cbn [rbind]. by eexists. }
  split; [unfold n; lia|]. split; [apply Hok|]. split.
  - intros Hout. rewrite url_to_cache_name_allowed by done.
    rewrite index_undefined; [done|]. unfold n in Hout. lia.
  - apply Hok. unfold n. lia.
Qed.

Lemma url_to_cache_name_index_range_witness :
  let url := "http://host.org/data/shard-0.tar" in
  let n := Z.of_nat (length (Py.split "/" (path (UrlParse.urlparse url)))) in
  1 <= n /\
  (- n <= 2 < n -> exists name, url_to_cache_name UrlParse.urlparse url 2 = Ok name) /\
  (~ (- n <= 2 < n) -> url_to_cache_name UrlParse.urlparse url 2 = Raise IndexError) /\
  exists name, url_to_cache_name UrlParse.urlparse url 0 = Ok name.
Proof.
  cbn zeta.
  apply (url_to_cache_name_index_range UrlParse.urlparse
           "http://host.org/data/shard-0.tar" 2).
  apply (bool_decide_unpack _). by vm_compute.
Defined.

Example url_to_cache_name_negative_ndir :
  url_to_cache_name UrlParse.urlparse "http://host.org/data/shard-0.tar" (-2)
  = Ok "d/a/t/a" /\
  url_to_cache_name UrlParse.urlparse "http://host.org/data/shard-0.tar" 3
  = Raise IndexError /\
  url_to_cache_name UrlParse.urlparse "http://host.org/data/" 0 = Ok "".
Proof. vm_compute. repeat split. Qed.

(** A word that starts with a recognised scheme does not start with
    ["pipe:"]. *)
Lemma url_word_not_pipe (word : string) :
  matches_url_scheme word = true -> Py.startswith "pipe:" word = false.
Proof.
  destruct word as [|c word]; [done|].
  unfold Py.startswith. cbn [String.prefix].
  destruct (Ascii.ascii_dec "p" c) as [<-|]; [|done].
  intros Hm. by vm_compute in Hm.
Qed.

Lemma find_first {A} (f : A -> bool) (pre : list A) (x : A) (post : list A) :
  Forall (fun y => f y = false) pre -> f x = true ->
  List.find f (pre ++ x :: post) = Some x.
Proof.
  induction 1 as [|y pre Hy _ IH]; intros Hx; cbn; [by rewrite Hx|].
  rewrite Hy. by apply IH.
Qed.

(** X10: when the specification starts with ["pipe:"] and a word of the
    remainder starts with a recognised scheme, [pipe_cleaner] returns the
    first such word, whatever follows it; the word is returned unchanged
    when it is cleaned again. *)
Theorem pipe_cleaner_first_url (spec : string) (pre : list string) (word : string)
    (post : list string) :
  Py.startswith "pipe:" spec = true ->
  Py.split " " (Py.drop 5 spec) = pre ++ word :: post ->
  Forall (fun w => matches_url_scheme w = false) pre ->
  matches_url_scheme word = true ->
  pipe_cleaner spec = word /\ pipe_cleaner (pipe_cleaner spec) = word.
Proof.
  intros Hpipe Hwords Hpre Hword.
  assert (pipe_cleaner spec = word) as ->.
  { unfold pipe_cleaner. rewrite Hpipe. cbn zeta. rewrite Hwords.
    by rewrite find_first. }
  split; [done|]. unfold pipe_cleaner. by rewrite url_word_not_pipe.
Qed.

Lemma pipe_cleaner_first_url_witness :
  let spec := "pipe:curl -s http://host/a.tar -o s3://bucket/b.tar" in
  pipe_cleaner spec = "http://host/a.tar" /\
  pipe_cleaner (pipe_cleaner spec) = "http://host/a.tar".
Proof.
  cbn zeta.
  apply (pipe_cleaner_first_url "pipe:curl -s http://host/a.tar -o s3://bucket/b.tar"
           ["curl"; "-s"] "http://host/a.tar" ["-o"; "s3://bucket/b.tar"]).
  - by vm_compute.
  - by vm_compute.
  - repeat constructor.
  - by vm_compute.
Defined.

(** Cleaning twice is not the same as cleaning once when no word is a URL:
    each call strips one ["pipe:"]. *)
Example pipe_cleaner_nested_prefix :
  pipe_cleaner "pipe:pipe:cat x.tar" = "pipe:cat x.tar" /\
  pipe_cleaner (pipe_cleaner "pipe:pipe:cat x.tar") = "cat x.tar".
Proof. vm_compute. repeat split. Qed.

(** ** StreamingOpen *)

(** [open_file] leaves the state alone. *)
Lemma streaming_open_file_run urlparse url h :
  StreamingOpen.open_file urlparse url h
  = (fst (StreamingOpen.open_file urlparse url h), h).
Proof.
  unfold StreamingOpen.open_file.
  destruct (bool_decide (scheme (urlparse url) ∈ [""; "file"])).
  - unfold bind, in_world, open_rb. destruct h as [self w]. cbn [world this].
    by destruct (files w !! path (urlparse url)).
  - unfold bind, in_world, gopen. destruct h as [self w]. cbn [world this].
    by destruct (remote w url).
Qed.

(** What it returns depends on the files, the directories and the
    transport only. *)
Lemma streaming_open_file_env urlparse url h h' :
  files (world h') = files (world h) ->
  dirs (world h') = dirs (world h) ->
  remote (world h') = remote (world h) ->
  fst (StreamingOpen.open_file urlparse url h')
  = fst (StreamingOpen.open_file urlparse url h).
Proof.
  intros Hf Hd Hr. unfold StreamingOpen.open_file.
  destruct (bool_decide (scheme (urlparse url) ∈ [""; "file"])).
  - unfold bind, in_world, open_rb. rewrite Hf, Hd.
    by destruct (files (world h) !! path (urlparse url)).
  - unfold bind, in_world, gopen. rewrite Hr.
    by destruct (remote (world h) url).
Qed.

(** The state after a call of the handler. *)
Lemma call_handler_state e h :
  let h' := snd (call_handler e h) in
  this h' = this h /\ files (world h') = files (world h) /\
  dirs (world h') = dirs (world h) /\ remote (world h') = remote (world h) /\
  (log (world h') = log (world h) \/
   (log (world h') = log (world h) ++ [Call_handler e] /\
    exists f, this h !! "handler" = Some (VHandler f) /\
              fst (call_handler e h) = f e)).
Proof.
  cbn zeta. unfold call_handler, bind, getattr, attr.
  destruct (this h !! "handler") as [v|] eqn:Hv; cbn [fst snd];
    [|repeat split; by left].
  destruct v; cbn; try (repeat split; by left).
  repeat split. right. split; [done|]. by eexists.
Qed.

Lemma handled_app l1 l2 : handled (l1 ++ l2) = handled l1 ++ handled l2.
Proof. unfold handled. apply omap_app. Qed.

Lemma events_since_trans w1 w2 w3 evs1 evs2 :
  log w2 = log w1 ++ evs1 -> log w3 = log w2 ++ evs2 ->
  events_since w1 w3 = evs1 ++ evs2.
Proof.
  intros H1 H2. apply events_since_app. by rewrite H2, H1, app_assoc.
Qed.

Lemma omap_cons_match {A B} (f : A -> option B) (x : A) (l : list A) :
  omap f (x :: l) = match f x with Some y => y :: omap f l | None => omap f l end.
Proof. reflexivity. Qed.

Lemma omap_ext_all {A B} (f g : A -> option B) (l : list A) :
  (forall x, f x = g x) -> omap f l = omap g l.
Proof.
  intros Hfg. induction l as [|x l IH]; [done|].
  by rewrite !omap_cons_match, Hfg, IH.
Qed.

Lemma opened_at_Ok urlparse h url s :
  fst (StreamingOpen.open_file urlparse url h) = Ok s ->
  opened_at urlparse h url = Some (url, s) /\ failure_at urlparse h url = None.
Proof. intros Hopen. unfold opened_at, failure_at. by rewrite Hopen. Qed.

Lemma opened_at_Raise urlparse h url e :
  fst (StreamingOpen.open_file urlparse url h) = Raise e ->
  opened_at urlparse h url = None /\ failure_at urlparse h url = Some e.
Proof. intros Hopen. unfold opened_at, failure_at. by rewrite Hopen. Qed.

(** The invariant of the generator: the attributes, the files, the
    directories and the transport stay as they are; the URLs it got to form
    a prefix of the requests; each of them was yielded, or handed to the
    handler, never both; and the log grew by the calls of the handler. *)
Lemma streaming_call_inv urlparse urls : forall h,
  let '(items, r, h') := StreamingOpen.__call__ urlparse urls h in
  this h' = this h /\ files (world h') = files (world h) /\
  dirs (world h') = dirs (world h) /\ remote (world h') = remote (world h) /\
  exists tried evs,
    Forall2 (fun req u => request_url req = Ok u) (take (length tried) urls) tried /\
    (length tried <= length urls)%nat /\
    items = omap (opened_at urlparse h) tried /\
    log (world h') = log (world h) ++ evs /\
    (forall ev, ev ∈ evs -> exists e, ev = Call_handler e) /\
    (length (handled evs) <= length (omap (failure_at urlparse h) tried))%nat /\
    (forall f, this h !! "handler" = Some (VHandler f) ->
               handled evs = omap (failure_at urlparse h) tried).
Proof.
  induction urls as [|req rest IH]; intros h; cbn [StreamingOpen.__call__].
  { repeat split. exists [], []. rewrite app_nil_r. repeat split; try done.
    intros ev Hev. by apply elem_of_nil in Hev. }
  destruct (request_url req) as [url|e] eqn:Hreq.
  2:{ repeat split. exists [], []. rewrite app_nil_r. repeat split; try done.
      - cbn. lia.
      - intros ev Hev. by apply elem_of_nil in Hev. }
  unfold bind at 1. unfold StreamingOpen.get_file at 1, ret at 1.
  rewrite streaming_open_file_run.
  destruct (fst (StreamingOpen.open_file urlparse url h)) as [s|e] eqn:Hopen.
  - apply opened_at_Ok in Hopen as [Hop Hfail]. specialize (IH h).
    destruct (StreamingOpen.__call__ urlparse rest h) as [[items r] h2].
    destruct IH as (Ht & Hf & Hd & Hr & tried & evs & Htried & Hlen & Hitems
                    & Hlog & Hevs & Hcount & Hhandled).
    repeat split; try done.
    exists (url :: tried), evs. rewrite !omap_cons_match, Hop, Hfail.
    repeat split; try done.
    + cbn [length take]. by constructor.
    + cbn [length]. lia.
    + by rewrite Hitems.
  - apply opened_at_Raise in Hopen as [Hop Hfail].
    pose proof (call_handler_state e h) as (Ht1 & Hf1 & Hd1 & Hr1 & Hl1).
    cbn zeta in *.
    assert (forall u, opened_at urlparse (snd (call_handler e h)) u
                      = opened_at urlparse h u) as Hsame.
    { intros u. unfold opened_at. by rewrite (streaming_open_file_env _ u h). }
    assert (forall u, failure_at urlparse (snd (call_handler e h)) u
                      = failure_at urlparse h u) as Hsame'.
    { intros u. unfold failure_at. by rewrite (streaming_open_file_env _ u h). }
    assert (exists ev1, log (world (snd (call_handler e h))) = log (world h) ++ ev1
                        /\ (forall ev, ev ∈ ev1 -> exists e', ev = Call_handler e')
                        /\ (length (handled ev1) <= 1)%nat
                        /\ (forall f, this h !! "handler" = Some (VHandler f) ->
                                      handled ev1 = [e]))
      as (ev1 & Hlog1 & Hev1 & Hc1 & Hh1).
    { destruct Hl1 as [Hl1|[Hl1 (f & Hf' & _)]].
      - exists []. rewrite app_nil_r. repeat split; try done.
        + intros ev Hev. by apply elem_of_nil in Hev.
        + cbn. lia.
        + intros f Hf'. exfalso. revert Hl1.
          unfold call_handler, bind, getattr, attr. rewrite Hf'. cbn.
          intros Habs. apply (f_equal length) in Habs.
          rewrite length_app in Habs. cbn in Habs. lia.
      - exists [Call_handler e]. repeat split; try done.
        intros ev Hev%list_elem_of_singleton. by eexists. }
    destruct (call_handler e h) as [[[|]|e'] h1] eqn:Hcall; cbn [snd] in *.
    + specialize (IH h1).
      destruct (StreamingOpen.__call__ urlparse rest h1) as [[items r] h2].
      destruct IH as (Ht & Hf & Hd & Hr & tried & evs & Htried & Hlen & Hitems
                      & Hlog & Hevs & Hcount & Hhandled).
      repeat split; try congruence.
      exists (url :: tried), (ev1 ++ evs).
      rewrite !omap_cons_match, Hop, Hfail.
      rewrite (omap_ext_all _ (opened_at urlparse h) tried Hsame) in Hitems.
      repeat split; try done.
      * cbn [length take]. by constructor.
      * cbn [length]. lia.
      * by rewrite Hlog, Hlog1, app_assoc.
      * intros ev [Hev|Hev]%elem_of_app; auto.
      * rewrite handled_app, length_app. cbn [length].
        rewrite <- (omap_ext_all _ (failure_at urlparse h) tried Hsame'). lia.
      * intros f Hf'. rewrite handled_app, (Hh1 f Hf').
        rewrite (Hhandled f) by congruence. cbn [app]. f_equal.
        by apply omap_ext_all.
    + repeat split; try done.
      exists [url], ev1. rewrite !omap_cons_match, Hop, Hfail.
      repeat split; try done.
      * cbn [length take]. by repeat constructor.
      * cbn [length]. lia.
    + repeat split; try done.
      exists [url], ev1. rewrite !omap_cons_match, Hop, Hfail.
      repeat split; try done.
      * cbn [length take]. by repeat constructor.
      * cbn [length]. lia.
Qed.

(** X11: whatever the handler does, [StreamingOpen.__call__] changes no file
    and no directory, the URLs it yields are a sublist of the URLs it was
    given, in their order, and the items yielded and the calls of the handler
    together are at most as many as the requests. *)
Theorem streaming_open_each_url_at_most_once urlparse urls us h :
  Forall2 (fun req u => request_url req = Ok u) urls us ->
  let '(items, r, h') := StreamingOpen.__call__ urlparse urls h in
  files (world h') = files (world h) /\ dirs (world h') = dirs (world h) /\
  items.*1 `sublist_of` us /\
  (length items + length (handled (events_since (world h) (world h')))
   <= length us)%nat.
Proof.
  intros Hus. pose proof (streaming_call_inv urlparse urls h) as Hinv.
  destruct (StreamingOpen.__call__ urlparse urls h) as [[items r] h'].
  destruct Hinv as (_ & Hf & Hd & _ & tried & evs & Htried & Hlen & Hitems
                    & Hlog & _ & Hcount & _).
  split; [done|]. split; [done|].
  assert (tried = take (length tried) us) as Hprefix.
  { apply Forall2_take with (n := length tried) in Hus.
    clear -Hus Htried. revert Hus Htried.
    generalize (take (length tried) urls) (take (length tried) us).
    intros l1 l2 H1. revert tried. induction H1 as [|req u l1 l2 Hreq _ IH];
      intros tried H2; inversion H2; subst; [done|].
    f_equal; [congruence | by apply IH]. }
  assert (forall l, (omap (opened_at urlparse h) l).*1 `sublist_of` l
                    /\ (length (omap (opened_at urlparse h) l)
                        + length (omap (failure_at urlparse h) l) <= length l)%nat)
    as Hboth.
  { induction l as [|u l [IH1 IH2]]; [by split|].
    rewrite !omap_cons_match.
    destruct (fst (StreamingOpen.open_file urlparse u h)) as [s|e] eqn:Hopen.
    - apply opened_at_Ok in Hopen as [-> ->]. rewrite fmap_cons.
      split; [by apply sublist_skip | cbn [length]; lia].
    - apply opened_at_Raise in Hopen as [-> ->].
      split; [by apply sublist_cons | cbn [length]; lia]. }
  destruct (Hboth tried) as [Hsub Hnum]. rewrite Hitems.
  split.
  - etrans; [exact Hsub|]. rewrite Hprefix. apply sublist_take.
  - rewrite (events_since_app _ _ evs Hlog).
    apply Forall2_length in Hus. lia.
Qed.

Lemma streaming_open_each_url_at_most_once_witness :
  let h := mkHeap (StreamingOpen.__init__ false reraise_exception) streaming_world in
  let us := ["data/a.tar"; "http://host/missing.tar"; "http://host/b.tar"] in
  let urls := [Url "data/a.tar"; Url "http://host/missing.tar";
               Url "http://host/b.tar"] in
  let '(items, r, h') := StreamingOpen.__call__ UrlParse.urlparse urls h in
  files (world h') = files (world h) /\ dirs (world h') = dirs (world h) /\
  items.*1 `sublist_of` us /\
  (length items + length (handled (events_since (world h) (world h')))
   <= length us)%nat.
Proof.
  cbn zeta.
  apply (streaming_open_each_url_at_most_once UrlParse.urlparse
           [Url "data/a.tar"; Url "http://host/missing.tar"; Url "http://host/b.tar"]
           ["data/a.tar"; "http://host/missing.tar"; "http://host/b.tar"]
           (mkHeap (StreamingOpen.__init__ false reraise_exception) streaming_world)).
  repeat constructor.
Defined.

(** With the default handler the first failure leaves the generator as an
    exception, after the items before it. *)
Example streaming_open_default_handler :
  let h := mkHeap (StreamingOpen.__init__ false reraise_exception) streaming_world in
  match StreamingOpen.__call__ UrlParse.urlparse
          [Url "data/a.tar"; Url "http://host/missing.tar"; Url "http://host/b.tar"]
          h with
  | (items, r, h') =>
      items.*1 = ["data/a.tar"] /\ r = Raise (TransportError 404)
  end.
Proof. vm_compute. repeat split. Qed.

Lemma call_handler_run e h f :
  this h !! "handler" = Some (VHandler f) ->
  call_handler e h
  = (f e, mkHeap (this h) (add_event (Call_handler e) (world h))).
Proof.
  intros Hf. unfold call_handler, bind, getattr, attr. rewrite Hf.
  by destruct h.
Qed.

Lemma opened_at_after_handler urlparse e h u :
  let h1 := mkHeap (this h) (add_event (Call_handler e) (world h)) in
  opened_at urlparse h1 u = opened_at urlparse h u /\
  failure_at urlparse h1 u = failure_at urlparse h u.
Proof.
  cbn zeta. unfold opened_at, failure_at.
  by rewrite (streaming_open_file_env urlparse u h).
Qed.

(** With a handler that always answers [True]: every request is tried. *)
Lemma streaming_call_continue urlparse f urls us :
  (forall e, f e = Ok true) ->
  Forall2 (fun req u => request_url req = Ok u) urls us ->
  forall h, this h !! "handler" = Some (VHandler f) ->
  let '(items, r, h') := StreamingOpen.__call__ urlparse urls h in
  r = Ok tt /\ items = omap (opened_at urlparse h) us /\
  exists evs, log (world h') = log (world h) ++ evs /\
              handled evs = omap (failure_at urlparse h) us.
Proof.
  intros Htrue. induction 1 as [|req u urls us Hreq _ IH]; intros h Hf;
    cbn [StreamingOpen.__call__].
  { repeat split. exists []. by rewrite app_nil_r. }
  rewrite Hreq. unfold bind at 1. unfold StreamingOpen.get_file at 1, ret at 1.
  rewrite streaming_open_file_run, !omap_cons_match.
  destruct (fst (StreamingOpen.open_file urlparse u h)) as [s|e] eqn:Hopen.
  - apply opened_at_Ok in Hopen as [-> ->]. specialize (IH h Hf).
    destruct (StreamingOpen.__call__ urlparse urls h) as [[items r] h2].
    destruct IH as (-> & -> & evs & Hlog & Hh). repeat split. by exists evs.
  - apply opened_at_Raise in Hopen as [-> ->].
    rewrite (call_handler_run e h f Hf), Htrue.
    set (h1 := mkHeap (this h) (add_event (Call_handler e) (world h))).
    specialize (IH h1 Hf).
    destruct (StreamingOpen.__call__ urlparse urls h1) as [[items r] h2].
    destruct IH as (-> & -> & evs & Hlog & Hh). repeat split.
    + apply omap_ext_all. intros x. apply (opened_at_after_handler urlparse e h x).
    + exists (Call_handler e :: evs). split.
      * rewrite Hlog. cbn. by rewrite <- app_assoc.
      * change (handled (Call_handler e :: evs)) with (e :: handled evs).
        rewrite Hh. f_equal. apply omap_ext_all. intros x.
        apply (opened_at_after_handler urlparse e h x).
Qed.

(** X12: with a handler that always answers [True], [StreamingOpen.__call__]
    yields exactly the URLs that can be opened, each once and in the order of
    the requests, hands every failure to the handler, in order, and ends
    normally. *)
Theorem streaming_open_skips_failures urlparse urls us h f :
  this h !! "handler" = Some (VHandler f) ->
  (forall e, f e = Ok true) ->
  Forall2 (fun req u => request_url req = Ok u) urls us ->
  let '(items, r, h') := StreamingOpen.__call__ urlparse urls h in
  r = Ok tt /\
  items = omap (opened_at urlparse h) us /\
  handled (events_since (world h) (world h')) = omap (failure_at urlparse h) us.
Proof.
  intros Hf Htrue Hus.
  pose proof (streaming_call_continue urlparse f urls us Htrue Hus h Hf) as Hrun.
  destruct (StreamingOpen.__call__ urlparse urls h) as [[items r] h'].
  destruct Hrun as (-> & -> & evs & Hlog & Hh).
  by rewrite (events_since_app _ _ evs Hlog).
Qed.

Lemma streaming_open_skips_failures_witness :
  let h := mkHeap (StreamingOpen.__init__ false (fun _ => Ok true)) streaming_world in
  let us := ["data/a.tar"; "http://host/missing.tar"; "http://host/b.tar"] in
  let urls := [Url "data/a.tar";
               Sample {[ "url" := "http://host/missing.tar" ]};
               Url "http://host/b.tar"] in
  let '(items, r, h') := StreamingOpen.__call__ UrlParse.urlparse urls h in
  r = Ok tt /\
  items = omap (opened_at UrlParse.urlparse h) us /\
  handled (events_since (world h) (world h'))
  = omap (failure_at UrlParse.urlparse h) us.
Proof.
  cbn zeta.
  apply (streaming_open_skips_failures UrlParse.urlparse
           [Url "data/a.tar";
            Sample {[ "url" := "http://host/missing.tar" ]};
            Url "http://host/b.tar"]
           ["data/a.tar"; "http://host/missing.tar"; "http://host/b.tar"]
           (mkHeap (StreamingOpen.__init__ false (fun _ => Ok true)) streaming_world)
           (fun _ => Ok true)).
  - vm_compute. reflexivity.
  - done.
  - repeat constructor.
Defined.

Example streaming_open_mixed_requests :
  let h := mkHeap (StreamingOpen.__init__ false (fun _ => Ok true)) streaming_world in
  match StreamingOpen.__call__ UrlParse.urlparse
          [Url "data/a.tar";
           Sample {[ "url" := "http://host/missing.tar" ]};
           Url "http://host/b.tar"] h with
  | (items, r, h') =>
      items = [("data/a.tar", StreamingOpen.Local (mkStream "data/a.tar" [x01; x02]));
               ("http://host/b.tar", StreamingOpen.Remote [Chunk [x03]])] /\
      r = Ok tt /\
      handled (log (world h')) = [TransportError 404]
  end.
Proof. vm_compute. repeat split. Qed.

(** With a handler that always answers [False]: the generator ends at the
    first URL that cannot be opened. *)
Lemma streaming_call_break urlparse f urls us :
  (forall e, f e = Ok false) ->
  Forall2 (fun req u => request_url req = Ok u) urls us ->
  forall h, this h !! "handler" = Some (VHandler f) ->
  let '(items, r, h') := StreamingOpen.__call__ urlparse urls h in
  r = Ok tt /\
  exists pre post evs,
    us = pre ++ post /\
    items = omap (opened_at urlparse h) pre /\
    Forall (fun u => failure_at urlparse h u = None) pre /\
    log (world h') = log (world h) ++ evs /\
    match post with
    | [] => handled evs = []
    | u :: _ => exists e, failure_at urlparse h u = Some e /\ handled evs = [e]
    end.
Proof.
  intros Hfalse. induction 1 as [|req u urls us Hreq _ IH]; intros h Hf;
    cbn [StreamingOpen.__call__].
  { split; [done|]. exists [], [], [].
    repeat split; first [done | by constructor | by rewrite app_nil_r]. }
  rewrite Hreq. unfold bind at 1. unfold StreamingOpen.get_file at 1, ret at 1.
  rewrite streaming_open_file_run.
  destruct (fst (StreamingOpen.open_file urlparse u h)) as [s|e] eqn:Hopen.
  - apply opened_at_Ok in Hopen as [Hop Hfail]. specialize (IH h Hf).
    destruct (StreamingOpen.__call__ urlparse urls h) as [[items r] h2].
    destruct IH as (-> & pre & post & evs & -> & -> & Hpre & Hlog & Hpost).
    split; [done|]. exists (u :: pre), post, evs.
    rewrite omap_cons_match, Hop. repeat split; try done. by constructor.
  - apply opened_at_Raise in Hopen as [Hop Hfail].
    rewrite (call_handler_run e h f Hf), Hfalse.
    split; [done|]. exists [], (u :: us), [Call_handler e].
    repeat split; try done. by exists e.
Qed.

(** X13: with a handler that always answers [False], [StreamingOpen.__call__]
    yields the URLs up to the first one that cannot be opened, calls the
    handler once for that one, and ends normally without touching the URLs
    after it; when every URL can be opened the handler is not called. *)
Theorem streaming_open_stops_at_first_failure urlparse urls us h f :
  this h !! "handler" = Some (VHandler f) ->
  (forall e, f e = Ok false) ->
  Forall2 (fun req u => request_url req = Ok u) urls us ->
  let '(items, r, h') := StreamingOpen.__call__ urlparse urls h in
  r = Ok tt /\
  exists pre post,
    us = pre ++ post /\
    items = omap (opened_at urlparse h) pre /\
    Forall (fun u => failure_at urlparse h u = None) pre /\
    match post with
    | [] => handled (events_since (world h) (world h')) = []
    | u :: _ => exists e, failure_at urlparse h u = Some e /\
                          handled (events_since (world h) (world h')) = [e]
    end.
Proof.
  intros Hf Hfalse Hus.
  pose proof (streaming_call_break urlparse f urls us Hfalse Hus h Hf) as Hrun.
  destruct (StreamingOpen.__call__ urlparse urls h) as [[items r] h'].
  destruct Hrun as (-> & pre & post & evs & -> & -> & Hpre & Hlog & Hpost).
  split; [done|]. exists pre, post.
  by rewrite (events_since_app _ _ evs Hlog).
Qed.

Lemma streaming_open_stops_at_first_failure_witness :
  let h := mkHeap (StreamingOpen.__init__ false (fun _ => Ok false)) streaming_world in
  let us := ["data/a.tar"; "http://host/missing.tar"; "http://host/b.tar"] in
  let urls := [Url "data/a.tar"; Url "http://host/missing.tar";
               Url "http://host/b.tar"] in
  let '(items, r, h') := StreamingOpen.__call__ UrlParse.urlparse urls h in
  r = Ok tt /\
  exists pre post,
    us = pre ++ post /\
    items = omap (opened_at UrlParse.urlparse h) pre /\
    Forall (fun u => failure_at UrlParse.urlparse h u = None) pre /\
    match post with
    | [] => handled (events_since (world h) (world h')) = []
    | u :: _ => exists e, failure_at UrlParse.urlparse h u = Some e /\
                          handled (events_since (world h) (world h')) = [e]
    end.
Proof.
  cbn zeta.
  apply (streaming_open_stops_at_first_failure UrlParse.urlparse
           [Url "data/a.tar"; Url "http://host/missing.tar"; Url "http://host/b.tar"]
           ["data/a.tar"; "http://host/missing.tar"; "http://host/b.tar"]
           (mkHeap (StreamingOpen.__init__ false (fun _ => Ok false)) streaming_world)
           (fun _ => Ok false)).
  - vm_compute. reflexivity.
  - done.
  - repeat constructor.
Defined.

(** ** FileCache.__call__: how often the handler is called *)

Lemma within_refl n w : handler_calls_within n w w.
Proof. exists []. rewrite app_nil_r. split; [done | cbn; lia]. Qed.

Lemma within_trans n m w1 w2 w3 :
  handler_calls_within n w1 w2 -> handler_calls_within m w2 w3 ->
  handler_calls_within (n + m) w1 w3.
Proof.
  intros (e1 & H1 & N1) (e2 & H2 & N2). exists (e1 ++ e2).
  rewrite H2, H1, app_assoc. split; [done|].
  rewrite handled_app, length_app. lia.
Qed.

Lemma within_weaken n m w w' :
  (n <= m)%nat -> handler_calls_within n w w' -> handler_calls_within m w w'.
Proof. intros Hle (evs & Hlog & Hn). exists evs. split; [done | lia]. Qed.

Lemma silent_trans w1 w2 w3 :
  handler_calls_within 0 w1 w2 -> handler_calls_within 0 w2 w3 ->
  handler_calls_within 0 w1 w3.
Proof. apply (within_trans 0 0). Qed.

Lemma silent_same_log w w' : log w' = log w -> handler_calls_within 0 w w'.
Proof. intros Heq. exists []. rewrite app_nil_r. split; [done | cbn; lia]. Qed.

Lemma silent_emit ev :
  handled [ev] = [] -> respects (handler_calls_within 0) (emit ev).
Proof. intros Hev w. exists [ev]. split; [done|]. rewrite Hev. cbn. lia. Qed.

Lemma silent_os_remove p : respects (handler_calls_within 0) (os_remove p).
Proof.
  intros w. unfold os_remove. destruct (files w !! p); [|apply within_refl].
  exists [Os_remove p]. split; [done | cbn; lia].
Qed.

Lemma silent_os_path_getsize p : respects (handler_calls_within 0) (os_path_getsize p).
Proof.
  intros w. unfold os_path_getsize. destruct (files w !! p); apply within_refl.
Qed.

Ltac silent_bind :=
  apply respects_bind; [apply silent_trans | | intros ?].

Lemma silent_sum_sizes paths : forall total,
  respects (handler_calls_within 0) (sum_sizes paths total).
Proof.
  induction paths as [|p ps IH]; intros total; cbn [sum_sizes].
  - apply respects_ret, within_refl.
  - silent_bind; [apply silent_os_path_getsize | apply IH].
Qed.

Lemma silent_with_keys key paths :
  respects (handler_calls_within 0) (with_keys key paths).
Proof. intros w. rewrite with_keys_state. apply within_refl. Qed.

Lemma silent_delete_loop self stack : forall total,
  respects (handler_calls_within 0) (delete_loop self stack total).
Proof.
  induction stack as [|fname rest IH]; intros total; cbn [delete_loop].
  - apply respects_ret, within_refl.
  - destruct (cache_size self <? total); [|apply respects_ret, within_refl].
    silent_bind; [apply silent_os_path_getsize|].
    silent_bind; [apply respects_when; [apply within_refl | by apply silent_emit]|].
    silent_bind; [apply silent_os_remove | apply IH].
Qed.

Lemma silent_sweep self d : respects (handler_calls_within 0) (sweep self d).
Proof.
  unfold sweep.
  silent_bind; [apply respects_gets, within_refl|].
  silent_bind; [apply silent_sum_sizes|].
  destruct (_ <=? _); [apply respects_ret, within_refl|].
  silent_bind; [apply respects_gets, within_refl|].
  silent_bind; [apply silent_with_keys|].
  silent_bind; [apply silent_delete_loop | apply respects_ret, within_refl].
Qed.

Lemma silent_time_time : respects (handler_calls_within 0) time_time.
Proof. intros w. by apply silent_same_log. Qed.

Lemma silent_cleanup self : respects (handler_calls_within 0) (cleanup self).
Proof.
  unfold cleanup.
  silent_bind; [apply respects_lift_result, within_refl|].
  silent_bind; [apply respects_gets, within_refl|].
  destruct (negb _); [apply respects_ret, within_refl|].
  silent_bind.
  { destruct (interval self); [|apply respects_ret, within_refl].
    silent_bind; [apply silent_time_time | apply respects_ret, within_refl]. }
  match goal with |- respects _ (if ?b then _ else _) => destruct b end;
    [apply respects_ret, within_refl|].
  silent_bind.
  { intros w. unfold except_OSError. pose proof (silent_sweep self a w) as Hs.
    destruct (sweep self a w) as [[c|e] w']; [done|]. by destruct (is_OSError e). }
  match goal with |- respects _ (match ?c with _ => _ end) => destruct c end;
    [apply respects_ret, within_refl|].
  silent_bind; [apply silent_time_time | apply respects_ret, within_refl].
Qed.

Lemma silent_copy_stream temp chunk_size reads :
  respects (handler_calls_within 0) (copy_stream temp chunk_size reads).
Proof.
  induction reads as [|[data|e] rest IH]; cbn [copy_stream].
  - apply respects_ret, within_refl.
  - destruct data; [apply respects_ret, within_refl|].
    silent_bind; [|done].
    intros w. apply silent_same_log. unfold write.
    destruct (files w !! temp); [|done]. by destruct (within_limit _ _).
  - apply respects_raise, within_refl.
Qed.

Lemma silent_download url dest chunk_size verbose :
  respects (handler_calls_within 0) (download url dest chunk_size verbose).
Proof.
  unfold download, gopen.
  silent_bind; [by apply silent_emit|].
  silent_bind; [apply respects_gets, within_refl|].
  silent_bind; [apply respects_read, within_refl|].
  silent_bind.
  { intros w. apply silent_same_log. unfold open_wb.
    destruct (String.eqb _ ""); [done|]. destruct (bool_decide _); [done|].
    by destruct (parent_exists w _). }
  silent_bind; [apply silent_copy_stream|].
  intros w. apply silent_same_log. unfold os_rename.
  destruct (files w !! _); [|done]. by destruct (bool_decide _).
Qed.

Lemma calls_within_refl n h : calls_within n h h.
Proof. apply within_refl. Qed.

Lemma calls_silent_trans h1 h2 h3 :
  calls_within 0 h1 h2 -> calls_within 0 h2 h3 -> calls_within 0 h1 h3.
Proof. apply silent_trans. Qed.

Lemma silent_in_world {A} (m : M World A) :
  respects (handler_calls_within 0) m -> respects (calls_within 0) (in_world m).
Proof.
  intros Hm h. unfold in_world, calls_within. specialize (Hm (world h)).
  by destruct (m (world h)) as [r w'].
Qed.

Lemma silent_getattr name : respects (calls_within 0) (getattr name).
Proof. intros h. apply calls_within_refl. Qed.

Lemma silent_setattr name v : respects (calls_within 0) (setattr name v).
Proof. intros h. unfold calls_within. cbn. apply within_refl. Qed.

Ltac silent_steps :=
  repeat first
    [ apply silent_getattr
    | apply silent_setattr
    | apply respects_ret; apply calls_within_refl
    | apply respects_raise; apply calls_within_refl
    | apply respects_lift_result; apply calls_within_refl
    | apply respects_when; [apply calls_within_refl|]
    | apply respects_bind; [apply calls_silent_trans | | intros ?]
    | apply silent_in_world
    | match goal with
      | |- respects _ (match ?x with _ => _ end) => destruct x
      end ].

Lemma silent_run_cleaner : respects (calls_within 0) FileCache.run_cleaner.
Proof.
  unfold FileCache.run_cleaner. silent_steps.
  silent_bind; [by apply silent_emit | apply silent_cleanup].
Qed.

Lemma silent_run_validator dest : respects (calls_within 0) (FileCache.run_validator dest).
Proof.
  unfold FileCache.run_validator. silent_steps.
  - silent_bind; [by apply silent_emit | apply respects_read, within_refl].
  - apply respects_read, within_refl.
  - silent_bind; [|apply respects_ret, within_refl].
    intros w. apply silent_same_log. unfold open_rb. by destruct (files w !! dest).
  - apply silent_os_remove.
Qed.

(** [get_file] never calls the handler. *)
Lemma silent_get_file url : respects (calls_within 0) (FileCache.get_file url).
Proof.
  unfold FileCache.get_file, FileCache.call_url_to_name, FileCache.getattr_str,
    FileCache.getattr_bool.
  repeat first
    [ apply silent_run_cleaner
    | apply silent_run_validator
    | apply silent_getattr
    | apply respects_ret; apply calls_within_refl
    | apply respects_raise; apply calls_within_refl
    | apply respects_lift_result; apply calls_within_refl
    | apply respects_when; [apply calls_within_refl|]
    | apply respects_bind; [apply calls_silent_trans | | intros ?]
    | apply silent_in_world
    | match goal with
      | |- respects _ (match ?x with _ => _ end) => destruct x
      end ].
  all: first
    [ apply silent_download
    | by apply silent_emit
    | apply respects_gets, within_refl
    | intros w; apply silent_same_log; unfold os_makedirs;
      destruct (String.eqb _ ""); [done|]; by destruct (existsb _ _) ].
Qed.

Lemma silent_open_file urlparse url :
  respects (calls_within 0) (FileCache.open_file urlparse url).
Proof.
  unfold FileCache.open_file.
  destruct (bool_decide _).
  - apply respects_bind; [apply calls_silent_trans | apply silent_setattr | intros _].
    apply silent_in_world. intros w. apply silent_same_log. unfold open_rb.
    by destruct (files w !! _).
  - apply respects_bind; [apply calls_silent_trans | apply silent_get_file | intros p].
    apply respects_bind; [apply calls_silent_trans | apply silent_setattr | intros _].
    unfold FileCache.getattr_str. silent_steps.
    intros w. apply silent_same_log. unfold open_rb. by destruct (files w !! _).
Qed.

(** The body of the [try] block never calls the handler. *)
Lemma silent_try_body urlparse url :
  respects (calls_within 0) (FileCache.try_body urlparse url).
Proof.
  unfold FileCache.try_body.
  apply respects_bind; [apply calls_silent_trans | apply silent_get_file | intros p].
  apply respects_bind; [apply calls_silent_trans | | intros s].
  - unfold FileCache.call_open_file. apply respects_raise, calls_within_refl.
  - apply respects_bind; [apply calls_silent_trans | apply silent_getattr | intros v].
    apply respects_ret, calls_within_refl.
Qed.

(** One call of the handler. *)
Lemma call_handler_within e h : calls_within 1 h (snd (call_handler e h)).
Proof.
  pose proof (call_handler_state e h) as (_ & _ & _ & _ & Hlog). cbn zeta in Hlog.
  destruct Hlog as [Hlog|[Hlog _]].
  - apply (within_weaken 0); [lia | by apply silent_same_log].
  - exists [Call_handler e]. split; [done | cbn; lia].
Qed.

(** The retry loop: at most one call of the handler for each attempt. *)
Lemma retry_loop_within body n url :
  (forall u, respects (calls_within 0) (body u)) ->
  forall h, calls_within n h (snd (FileCache.retry_loop body n url h)).
Proof.
  intros Hbody. induction n as [|n IH]; intros h; cbn [FileCache.retry_loop].
  { apply calls_within_refl. }
  pose proof (Hbody url h) as Hb.
  destruct (body url h) as [[item|e] h1]; cbn [snd] in Hb.
  - specialize (IH h1).
    destruct (FileCache.retry_loop body n url h1) as [[items r] h2]. cbn [snd] in *.
    apply (within_weaken (0 + n)); [lia|]. by eapply within_trans.
  - pose proof (call_handler_within e h1) as Hc.
    assert (calls_within 1 h (snd (call_handler e h1))) as Hone.
    { apply (within_trans 0 1 _ _ _ Hb Hc). }
    destruct (call_handler e h1) as [[[|]|e'] h2]; cbn [snd] in *.
    + change (Datatypes.S n) with (1 + n)%nat. eapply within_trans; [exact Hone|apply IH].
    + apply (within_weaken 1); [lia | done].
    + apply (within_weaken 1); [lia | done].
Qed.

Lemma url_loop_within body urls :
  (forall u, respects (calls_within 0) (body u)) ->
  forall h, calls_within (attempts * length urls) h
              (snd (FileCache.url_loop body urls h)).
Proof.
  intros Hbody. induction urls as [|req rest IH]; intros h;
    cbn [FileCache.url_loop].
  { apply calls_within_refl. }
  destruct (request_url req) as [url|e]; [|apply calls_within_refl].
  pose proof (retry_loop_within body attempts url Hbody h) as Hretry.
  destruct (FileCache.retry_loop body attempts url h) as [[items [[]|e]] h1];
    cbn [snd] in *.
  - specialize (IH h1).
    destruct (FileCache.url_loop body rest h1) as [[items' r] h2]. cbn [snd] in *.
    apply (within_weaken (attempts + attempts * length rest)).
    + cbn [length]. lia.
    + by eapply within_trans.
  - apply (within_weaken attempts); [cbn [length]; lia | done].
Qed.

(** X14: whatever the handler answers, [FileCache.__call__] calls it at most
    ten times for each request (once for each attempt), so a run over a
    finite list of URLs makes at most [10 * len(urls)] calls of the handler;
    [get_file], the sweeper, the downloader and the validator never call it. *)
Theorem call_handler_calls_bounded urlparse urls h :
  let h' := snd (FileCache.__call__ urlparse urls h) in
  (length (handled (events_since (world h) (world h'))) <= 10 * length urls)%nat.
Proof.
  cbn zeta. unfold FileCache.__call__.
  destruct (url_loop_within (FileCache.try_body urlparse) urls
              (silent_try_body urlparse) h) as (evs & Hlog & Hn).
  by rewrite (events_since_app _ _ evs Hlog).
Qed.

(** The bound is reached: with a handler that always answers [True] and a
    transport that fails, two URLs make twenty calls. *)
Example call_handler_calls_bound_reached :
  let h := mkHeap (example_cache (fun _ => Ok true))
                  (world_serving "http://host/none" ["cache"]) in
  match FileCache.__call__ UrlParse.urlparse
          [Url "http://host/a.tar"; Url "http://host/b.tar"] h with
  | (items, r, h') =>
      r = Ok tt /\ length (handled (events_since (world h) (world h'))) = 20%nat
  end.
Proof. vm_compute. repeat split. Qed.

(** ** FileCache.open_file *)






(** A local path is opened where it is: nothing is created in the cache. *)
Example open_file_local_path :
  let w0 := world_with [("data/a.tar", file_of_size 2 5)] ["data"; "cache"] in
  match FileCache.open_file UrlParse.urlparse "file:data/a.tar"
          (mkHeap (example_cache reraise_exception) w0) with
  | (r, h1) =>
      r = Ok (mkStream "data/a.tar" [x00; x00]) /\
      this h1 !! "last_path" = Some (VStr "data/a.tar") /\
      files (world h1) = files w0 /\ log (world h1) = []
  end.
Proof. vm_compute. repeat split. Qed.

(** ** LRUCleanup.cleanup: a key function that fails *)

Lemma with_keys_failure key pre p post w e :
  (forall q, q ∈ pre -> exists k, key (files w) q = Ok k) ->
  key (files w) p = Raise e ->
  with_keys key (pre ++ p :: post) w = (Raise e, w).
Proof.
  intros Hpre Hp. induction pre as [|q pre IH]; cbn [app with_keys].
  - unfold bind at 1. by rewrite Hp.
  - destruct (Hpre q) as [k Hk]; [by left|].
    unfold bind at 1. rewrite Hk. unfold bind at 1.
    rewrite IH; [done|]. intros q' Hq'. apply Hpre. by right.
Qed.

(** The sort computes every key before it moves a file name; when one of
    them fails, the body of the [try] block is left before the loop that
    deletes. *)
Lemma sweep_key_failure self dir w pre p post e :
  cache_size self < dir_total dir w ->
  walk dir w = pre ++ p :: post ->
  (forall q, q ∈ pre -> exists k, keyfn self (files w) q = Ok k) ->
  keyfn self (files w) p = Raise e ->
  sweep self dir w = (Raise e, w).
Proof.
  intros Hover Hwalk Hpre Hp. unfold sweep.
  unfold bind at 1. unfold gets at 1.
  unfold bind at 1. rewrite sum_sizes_spec.
  2:{ intros q Hq. by apply elem_of_walk in Hq as [? _]. }
  rewrite Z.add_0_l. fold (dir_total dir w).
  destruct (Z.leb_spec (dir_total dir w) (cache_size self)) as [Hle|_]; [lia|].
  unfold bind at 1. unfold gets at 1. unfold bind at 1.
  by rewrite Hwalk, (with_keys_failure _ pre p post w e).
Qed.

(** X16: when the cache is over its budget and the key function raises for
    a file of the walk, [cleanup] removes nothing and writes nothing.  An
    [OSError] is swallowed: the call returns and [last_run] is set to the
    clock; any other exception leaves the method. *)
Theorem cleanup_failing_key_removes_nothing self dir w pre p post e :
  scan_runs self dir w ->
  cache_size self < dir_total dir w ->
  walk dir w = pre ++ p :: post ->
  (forall q, q ∈ pre -> exists k, keyfn self (files w) q = Ok k) ->
  keyfn self (files w) p = Raise e ->
  let '(r, w') := cleanup self w in
  files w' = files w /\ log w' = log w /\
  r = if is_OSError e
      then Ok (set_last_run (time_source w (time_reads w + guard_reads self)%nat) self)
      else Raise e.
Proof.
  intros (Hdir & Hex & Hint) Hover Hwalk Hpre Hp.
  set (w0 := match interval self with
             | Some _ => set_time_reads (S (time_reads w)) w
             | None => w
             end).
  assert (files w0 = files w /\ log w0 = log w /\
          time_source w0 = time_source w /\
          time_reads w0 = (time_reads w + guard_reads self)%nat)
    as (Hf0 & Hl0 & Hts0 & Htr0).
  { unfold w0, guard_reads. destruct (interval self); cbn; repeat split; lia. }
  assert (walk dir w0 = walk dir w) as Hwalk0 by (unfold walk; by rewrite Hf0).
  assert (sweep self dir w0 = (Raise e, w0)) as Hsweep.
  { apply (sweep_key_failure self dir w0 pre p post e).
    - unfold dir_total. by rewrite Hwalk0, Hf0.
    - by rewrite Hwalk0.
    - intros q Hq. rewrite Hf0. by apply Hpre.
    - by rewrite Hf0. }
  unfold cleanup. rewrite Hdir. unfold bind at 1. unfold lift_result.
  unfold bind at 1. rewrite os_path_exists_run, Hex. cbn [negb].
  unfold bind at 1.
  assert ((match interval self with
           | Some i => now <- time_time;; ret (now - last_run self <? i)
           | None => ret false
           end) w = (Ok false, w0)) as ->.
  { unfold w0. destruct (interval self) as [i|]; [|done].
    unfold bind, time_time, ret.
    destruct (Z.ltb_spec (time_source w (time_reads w) - last_run self) i);
      [lia | done]. }
  unfold bind at 1. unfold except_OSError. rewrite Hsweep.
  destruct (is_OSError e); [|done].
  unfold bind, time_time, ret. cbn. by rewrite Hf0, Hl0, Hts0, Htr0.
Qed.

Lemma cleanup_failing_key_removes_nothing_witness :
  let self := LRUCleanup_init (Some "cache") 100
                (failing_key "cache/a.tar" ValueError) false (Some 30) in
  let w := world_with [("cache/a.tar", file_of_size 60 5);
                       ("cache/b.tar", file_of_size 60 3);
                       ("cache/c.tar", file_of_size 60 4)] ["cache"] in
  let '(r, w') := cleanup self w in
  files w' = files w /\ log w' = log w /\
  r = if is_OSError ValueError
      then Ok (set_last_run (time_source w (time_reads w + guard_reads self)%nat) self)
      else Raise ValueError.
Proof.
  cbn zeta.
  apply (cleanup_failing_key_removes_nothing
           (LRUCleanup_init (Some "cache") 100
              (failing_key "cache/a.tar" ValueError) false (Some 30))
           "cache"
           (world_with [("cache/a.tar", file_of_size 60 5);
                        ("cache/b.tar", file_of_size 60 3);
                        ("cache/c.tar", file_of_size 60 4)] ["cache"])
           ["cache/c.tar"] "cache/a.tar" ["cache/b.tar"] ValueError).
  - repeat split. cbn. lia.
  - by vm_compute.
  - by vm_compute.
  - intros q Hq. apply list_elem_of_singleton in Hq as ->. by exists 4.
  - by vm_compute.
Defined.

(** A file that vanished for the key function: the [OSError] is swallowed,
    all the files stay, and the next sweep has to wait for the interval. *)
Example cleanup_swallows_key_error :
  let self := LRUCleanup_init (Some "cache") 100
                (failing_key "cache/a.tar" FileNotFoundError) false (Some 30) in
  let w := world_with [("cache/a.tar", file_of_size 60 5);
                       ("cache/b.tar", file_of_size 60 3);
                       ("cache/c.tar", file_of_size 60 4)] ["cache"] in
  match cleanup self w with
  | (r, w') =>
      (last_run <$> (match r with Ok c => Some c | Raise _ => None end)) = Some 1001 /\
      dir_total "cache" w' = 180 /\ log w' = []
  end.
Proof. vm_compute. repeat split. Qed.

(** ** FileCache.get_file: what a caller can rely on *)

(** X17: a path returned by [get_file] on a constructed object is the cache
    directory joined with the name of the URL, and it exists when the call
    returns (as a file, or as a directory); the attributes of the object are
    as they were. *)
Theorem get_file_returns_existing_path
    default_cache_dir url_to_name cache_dir verbose validator handler
    cache_size interval self url w0 p h1 :
  FileCache.__init__ default_cache_dir url_to_name cache_dir verbose validator
                     handler cache_size interval = Ok self ->
  FileCache.get_file url (mkHeap self w0) = (Ok p, h1) ->
  exists cache_name,
    url_to_name url = Ok cache_name /\
    p = Path.join (match cache_dir with
                   | Some d => d
                   | None => default_cache_dir
                   end) cache_name /\
    exists_at (world h1) p = true /\
    this h1 = self.
Proof.
  intros Hinit Hrun.
  destruct (init_lookups _ _ _ _ _ _ _ _ _ Hinit)
    as (Hname & Hdir & Hverbose & Hcleaner & Hval & _).
  destruct (url_to_name url) as [cache_name|e] eqn:Hcn.
  2:{ rewrite (get_file_run url (mkHeap self w0) _ _ _ Hname Hdir Hverbose Hcleaner) in Hrun.
      by rewrite Hcn in Hrun. }
  exists cache_name. split; [done|].
  pose proof (get_file_outcomes url self w0 _ _ _ _ Hname Hdir Hverbose
                Hcleaner Hcn) as Hout.
  rewrite Hrun in Hout.
  inversion Hout as [e|w1 Hhit|e w2 pre Hdest Hlog Hpre
                    |w2 pre stream t r' w1 Hmiss Hne Hnofile Hremote Hcomplete
                       Hdest Honly Hdirs Hcmd2 Hlog Hpre Hr]; subst; try done.
  destruct (FileCache.run_validator _ (mkHeap self w2)) as [[[]|e] h3] eqn:Hrv;
    [|done].
  injection Hr as Hp Hh. subst p h1.
  apply run_validator_Ok in Hrv as (Hthis & Hfiles & _).
  repeat split; try done.
  unfold exists_at. rewrite Hfiles. cbn [world]. rewrite Hdest.
  rewrite bool_decide_eq_true_2; [done | by eexists].
Qed.

Lemma get_file_returns_existing_path_witness :
  let url := "http://host/a.tar" in
  let self := validating_cache (fun _ _ => Ok true) in
  let h1 := snd (FileCache.get_file url (mkHeap self (world_delivering None))) in
  exists cache_name,
    last_segment url = Ok cache_name /\
    "cache/a.tar" = Path.join "cache" cache_name /\
    exists_at (world h1) "cache/a.tar" = true /\
    this h1 = self.
Proof.
  cbn zeta.
  apply (get_file_returns_existing_path "./_cache" last_segment (Some "cache")
           false (Some (fun _ _ => Ok true)) reraise_exception (-1) (Some 30)
           (validating_cache (fun _ _ => Ok true))
           "http://host/a.tar" (world_delivering None) "cache/a.tar").
  - vm_compute. reflexivity.
  - vm_compute. reflexivity.
Defined.

(** X18: with the default namer [url_to_cache_name], a URL whose scheme is
    not on the list of [url_to_cache_name] cannot be cached: [get_file]
    raises [NameError] before it creates a directory or contacts the
    transport, and leaves the state as it was. *)
Theorem get_file_default_namer_rejects_scheme
    default_cache_dir urlparse cache_dir verbose validator handler
    cache_size interval self url w0 :
  FileCache.__init__ default_cache_dir (fun u => url_to_cache_name urlparse u 0)
                     cache_dir verbose validator handler cache_size interval
  = Ok self ->
  Some (scheme (urlparse url)) ∉ cache_name_schemes ->
  FileCache.get_file url (mkHeap self w0)
  = (Raise (NameError "urllib"), mkHeap self w0).
Proof.
  intros Hinit Hscheme.
  destruct (init_lookups _ _ _ _ _ _ _ _ _ Hinit)
    as (Hname & Hdir & Hverbose & Hcleaner & _).
  rewrite (get_file_run url (mkHeap self w0) _ _ _ Hname Hdir Hverbose Hcleaner).
  unfold url_to_cache_name. by rewrite bool_decide_eq_false_2.
Qed.

Lemma get_file_default_namer_rejects_scheme_witness :
  FileCache.get_file "hdfs://host/a.tar" (mkHeap default_cache (world_delivering None))
  = (Raise (NameError "urllib"), mkHeap default_cache (world_delivering None)).
Proof.
  apply (get_file_default_namer_rejects_scheme "./_cache" UrlParse.urlparse None
           false (Some check_tar_format) reraise_exception (-1) (Some 30)
           default_cache "hdfs://host/a.tar" (world_delivering None)).
  - reflexivity.
  - apply (bool_decide_unpack _). by vm_compute.
Defined.

(** With the default namer a cached archive lies one directory deep for each
    character of its name but the last. *)
Example get_file_default_namer_nests_directories :
  let probe := Some (fun (_ : string) (_ : option (list byte)) => "POSIX tar archive") in
  let res := FileCache.get_file "http://host/data/a.tar"
               (mkHeap default_cache (world_delivering probe)) in
  fst res = Ok "./_cache/a/./t/a/r" /\
  bool_decide ("./_cache/a/./t/a" ∈ dirs (world (snd res))) = true /\
  f_data <$> files (world (snd res)) !! "./_cache/a/./t/a/r" = Some [x01; x02].
Proof. vm_compute. repeat split. Qed.
